(** * compiler.go: the linker of the Go-to-JavaScript compiler

    A shallow embedding of [src/compiler/compiler.go]: the source map
    filter ([SourceMapFilter.Write]), the dead code elimination and the
    program assembly of [Compiler.WriteProgramCode], the package emitter
    [Compiler.WritePkgCode] and the archive codec entry points.

    Conventions of the embedding.
    - A Go [string] is a [string]; a [[]byte] that carries code is a
      [list byte].  [PkgPath] and [DepId] are [[]byte] in the source
      ("make asn1 happy") and are only ever used through [string(...)];
      they are strings here.
    - A slice is modelled by its contents, with [cap = len].
    - Go's [int] is 64 bits wide on the build hosts; additions on the
      counters of the filter wrap around ([int_add]).
    - A run-time panic is the outcome [Panicked]; loops whose recursion is
      not structural take fuel and are shown never to exhaust it. *)

From Stdlib Require Import ZArith.
From Stdlib.Strings Require Import Byte Ascii String.
From stdpp Require Import base option list gmap strings sorting.

Local Open Scope Z_scope.

(** ** Go's [int] *)

Definition int_wrap (z : Z) : Z := (z + 2 ^ 63) mod 2 ^ 64 - 2 ^ 63.
Definition int_add (a b : Z) : Z := int_wrap (a + b).

(** ** Outcomes of a call *)

Inductive outcome (A : Type) : Type :=
| Returned (a : A)
| Panicked
| OutOfFuel.
Arguments Returned {A} a.
Arguments Panicked {A}.
Arguments OutOfFuel {A}.

(** ** Bytes *)

#[global] Instance byte_eq_dec : EqDecision byte := Byte.byte_eq_dec.

(** ['\b'], the sentinel that introduces a position cookie, and ['\n']. *)
Definition sentinel : byte := x08.
Definition newline : byte := x0a.

(** [bytes.IndexByte]; [None] stands for Go's [-1]. *)
Fixpoint IndexByte (s : list byte) (c : byte) : option nat :=
  match s with
  | [] => None
  | b :: s' => if decide (b = c) then Some O else S <$> IndexByte s' c
  end.

(** [binary.BigEndian.Uint32] of a four-byte slice. *)
Definition byteZ (b : byte) : Z := Z.of_N (Byte.to_N b).

Definition Uint32 (b : list byte) : Z :=
  match b with
  | [b0; b1; b2; b3] =>
      Z.lor (Z.lor (Z.lor (byteZ b3) (Z.shiftl (byteZ b2) 8))
                   (Z.shiftl (byteZ b1) 16))
            (Z.shiftl (byteZ b0) 24)
  | _ => 0
  end.

(** ** The source map filter *)

Definition error := string.

(** [token.FileSet] is opaque to this file: the decoded position table. *)
Definition token_FileSet := list byte.

(** One invocation of [MappingCallback]. *)
Record Mapping := {
  generatedLine : Z;
  generatedColumn : Z;
  mappingFileSet : option token_FileSet;
  originalPos : Z
}.

#[global] Instance Mapping_eq_dec : EqDecision Mapping.
Proof. solve_decision. Defined.

Section Filter.
(** The underlying [io.Writer]: a sink of state [W] whose [Write]
    reports how many bytes it took and an optional error. *)
Context {W : Type}.
Variable WriterWrite : W -> list byte -> W * (Z * option error).

(** [MappingCallback] is [nil] or a function; its invocations are
    recorded, in order, in [mapped]. *)
Record SourceMapFilter := {
  Writer : W;
  MappingCallback : bool;
  line : Z;
  column : Z;
  fileSet : option token_FileSet;
  mapped : list Mapping
}.

(** The inner loop of [Write]: advance [(line, column)] over [w]. *)
Fixpoint advance (fuel : nat) (l c : Z) (w : list byte) : option (Z * Z) :=
  match fuel with
  | O => None
  | S fuel' =>
      match IndexByte w newline with
      | None => Some (l, int_add c (Z.of_nat (length w)))
      | Some i => advance fuel' (int_add l 1) 0 (drop (S i) w)
      end
  end.

Definition invoke (f : SourceMapFilter) (pos : Z) : SourceMapFilter :=
  if MappingCallback f
  then {| Writer := Writer f; MappingCallback := true;
          line := line f; column := column f; fileSet := fileSet f;
          mapped := mapped f ++
            [{| generatedLine := int_add (line f) 1;
                generatedColumn := column f;
                mappingFileSet := fileSet f;
                originalPos := pos |}] |}
  else f.

(** The outer loop of [Write]; [n] is the running byte count. *)
Fixpoint Write_loop (fuel : nat) (f : SourceMapFilter) (p : list byte) (n : Z)
  : SourceMapFilter * outcome (Z * option error) :=
  match fuel with
  | O => (f, OutOfFuel)
  | S fuel' =>
      let i := IndexByte p sentinel in
      let w := match i with Some i => take i p | None => p end in
      let '(ws, (n2, err)) := WriterWrite (Writer f) w in
      let n := int_add n n2 in
      match advance (S (length w)) (line f) (column f) w with
      | None => (f, OutOfFuel)
      | Some (l, c) =>
          let f := {| Writer := ws; MappingCallback := MappingCallback f;
                      line := l; column := c; fileSet := fileSet f;
                      mapped := mapped f |} in
          match err, i with
          | Some _, _ | None, None => (f, Returned (n, err))
          | None, Some i =>
              (* p[i+1:i+5] and p[i+5:] panic unless i+5 <= len(p); with
                 spare capacity the first would read past len(p) and the
                 second would panic all the same *)
              if decide (i + 5 <= length p)%nat
              then Write_loop fuel'
                     (invoke f (Uint32 (take 4 (drop (S i) p))))
                     (drop (i + 5) p) (int_add n 5)
              else (f, Panicked)
          end
      end
  end.

Definition Write (f : SourceMapFilter) (p : list byte)
  : SourceMapFilter * outcome (Z * option error) :=
  Write_loop (S (length p)) f p 0.
End Filter.

Arguments SourceMapFilter W : clear implicits.

(** [bytes.Buffer] as the underlying writer: it takes every byte. *)
Definition Buffer_Write (buf w : list byte) : list byte * (Z * option error) :=
  (buf ++ w, (Z.of_nat (length w), None)).

(** ** Archives *)

Abbreviation PkgPath := string (only parsing).
Abbreviation DepId := string (only parsing).

Record PkgImport := {
  Path : PkgPath;
  VarName : string
}.

Record Decl := {
  Var : string;
  BodyCode : list byte;
  InitCode : list byte;
  DceFilters : list DepId;
  DceDeps : list DepId
}.

(** [FileSet] is tested against [nil], hence the option. *)
Record Archive := {
  ImportPath : PkgPath;
  GcData : list byte;
  Dependencies : list PkgPath;
  Imports : list PkgImport;
  Declarations : list Decl;
  Tests : list string;
  FileSet : option (list byte)
}.

(** A pointer to a [Decl], obtained as [&pkg.Declarations[i]]: the index
    of the package in [pkgs] and the index of the declaration in it.  The
    archives of [pkgs] are distinct objects. *)
Abbreviation DeclPtr := (nat * nat)%type (only parsing).

Definition get_decl (pkgs : list Archive) (d : DeclPtr) : option Decl :=
  a ← pkgs !! d.1; Declarations a !! d.2.

Definition with_filters (fs : list DepId) (dc : Decl) : Decl :=
  {| Var := Var dc; BodyCode := BodyCode dc; InitCode := InitCode dc;
     DceFilters := fs; DceDeps := DceDeps dc |}.

Definition with_declarations (f : list Decl -> list Decl) (a : Archive) : Archive :=
  {| ImportPath := ImportPath a; GcData := GcData a;
     Dependencies := Dependencies a; Imports := Imports a;
     Declarations := f (Declarations a); Tests := Tests a;
     FileSet := FileSet a |}.

(** The write [d.DceFilters = fs] through the pointer [d]. *)
Definition set_filters (pkgs : list Archive) (d : DeclPtr) (fs : list DepId)
  : list Archive :=
  alter (with_declarations (alter (with_filters fs) d.2)) d.1 pkgs.

(** ** Dead code elimination *)

Definition colon : ascii := ":"%char.

(** [strings.Split(s, ":")]. *)
Fixpoint Split (s : string) : list string :=
  match s with
  | EmptyString => [EmptyString]
  | String c s' =>
      if decide (c = colon) then EmptyString :: Split s'
      else match Split s' with
           | x :: r => String c x :: r
           | [] => [String c EmptyString]
           end
  end.

(** [string(pkg.ImportPath) + ":" + string(f)] *)
Definition object_key (path : PkgPath) (f : DepId) : string :=
  path +:+ ":" +:+ f.

Record dce_state := {
  st_pkgs : list Archive;
  declsByObject : gmap string (list DeclPtr);
  pendingDecls : list DeclPtr
}.

(** [declsByObject[o] = append(declsByObject[o], d)] *)
Definition index_append (o : string) (d : DeclPtr)
  (m : gmap string (list DeclPtr)) : gmap string (list DeclPtr) :=
  <[o := default [] (m !! o) ++ [d]]> m.

Definition collect_decl (path : PkgPath) (d : DeclPtr) (dc : Decl)
  (st : gmap string (list DeclPtr) * list DeclPtr)
  : gmap string (list DeclPtr) * list DeclPtr :=
  if decide (length (DceFilters dc) = 0%nat)
  then (st.1, st.2 ++ [d])
  else (foldl (fun m f => index_append (object_key path f) d m) st.1
          (DceFilters dc), st.2).

Fixpoint collect_decls (path : PkgPath) (pi di : nat) (ds : list Decl)
  (st : gmap string (list DeclPtr) * list DeclPtr)
  : gmap string (list DeclPtr) * list DeclPtr :=
  match ds with
  | [] => st
  | dc :: ds' =>
      collect_decls path pi (S di) ds' (collect_decl path (pi, di) dc st)
  end.

Fixpoint collect_pkgs (pi : nat) (pkgs : list Archive)
  (st : gmap string (list DeclPtr) * list DeclPtr)
  : gmap string (list DeclPtr) * list DeclPtr :=
  match pkgs with
  | [] => st
  | pkg :: pkgs' =>
      collect_pkgs (S pi) pkgs'
        (collect_decls (ImportPath pkg) pi 0 (Declarations pkg) st)
  end.

(** The index of the first filter equal to [name], as the inner [for]
    finds it before its [break]. *)
Fixpoint find_filter (name : string) (fs : list DepId) : option nat :=
  match fs with
  | [] => None
  | f :: fs' => if decide (f = name) then Some O else S <$> find_filter name fs'
  end.

(** [d.DceFilters[i] = d.DceFilters[len-1]; d.DceFilters = d.DceFilters[:len-1]] *)
Definition remove_filter (name : string) (fs : list DepId) : list DepId :=
  match find_filter name fs, last fs with
  | Some i, Some x => take (length fs - 1) (<[i := x]> fs)
  | _, _ => fs
  end.

(** [for _, d := range decls { ... }]: every pointer of [decls] comes from
    [pkgs], so the lookup cannot fail. *)
Fixpoint release (name : string) (decls : list DeclPtr)
  (pkgs : list Archive) (pending : list DeclPtr)
  : list Archive * list DeclPtr :=
  match decls with
  | [] => (pkgs, pending)
  | d :: decls' =>
      match get_decl pkgs d with
      | None => release name decls' pkgs pending
      | Some dc =>
          let fs := remove_filter name (DceFilters dc) in
          release name decls' (set_filters pkgs d fs)
            (if decide (length fs = 0%nat) then pending ++ [d] else pending)
      end
  end.

(** [for _, dep := range d.DceDeps { ... }] *)
Fixpoint visit_deps (deps : list DepId) (st : dce_state) : outcome dce_state :=
  match deps with
  | [] => Returned st
  | o :: deps' =>
      match declsByObject st !! o with
      | Some decls =>
          match Split o !! 1%nat with
          | None => Panicked
          | Some name =>
              let '(pkgs, pending) :=
                release name decls (st_pkgs st) (pendingDecls st) in
              visit_deps deps'
                {| st_pkgs := pkgs;
                   declsByObject := delete o (declsByObject st);
                   pendingDecls := pending |}
          end
      | None => visit_deps deps' st
      end
  end.

(** [d := pendingDecls[len-1]; pendingDecls = pendingDecls[:len-1]] *)
Definition pop (l : list DeclPtr) : option (list DeclPtr * DeclPtr) :=
  match last l with
  | Some d => Some (take (length l - 1) l, d)
  | None => None
  end.

(** [for len(pendingDecls) != 0 { ... }] *)
Fixpoint dce_loop (fuel : nat) (st : dce_state) : outcome dce_state :=
  match fuel with
  | O => OutOfFuel
  | S fuel' =>
      match pop (pendingDecls st) with
      | None => Returned st
      | Some (pending, d) =>
          match get_decl (st_pkgs st) d with
          | None => Panicked
          | Some dc =>
              match visit_deps (DceDeps dc)
                      {| st_pkgs := st_pkgs st;
                         declsByObject := declsByObject st;
                         pendingDecls := pending |} with
              | Returned st' => dce_loop fuel' st'
              | o => o
              end
          end
      end
  end.

Definition dce_fuel (pkgs : list Archive) : nat :=
  S (sum_list ((fun a =>
       sum_list ((fun dc => S (length (DceFilters dc))) <$> Declarations a))
     <$> pkgs)).

(** Lines 164-202 of [WriteProgramCode]. *)
Definition dce (pkgs : list Archive) : outcome dce_state :=
  let st := collect_pkgs 0 pkgs (∅, []) in
  dce_loop (dce_fuel pkgs)
    {| st_pkgs := pkgs; declsByObject := st.1; pendingDecls := st.2 |}.

(** ** The type information the linker consumes

    [go/types] is an external library; the linker reads it through the
    few observers below. *)

Record Interface := {
  methods : list string
}.

(** [Interface.Empty] *)
Definition Empty (i : Interface) : bool :=
  bool_decide (methods i = []).

(** What the type switch on [Type().Underlying()] distinguishes. *)
Inductive Underlying :=
| UInterface (i : Interface)
| UStruct
| UOther.

(** A [types.TypeName]; [Pkg] is [nil] for the objects of the universe. *)
Record TypeName := {
  Name : string;
  Pkg : option string;
  underlying : Underlying
}.

Inductive GoType :=
| TNamed (obj : TypeName)
| TPointer (elem : GoType).

Inductive Object :=
| ObjTypeName (t : TypeName)
| ObjOther.

Record types_Package := {
  pkg_Path : string;
  Scope : gmap string Object
}.

Record Compiler := {
  typesPackages : gmap string types_Package
}.

(** The object of the universe's [error] type, as [types.New] returns
    it: an interface with the one method [Error]. *)
Definition universe_error : TypeName :=
  {| Name := "error"; Pkg := None;
     underlying := UInterface {| methods := ["Error"] |} |}.

(** ** Strings of the emitted program *)

Definition dquote : string := String "034"%char EmptyString.
Definition nl : string := String "010"%char EmptyString.
Definition tab : string := String "009"%char EmptyString.

(** [[]byte(s)] *)
Definition bytes (s : string) : list byte := list_byte_of_string s.

(** [strings.Join] *)
Fixpoint Join (l : list string) (sep : string) : string :=
  match l with
  | [] => EmptyString
  | [x] => x
  | x :: l' => x +:+ sep +:+ Join l' sep
  end.

(** The byte-wise order of Go's strings, and [sort.Strings]: the sorted
    rearrangement of a list is unique, whatever the algorithm. *)
Definition string_le (a b : string) : Prop := Is_true (String.leb a b).

#[global] Instance string_le_dec : RelDecision string_le.
Proof. intros a b; unfold string_le; apply _. Defined.

Definition sort_Strings (l : list string) : list string :=
  merge_sort string_le l.

(** The [fmt.Sprintf] that names [path]'s member [name] in [$packages]. *)
Definition packages_ref (path name : string) : string :=
  "$packages[" +:+ dquote +:+ path +:+ dquote +:+ "]." +:+ name.

(** [other.Pkg().Path()]: a nil package pointer is dereferenced. *)
Definition Pkg_Path (t : TypeName) : outcome string :=
  match Pkg t with
  | Some path => Returned path
  | None => Panicked
  end.

Definition obind {A B} (x : outcome A) (k : A -> outcome B) : outcome B :=
  match x with
  | Returned a => k a
  | Panicked => Panicked
  | OutOfFuel => OutOfFuel
  end.

Section Linker.
Context {W : Type}.
Variable WriterWrite : W -> list byte -> W * (Z * option error).

(** Of this repository but of other files: the whitespace stripper and
    the text of the prelude.  Of other libraries: [strings.TrimSpace],
    the decoder of the serialized [token.FileSet],
    [types.AssignableTo], and the order in which [range] walks a map. *)
Variable removeWhitespace : list byte -> bool -> list byte.
Variable prelude : string.
Variable TrimSpace : string -> string.
Variable FileSet_Read : list byte -> option token_FileSet.
Variable AssignableTo : GoType -> Interface -> bool.
Variable range_keys : gmap string bool -> list string.

(** Code that writes through the filter and may panic. *)
Definition M (A : Type) : Type :=
  SourceMapFilter W -> SourceMapFilter W * outcome A.

Definition ret {A} (a : A) : M A := fun w => (w, Returned a).

Definition bind {A B} (m : M A) (k : A -> M B) : M B :=
  fun w =>
    match m w with
    | (w', Returned a) => k a w'
    | (w', Panicked) => (w', Panicked)
    | (w', OutOfFuel) => (w', OutOfFuel)
    end.

Definition lift {A} (x : outcome A) : M A := fun w => (w, x).

(** [w.Write(p)], its results dropped as the callers do. *)
Definition w_Write (p : list byte) : M unit :=
  fun w =>
    match Write WriterWrite w p with
    | (w', Returned _) => (w', Returned tt)
    | (w', Panicked) => (w', Panicked)
    | (w', OutOfFuel) => (w', OutOfFuel)
    end.

Fixpoint for_range {A} (l : list A) (body : A -> M unit) : M unit :=
  match l with
  | [] => ret tt
  | x :: l' => bind (body x) (fun _ => for_range l' body)
  end.

(** *** [WritePkgCode] *)

Definition set_fileSet (fs : token_FileSet) : M unit :=
  fun w =>
    ({| Writer := Writer w; MappingCallback := MappingCallback w;
        line := line w; column := column w; fileSet := Some fs;
        mapped := mapped w |}, Returned tt).

(** [token.NewFileSet()] *)
Definition NewFileSet : token_FileSet := [].

Definition load_fileSet (pkg : Archive) : M unit :=
  fun w =>
    match MappingCallback w, FileSet pkg with
    | true, Some data =>
        bind (set_fileSet NewFileSet)
          (fun _ => match FileSet_Read data with
                    | Some fs => set_fileSet fs
                    | None => lift Panicked
                    end) w
    | _, _ => ret tt w
    end.

Definition import_binding (imp : PkgImport) : string :=
  VarName imp +:+ " = $packages[" +:+ dquote +:+ Path imp +:+ dquote +:+ "]".

Definition pkg_vars (pkg : Archive) : list string :=
  let vars := ["$pkg = {}"] in
  let vars :=
    foldl (fun vars imp => vars ++ [import_binding imp]) vars (Imports pkg) in
  foldl (fun vars d =>
           if decide (length (DceFilters d) = 0%nat /\ Var d <> EmptyString)
           then vars ++ [Var d] else vars)
        vars (Declarations pkg).

Definition WritePkgCode (pkg : Archive) (minify : bool) : M unit :=
  bind (load_fileSet pkg) (fun _ =>
  bind (w_Write (removeWhitespace
          (bytes ("$packages[" +:+ dquote +:+ ImportPath pkg +:+ dquote
                  +:+ "] = (function() {" +:+ nl)) minify)) (fun _ =>
  let vars := pkg_vars pkg in
  bind (if decide (length vars <> 0%nat)
        then w_Write (removeWhitespace
               (bytes (tab +:+ "var " +:+ Join vars ", " +:+ ";" +:+ nl)) minify)
        else ret tt) (fun _ =>
  bind (for_range (Declarations pkg) (fun d =>
          if decide (length (DceFilters d) = 0%nat)
          then w_Write (BodyCode d) else ret tt)) (fun _ =>
  bind (w_Write (removeWhitespace
          (bytes (tab +:+ "$pkg.init = function() {" +:+ nl)) minify)) (fun _ =>
  bind (for_range (Declarations pkg) (fun d =>
          if decide (length (DceFilters d) = 0%nat)
          then w_Write (InitCode d) else ret tt)) (fun _ =>
  bind (w_Write (removeWhitespace
          (bytes (tab +:+ "};" +:+ nl +:+ tab +:+ "return $pkg;" +:+ nl
                  +:+ "})();")) minify)) (fun _ =>
  w_Write (bytes nl)))))))).

(** *** The interface tables of [WriteProgramCode] *)

(** [scope.Names()]: the names of the scope, sorted. *)
Definition Scope_Names (scope : gmap string Object) : list string :=
  sort_Strings (elements (dom scope)).

Definition scope_type_names (path : PkgPath) (scope : gmap string Object)
  (index : gmap string (list DeclPtr)) (acc : list TypeName) : list TypeName :=
  foldl (fun acc name =>
           match scope !! name with
           | Some (ObjTypeName typeName) =>
               match index !! object_key path name with
               | None => acc ++ [typeName]
               | Some _ => acc
               end
           | _ => acc
           end)
        acc (Scope_Names scope).

Fixpoint collect_type_names (t : Compiler) (pkgs : list Archive)
  (index : gmap string (list DeclPtr)) (acc : list TypeName)
  : outcome (list TypeName) :=
  match pkgs with
  | [] => Returned acc
  | pkg :: pkgs' =>
      match typesPackages t !! ImportPath pkg with
      | None => Panicked
      | Some tp =>
          collect_type_names t pkgs' index
            (scope_type_names (ImportPath pkg) (Scope tp) index acc)
      end
  end.

(** The body of [for _, other := range allTypeNames]. *)
Definition add_implementor (i : Interface) (other : TypeName)
  (implementedBy : gmap string bool) : outcome (gmap string bool) :=
  let otherType := TNamed other in
  match underlying other with
  | UInterface _ => Returned implementedBy
  | UStruct =>
      obind (if AssignableTo otherType i
             then obind (Pkg_Path other) (fun path =>
                    Returned (<[packages_ref path (Name other) := true]>
                                implementedBy))
             else Returned implementedBy) (fun implementedBy =>
      if AssignableTo (TPointer otherType) i
      then obind (Pkg_Path other) (fun path =>
             Returned (<[packages_ref path (Name other) +:+ ".Ptr" := true]>
                         implementedBy))
      else Returned implementedBy)
  | UOther =>
      obind (if AssignableTo otherType i
             then obind (Pkg_Path other) (fun path =>
                    Returned (<[packages_ref path (Name other) := true]>
                                implementedBy))
             else Returned implementedBy) (fun implementedBy =>
      if AssignableTo (TPointer otherType) i
      then obind (Pkg_Path other) (fun path =>
             Returned (<["$ptrType(" +:+ packages_ref path (Name other) +:+ ")"
                         := true]> implementedBy))
      else Returned implementedBy)
  end.

Fixpoint implementors (i : Interface) (others : list TypeName)
  (implementedBy : gmap string bool) : outcome (gmap string bool) :=
  match others with
  | [] => Returned implementedBy
  | other :: others' =>
      obind (add_implementor i other implementedBy)
            (implementors i others')
  end.

Definition table_target (t : TypeName) : outcome string :=
  if decide (Name t = "error") then Returned "$error"
  else obind (Pkg_Path t) (fun path => Returned (packages_ref path (Name t))).

(** The body of [for _, t := range allTypeNames]. *)
Definition write_table (allTypeNames : list TypeName) (minify : bool)
  (t : TypeName) : M unit :=
  match underlying t with
  | UInterface i =>
      if Empty i then ret tt
      else
        bind (lift (implementors i allTypeNames ∅)) (fun implementedBy =>
        let list := sort_Strings (range_keys implementedBy) in
        bind (lift (table_target t)) (fun target =>
        w_Write (removeWhitespace
          (bytes (target +:+ ".implementedBy = [" +:+ Join list ", "
                  +:+ "];" +:+ nl)) minify)))
  | _ => ret tt
  end.

(** *** [WriteProgramCode]; the archives as the DCE left them are
    returned, since the caller's [pkgs] are mutated in place. *)
Definition WriteProgramCode (t : Compiler) (pkgs : list Archive)
  (mainPkgPath : string) (minify : bool) : M (list Archive) :=
  bind (lift (dce pkgs)) (fun st =>
  let pkgs := st_pkgs st in
  bind (w_Write (bytes (dquote +:+ "use strict" +:+ dquote +:+ ";" +:+ nl
                        +:+ "(function() {" +:+ nl +:+ nl))) (fun _ =>
  bind (w_Write (removeWhitespace (bytes (TrimSpace prelude)) minify)) (fun _ =>
  bind (w_Write (bytes nl)) (fun _ =>
  bind (for_range pkgs (fun pkg => WritePkgCode pkg minify)) (fun _ =>
  bind (lift (collect_type_names t pkgs (declsByObject st) [universe_error]))
    (fun allTypeNames =>
  bind (for_range allTypeNames (write_table allTypeNames minify)) (fun _ =>
  bind (for_range pkgs (fun pkg =>
          w_Write (bytes ("$packages[" +:+ dquote +:+ ImportPath pkg
                          +:+ dquote +:+ "].init();" +:+ nl)))) (fun _ =>
  bind (w_Write (bytes ("$packages[" +:+ dquote +:+ mainPkgPath +:+ dquote
                        +:+ "].main(function() {});" +:+ nl +:+ nl
                        +:+ "})();" +:+ nl))) (fun _ =>
  ret pkgs))))))))).
End Linker.

(** ** The filter as it is specified: one byte at a time *)

(** A newline byte increments the line and resets the column; any other
    byte increments the column by one. *)
Definition track (pos : Z * Z) (b : byte) : Z * Z :=
  if decide (b = newline) then (int_add pos.1 1, 0)
  else (pos.1, int_add pos.2 1).

(** Forward one ordinary byte to the sink. *)
Definition forward (b : byte) (f : SourceMapFilter (list byte))
  : SourceMapFilter (list byte) :=
  {| Writer := Writer f ++ [b]; MappingCallback := MappingCallback f;
     line := (track (line f, column f) b).1;
     column := (track (line f, column f) b).2;
     fileSet := fileSet f; mapped := mapped f |}.

(** Report [(currentLine+1, currentColumn, cookie)] to the mapping sink,
    if one was supplied. *)
Definition report (cookie : Z) (f : SourceMapFilter (list byte))
  : SourceMapFilter (list byte) :=
  {| Writer := Writer f; MappingCallback := MappingCallback f;
     line := line f; column := column f; fileSet := fileSet f;
     mapped :=
       if MappingCallback f
       then mapped f ++ [{| generatedLine := int_add (line f) 1;
                            generatedColumn := column f;
                            mappingFileSet := fileSet f;
                            originalPos := cookie |}]
       else mapped f |}.

(** The big-endian value of the four cookie bytes. *)
Definition cookie_value (c0 c1 c2 c3 : byte) : Z :=
  byteZ c0 * 2 ^ 24 + byteZ c1 * 2 ^ 16 + byteZ c2 * 2 ^ 8 + byteZ c3.

(** Every sentinel of [p] is followed by its four cookie bytes. *)
Fixpoint complete_cookies (p : list byte) : bool :=
  match p with
  | [] => true
  | b :: rest =>
      if decide (b = sentinel)
      then match rest with
           | _ :: _ :: _ :: _ :: rest' => complete_cookies rest'
           | _ => false
           end
      else complete_cookies rest
  end.

Fixpoint scan (p : list byte) (f : SourceMapFilter (list byte))
  : SourceMapFilter (list byte) :=
  match p with
  | [] => f
  | b :: rest =>
      if decide (b = sentinel)
      then match rest with
           | c0 :: c1 :: c2 :: c3 :: rest' =>
               scan rest' (report (cookie_value c0 c1 c2 c3) f)
           | _ => f
           end
      else scan rest (forward b f)
  end.

(** The bytes of [p] that reach the sink. *)
Fixpoint strip (p : list byte) : list byte :=
  match p with
  | [] => []
  | b :: rest =>
      if decide (b = sentinel)
      then match rest with
           | _ :: _ :: _ :: _ :: rest' => strip rest'
           | _ => []
           end
      else b :: strip rest
  end.

(** Two consecutive calls of [Write]; a panic of the first ends the run. *)
Definition Write_twice (f : SourceMapFilter (list byte)) (p1 p2 : list byte)
  : SourceMapFilter (list byte) * outcome (Z * option error) :=
  match Write Buffer_Write f p1 with
  | (f1, Returned (n1, None)) =>
      match Write Buffer_Write f1 p2 with
      | (f2, Returned (n2, err)) => (f2, Returned (int_add n1 n2, err))
      | r => r
      end
  | r => r
  end.

(** The property under test for fragmented input: writing [p] in two
    pieces cut at byte [k] does what writing it at once does. *)
Definition fragmentation_invariant (f : SourceMapFilter (list byte))
  (p : list byte) (k : nat) : Prop :=
  Write_twice f (take k p) (drop k p) = Write Buffer_Write f p.

(** A fresh filter over an empty buffer. *)
Definition new_filter (callback : bool) : SourceMapFilter (list byte) :=
  {| Writer := []; MappingCallback := callback; line := 0; column := 0;
     fileSet := None; mapped := [] |}.

(** ** Liveness, as the DCE is meant to compute it *)

(** Go identifiers and import paths hold no colon, which is what lets
    [strings.Split(o, ":")[1]] recover the filter from its key. *)
Fixpoint no_colon (s : string) : bool :=
  match s with
  | EmptyString => true
  | String c s' => if decide (c = colon) then false else no_colon s'
  end.

Definition well_formed (pkgs : list Archive) : bool :=
  forallb (fun a =>
    no_colon (ImportPath a) &&
    forallb (fun dc => forallb no_colon (DceFilters dc)) (Declarations a))
  pkgs.

(** A declaration is live when every one of its filters is a dependency
    of some live declaration; one without filters is live outright. *)
#[warnings="-register-all"]
Inductive Live (pkgs : list Archive) : DeclPtr -> Prop :=
| Live_intro (d : DeclPtr) (a : Archive) (dc : Decl) :
    pkgs !! d.1 = Some a ->
    Declarations a !! d.2 = Some dc ->
    (forall f, f ∈ DceFilters dc ->
       exists d' dc', Live pkgs d' /\ get_decl pkgs d' = Some dc' /\
                      object_key (ImportPath a) f ∈ DceDeps dc') ->
    Live pkgs d.

(** One Deps-to-Filters hop: some dependency of [d'] is among the filters
    of [d]. *)
Definition hop (pkgs : list Archive) (d' d : DeclPtr) : Prop :=
  exists a dc dc' f,
    pkgs !! d.1 = Some a /\ Declarations a !! d.2 = Some dc /\
    get_decl pkgs d' = Some dc' /\
    f ∈ DceFilters dc /\ object_key (ImportPath a) f ∈ DceDeps dc'.

(** Reachable, by zero or more hops, from a declaration without filters. *)
Definition reachable (pkgs : list Archive) (d : DeclPtr) : Prop :=
  exists d0 dc0,
    get_decl pkgs d0 = Some dc0 /\ DceFilters dc0 = [] /\ rtc (hop pkgs) d0 d.

(** The filters of [d] are drained in [pkgs]. *)
Definition emptied (pkgs : list Archive) (d : DeclPtr) : Prop :=
  exists dc, get_decl pkgs d = Some dc /\ DceFilters dc = [].

(** The DCE only ever shortens filter lists: what else relates the
    archives before and after. *)
Definition same_decl (dc0 dc : Decl) : Prop :=
  Var dc = Var dc0 /\ BodyCode dc = BodyCode dc0 /\
  InitCode dc = InitCode dc0 /\ DceDeps dc = DceDeps dc0 /\
  DceFilters dc ⊆ DceFilters dc0.

Definition same_archive (a0 a : Archive) : Prop :=
  ImportPath a = ImportPath a0 /\ GcData a = GcData a0 /\
  Dependencies a = Dependencies a0 /\ Imports a = Imports a0 /\
  Tests a = Tests a0 /\ FileSet a = FileSet a0 /\
  Forall2 same_decl (Declarations a0) (Declarations a).

Definition same_shape (pkgs0 pkgs : list Archive) : Prop :=
  Forall2 same_archive pkgs0 pkgs.

(** The entries of the index under a key, none when the key is absent. *)
Definition index_at (m : gmap string (list DeclPtr)) (o : string)
  : list DeclPtr :=
  default [] (m !! o).

Definition index_size (m : gmap string (list DeclPtr)) : nat :=
  sum_list ((fun e => length e.2) <$> map_to_list m).

Definition path_of (pkgs : list Archive) (d : DeclPtr) : PkgPath :=
  default EmptyString (ImportPath <$> pkgs !! d.1).

Definition filters_of (pkgs : list Archive) (d : DeclPtr) : list DepId :=
  default [] (DceFilters <$> get_decl pkgs d).

(** How many filters of [d] stand for the key [o]. *)
Definition guards (pkgs : list Archive) (d : DeclPtr) (o : string) : nat :=
  length (filter (fun f => object_key (path_of pkgs d) f = o)
            (filters_of pkgs d)).

(** ** The invariant of the DCE loops *)

Definition occurrences (d : DeclPtr) (l : list DeclPtr) : nat :=
  length (filter (fun x => x = d) l).

(** The index while the list of one key, already deleted from the map, is
    being walked: [ds] is what is left of that list. *)
Definition index_with (o : string) (ds : list DeclPtr)
  (idx : string -> list DeclPtr) (o' : string) : list DeclPtr :=
  if decide (o' = o) then ds else idx o'.

Definition keys_ok (m : gmap string (list DeclPtr)) : Prop :=
  forall o ds, m !! o = Some ds -> exists p f, o = object_key p f.

(** [done] lists the declarations already taken off the worklist. *)
Record dce_inv (pkgs0 : list Archive) (done : list DeclPtr)
  (idx : string -> list DeclPtr) (pkgs : list Archive)
  (pending : list DeclPtr) : Prop := {
  inv_shape : same_shape pkgs0 pkgs;
  inv_pending : forall d, d ∈ pending -> emptied pkgs d;
  inv_emptied : forall d, emptied pkgs d -> d ∈ pending \/ d ∈ done;
  inv_count : well_formed pkgs0 = true ->
    forall o d, occurrences d (idx o) = guards pkgs d o;
  inv_removed : well_formed pkgs0 = true ->
    forall d dc0 f,
      get_decl pkgs0 d = Some dc0 -> f ∈ DceFilters dc0 ->
      f ∉ filters_of pkgs d ->
      exists d' dc', Live pkgs0 d' /\ get_decl pkgs0 d' = Some dc' /\
                     object_key (path_of pkgs0 d) f ∈ DceDeps dc'
}.

(** Every dependency of a declaration taken off the worklist has had its
    index entry consumed. *)
Definition deps_consumed (pkgs0 : list Archive) (done : list DeclPtr)
  (m : gmap string (list DeclPtr)) : Prop :=
  forall d dc dep, d ∈ done -> get_decl pkgs0 d = Some dc ->
                   dep ∈ DceDeps dc -> m !! dep = None.

(** How many of the filters [fs], qualified by [path], are the key [o]. *)
Definition key_count (path : PkgPath) (o : string) (fs : list DepId) : nat :=
  length (filter (fun f => object_key path f = o) fs).

(** What one declaration adds to the worklist and the index together. *)
Definition decl_weight (dc : Decl) : nat :=
  if decide (length (DceFilters dc) = 0%nat) then 1%nat
  else length (DceFilters dc).

(** Two programs with the same Filters/Deps relation: the same packages
    and declarations, whose filter and dependency lists hold the same
    symbols, in whatever order and multiplicity. *)
Definition same_relation (pkgs1 pkgs2 : list Archive) : Prop :=
  Forall2 (fun a1 a2 =>
    ImportPath a1 = ImportPath a2 /\
    Forall2 (fun d1 d2 =>
      (forall f, f ∈ DceFilters d1 <-> f ∈ DceFilters d2) /\
      (forall o, o ∈ DceDeps d1 <-> o ∈ DceDeps d2))
      (Declarations a1) (Declarations a2))
  pkgs1 pkgs2.

(** Small programs used as examples. *)
Definition example_decl (v : string) (filters deps : list DepId) : Decl :=
  {| Var := v; BodyCode := bytes (v +:+ "_body;"); InitCode := bytes (v +:+ "_init;");
     DceFilters := filters; DceDeps := deps |}.

Definition example_archive (path : PkgPath) (ds : list Decl) : Archive :=
  {| ImportPath := path; GcData := []; Dependencies := []; Imports := [];
     Declarations := ds; Tests := []; FileSet := None |}.

(** [A] is unconditionally live and depends on [p:f]; [B] is guarded by
    [f]; [C] is guarded by [f] and by [g], which nothing depends on. *)
Definition example_program : list Archive :=
  [example_archive "p"
     [example_decl "A" [] ["p:f"];
      example_decl "B" ["f"] [];
      example_decl "C" ["f"; "g"] []]].

(** ** The emitted program, as the list of its writes *)

(** The declarations the DCE left without filters. *)
Definition live_decls (pkg : Archive) : list Decl :=
  filter (fun d => DceFilters d = []) (Declarations pkg).

Definition is_interface (t : TypeName) : bool :=
  match underlying t with
  | UInterface _ => true
  | _ => false
  end.

(** The value form and the pointer form of an implementor reference. *)
Definition value_ref (t : TypeName) : string :=
  packages_ref (default EmptyString (Pkg t)) (Name t).

Definition pointer_ref (t : TypeName) : string :=
  match underlying t with
  | UStruct => value_ref t +:+ ".Ptr"
  | _ => "$ptrType(" +:+ value_ref t +:+ ")"
  end.

(** The interface a table is generated for: one with a method. *)
Definition qualifies (t : TypeName) : option Interface :=
  match underlying t with
  | UInterface i => if Empty i then None else Some i
  | _ => None
  end.

Definition target_name (t : TypeName) : string :=
  if decide (Name t = "error") then "$error" else value_ref t.

Definition init_call (pkg : Archive) : list byte :=
  bytes ("$packages[" +:+ dquote +:+ ImportPath pkg +:+ dquote
         +:+ "].init();" +:+ nl).

Definition program_header : list byte :=
  bytes (dquote +:+ "use strict" +:+ dquote +:+ ";" +:+ nl
         +:+ "(function() {" +:+ nl +:+ nl).

Definition entry_call (mainPkgPath : string) : list byte :=
  bytes ("$packages[" +:+ dquote +:+ mainPkgPath +:+ dquote
         +:+ "].main(function() {});" +:+ nl +:+ nl +:+ "})();" +:+ nl).

(** The type names of the scope of [path] that the DCE left in use, in
    the order of [Scope.Names]. *)
Definition used_type_names (path : PkgPath) (scope : gmap string Object)
  (index : gmap string (list DeclPtr)) : list TypeName :=
  omap (fun name =>
          match scope !! name with
          | Some (ObjTypeName typeName) =>
              match index !! object_key path name with
              | None => Some typeName
              | Some _ => None
              end
          | _ => None
          end)
       (Scope_Names scope).

(** The candidate type names: the universe's [error] first, then those
    of each package in the order of the archives. *)
Definition candidates (t : Compiler) (pkgs : list Archive)
  (index : gmap string (list DeclPtr)) : list TypeName :=
  universe_error ::
  (pkgs ≫= fun pkg =>
     match typesPackages t !! ImportPath pkg with
     | Some tp => used_type_names (ImportPath pkg) (Scope tp) index
     | None => []
     end).

Section Plan.
Variable removeWhitespace : list byte -> bool -> list byte.
Variable prelude : string.
Variable TrimSpace : string -> string.
Variable AssignableTo : GoType -> Interface -> bool.

(** The entries of the combined variable statement. *)
Definition var_entries (pkg : Archive) : list string :=
  ["$pkg = {}"] ++ (import_binding <$> Imports pkg) ++
  (Var <$> filter (fun d => Var d <> EmptyString) (live_decls pkg)).

Definition pkg_plan (pkg : Archive) (minify : bool) : list (list byte) :=
  [removeWhitespace
     (bytes ("$packages[" +:+ dquote +:+ ImportPath pkg +:+ dquote
             +:+ "] = (function() {" +:+ nl)) minify;
   removeWhitespace
     (bytes (tab +:+ "var " +:+ Join (var_entries pkg) ", " +:+ ";" +:+ nl))
     minify] ++
  (BodyCode <$> live_decls pkg) ++
  [removeWhitespace (bytes (tab +:+ "$pkg.init = function() {" +:+ nl)) minify] ++
  (InitCode <$> live_decls pkg) ++
  [removeWhitespace
     (bytes (tab +:+ "};" +:+ nl +:+ tab +:+ "return $pkg;" +:+ nl +:+ "})();"))
     minify;
   bytes nl].

(** The references [other] contributes to the table of [i]. *)
Definition implementor_refs (i : Interface) (other : TypeName) : list string :=
  if is_interface other then []
  else (if AssignableTo (TNamed other) i then [value_ref other] else []) ++
       (if AssignableTo (TPointer (TNamed other)) i then [pointer_ref other]
        else []).

(** The implementors of [i]: a set, sorted. *)
Definition implementedBy_list (i : Interface) (all : list TypeName)
  : list string :=
  sort_Strings (remove_dups (all ≫= implementor_refs i)).

Definition table_line (all : list TypeName) (minify : bool) (t : TypeName)
  (i : Interface) : list byte :=
  removeWhitespace
    (bytes (target_name t +:+ ".implementedBy = ["
            +:+ Join (implementedBy_list i all) ", " +:+ "];" +:+ nl))
    minify.

(** One table per candidate that qualifies, in the order of the
    candidates. *)
Definition table_plan (all : list TypeName) (minify : bool)
  : list (list byte) :=
  omap (fun t => table_line all minify t <$> qualifies t) all.

Definition program_plan (t : Compiler) (pkgs : list Archive)
  (index : gmap string (list DeclPtr)) (mainPkgPath : string) (minify : bool)
  : list (list byte) :=
  [program_header;
   removeWhitespace (bytes (TrimSpace prelude)) minify;
   bytes nl] ++
  (pkgs ≫= fun pkg => pkg_plan pkg minify) ++
  table_plan (candidates t pkgs index) minify ++
  (init_call <$> pkgs) ++
  [entry_call mainPkgPath].
End Plan.

(** Every type name of a registered scope belongs to a package. *)
Definition scopes_ok (t : Compiler) : Prop :=
  forall path tp name tn,
    typesPackages t !! path = Some tp ->
    Scope tp !! name = Some (ObjTypeName tn) -> is_Some (Pkg tn).

(** What the sink holds after the writes of [chunks]. *)
Definition sink_after (buf : list byte) (chunks : list (list byte))
  : list byte :=
  buf ++ concat (strip <$> chunks).

(** [m], run over a buffer by a filter whose callback is set or not as
    [cb] says and whose column is in range, returns [a] and leaves in the
    buffer what the writes of [chunks] leave there, provided every chunk
    carries complete cookies. *)
Definition writes {A : Type} (cb : bool) (m : @M (list byte) A)
  (chunks : list (list byte)) (a : A) : Prop :=
  forall w,
    MappingCallback w = cb -> int_wrap (column w) = column w ->
    Forall (fun p => complete_cookies p = true) chunks ->
    exists w',
      m w = (w', Returned a) /\
      Writer w' = sink_after (Writer w) chunks /\
      MappingCallback w' = cb /\ int_wrap (column w') = column w'.

(** With a mapping callback set, the position table of every archive
    that has one decodes. *)
Definition fileSets_ok (FileSet_Read : list byte -> option token_FileSet)
  (cb : bool) (pkgs : list Archive) : Prop :=
  cb = true ->
  forall pkg data, pkg ∈ pkgs -> FileSet pkg = Some data ->
                   is_Some (FileSet_Read data).

(** ** Instances of the parameters, for the examples *)

(** A whitespace stripper that strips nothing. *)
Definition keep_whitespace (b : list byte) (minify : bool) : list byte := b.

(** A decoder of position tables that accepts none. *)
Definition no_FileSet (data : list byte) : option token_FileSet := None.

(** No type is assignable to any interface. *)
Definition never_assignable (T : GoType) (i : Interface) : bool := false.

(** [range] in the order of the map's own enumeration, and in the
    reverse of it. *)
Definition map_order (m : gmap string bool) : list string :=
  (map_to_list m).*1.

Definition reverse_map_order (m : gmap string bool) : list string :=
  reverse (map_to_list m).*1.

(** One package, one declaration without filters, no imports. *)
Definition hello_program : list Archive :=
  [example_archive "main" [example_decl "x" [] []]].

Definition hello_compiler : Compiler :=
  {| typesPackages := {[ "main" := {| pkg_Path := "main"; Scope := ∅ |} ]} |}.

(** The block of the package of [hello_program]. *)
Definition hello_block : list byte :=
  bytes ("$packages[" +:+ dquote +:+ "main" +:+ dquote
         +:+ "] = (function() {" +:+ nl
         +:+ tab +:+ "var $pkg = {}, x;" +:+ nl
         +:+ "x_body;"
         +:+ tab +:+ "$pkg.init = function() {" +:+ nl
         +:+ "x_init;"
         +:+ tab +:+ "};" +:+ nl +:+ tab +:+ "return $pkg;" +:+ nl
         +:+ "})();" +:+ nl).

Definition hello_output : list byte :=
  Writer (WriteProgramCode Buffer_Write keep_whitespace "PRELUDE" id
            no_FileSet never_assignable map_order hello_compiler
            hello_program "main" false (new_filter false)).1.

(** Every type is assignable to every interface. *)
Definition always_assignable (T : GoType) (i : Interface) : bool := true.

(** ** The archive codec

    [encoding/asn1] and the [gcimporter] are libraries outside this
    repository: [asn1.Unmarshal] returns the decoded value and the rest of
    the input, or an error; [asn1.Marshal] returns the encoding or an
    error; [gcimporter.ImportData] reads type metadata against the
    registry, which it may extend, and returns a package or an error. *)

Section Codec.
Variable asn1_Marshal : Archive -> list byte + error.
Variable asn1_Unmarshal : list byte -> (Archive * list byte) + error.
Variable ImportData :
  gmap string types_Package -> string -> string -> list byte ->
  gmap string types_Package * (types_Package + error).

(** The results are Go's pair of an archive pointer and an error: [None]
    is [nil]. *)
Definition UnmarshalArchive (t : Compiler) (filename id : string)
  (data : list byte) : Compiler * (option Archive * option error) :=
  match asn1_Unmarshal data with
  | inr err => (t, (None, Some err))
  | inl (a, _) =>
      match ImportData (typesPackages t) filename id (GcData a) with
      | (imports, inr err) =>
          ({| typesPackages := imports |}, (None, Some err))
      | (imports, inl pkg) =>
          ({| typesPackages := <[pkg_Path pkg := pkg]> imports |},
           (Some a, None))
      end
  end.

Definition MarshalArchive (t : Compiler) (a : Archive)
  : option (list byte) * option error :=
  match asn1_Marshal a with
  | inl data => (Some data, None)
  | inr err => (None, Some err)
  end.
End Codec.

(** Modelled from the spec: the binary encoding of the Archive Codec.
    The source hands the archive to [encoding/asn1], which is not part of
    it; the specification asks for a length-prefixed, self-describing
    encoding whose field order and tagging round-trip exactly.  Here
    every value starts with a tag byte, every byte string and every
    sequence carries its length before its content, and a struct is the
    sequence of its fields in declaration order. *)

(** A length: its binary digits, least significant first, one per byte,
    closed by [x02]; [x03] alone is zero. *)
Fixpoint enc_pos (p : positive) : list byte :=
  match p with
  | xH => [x02]
  | xO p' => x00 :: enc_pos p'
  | xI p' => x01 :: enc_pos p'
  end.

Definition enc_len (n : nat) : list byte :=
  match N.of_nat n with
  | N0 => [x03]
  | Npos p => enc_pos p
  end.

Fixpoint dec_pos (data : list byte) : option (positive * list byte) :=
  match data with
  | b :: rest =>
      if decide (b = x02) then Some (xH, rest)
      else if decide (b = x00)
           then '(p, r) ← dec_pos rest; Some (xO p, r)
      else if decide (b = x01)
           then '(p, r) ← dec_pos rest; Some (xI p, r)
      else None
  | [] => None
  end.

Definition dec_len (data : list byte) : option (nat * list byte) :=
  match data with
  | b :: rest =>
      if decide (b = x03) then Some (O, rest)
      else '(p, r) ← dec_pos data; Some (Pos.to_nat p, r)
  | [] => None
  end.

(** A byte string: tag [x04], length, content. *)
Definition enc_bytes (bs : list byte) : list byte :=
  x04 :: enc_len (length bs) ++ bs.

Definition dec_bytes (data : list byte) : option (list byte * list byte) :=
  match data with
  | b :: rest =>
      if decide (b = x04)
      then '(n, r) ← dec_len rest;
           if decide (n <= length r)%nat then Some (take n r, drop n r)
           else None
      else None
  | [] => None
  end.

(** A string: tag [x0c], then as a byte string. *)
Definition enc_string (s : string) : list byte :=
  x0c :: enc_len (length (bytes s)) ++ bytes s.

Definition dec_string (data : list byte) : option (string * list byte) :=
  match data with
  | b :: rest =>
      if decide (b = x0c)
      then '(n, r) ← dec_len rest;
           if decide (n <= length r)%nat
           then Some (string_of_list_byte (take n r), drop n r)
           else None
      else None
  | [] => None
  end.

(** A byte string that may be [nil]: tag [x05] alone is [nil]. *)
Definition enc_nilable (bs : option (list byte)) : list byte :=
  match bs with
  | None => [x05]
  | Some bs => enc_bytes bs
  end.

Definition dec_nilable (data : list byte)
  : option (option (list byte) * list byte) :=
  match data with
  | b :: rest =>
      if decide (b = x05) then Some (None, rest)
      else '(bs, r) ← dec_bytes data; Some (Some bs, r)
  | [] => None
  end.

(** A sequence: tag [x30], the number of its elements, the elements. *)
Definition enc_seq {A : Type} (enc : A -> list byte) (l : list A) : list byte :=
  x30 :: enc_len (length l) ++ concat (enc <$> l).

Fixpoint dec_items {A : Type} (dec : list byte -> option (A * list byte))
  (n : nat) (data : list byte) : option (list A * list byte) :=
  match n with
  | O => Some ([], data)
  | S n' =>
      '(x, r) ← dec data; '(l, r') ← dec_items dec n' r; Some (x :: l, r')
  end.

Definition dec_seq {A : Type} (dec : list byte -> option (A * list byte))
  (data : list byte) : option (list A * list byte) :=
  match data with
  | b :: rest =>
      if decide (b = x30) then '(n, r) ← dec_len rest; dec_items dec n r
      else None
  | [] => None
  end.

(** [PkgPath] and [DepId] are byte strings on the wire. *)
Definition enc_id (s : string) : list byte := enc_bytes (bytes s).

Definition dec_id (data : list byte) : option (string * list byte) :=
  '(bs, r) ← dec_bytes data; Some (string_of_list_byte bs, r).

Definition enc_PkgImport (imp : PkgImport) : list byte :=
  enc_id (Path imp) ++ enc_string (VarName imp).

Definition dec_PkgImport (data : list byte) : option (PkgImport * list byte) :=
  '(p, r1) ← dec_id data;
  '(v, r2) ← dec_string r1;
  Some ({| Path := p; VarName := v |}, r2).

Definition enc_Decl (d : Decl) : list byte :=
  enc_string (Var d) ++ enc_bytes (BodyCode d) ++ enc_bytes (InitCode d) ++
  enc_seq enc_id (DceFilters d) ++ enc_seq enc_id (DceDeps d).

Definition dec_Decl (data : list byte) : option (Decl * list byte) :=
  '(v, r1) ← dec_string data;
  '(body, r2) ← dec_bytes r1;
  '(init, r3) ← dec_bytes r2;
  '(filters, r4) ← dec_seq dec_id r3;
  '(deps, r5) ← dec_seq dec_id r4;
  Some ({| Var := v; BodyCode := body; InitCode := init;
           DceFilters := filters; DceDeps := deps |}, r5).

Definition enc_Archive (a : Archive) : list byte :=
  enc_id (ImportPath a) ++ enc_bytes (GcData a) ++
  enc_seq enc_id (Dependencies a) ++ enc_seq enc_PkgImport (Imports a) ++
  enc_seq enc_Decl (Declarations a) ++ enc_seq enc_string (Tests a) ++
  enc_nilable (FileSet a).

Definition dec_Archive (data : list byte) : option (Archive * list byte) :=
  '(path, r1) ← dec_id data;
  '(gc, r2) ← dec_bytes r1;
  '(deps, r3) ← dec_seq dec_id r2;
  '(imports, r4) ← dec_seq dec_PkgImport r3;
  '(decls, r5) ← dec_seq dec_Decl r4;
  '(tests, r6) ← dec_seq dec_string r5;
  '(fs, r7) ← dec_nilable r6;
  Some ({| ImportPath := path; GcData := gc; Dependencies := deps;
           Imports := imports; Declarations := decls; Tests := tests;
           FileSet := fs |}, r7).

(** The two entry points, with the results of [asn1.Marshal] and
    [asn1.Unmarshal]. *)
Definition codec_Marshal (a : Archive) : list byte + error :=
  inl (enc_Archive a).

Definition codec_Unmarshal (data : list byte) : (Archive * list byte) + error :=
  match dec_Archive data with
  | Some (a, rest) => inl (a, rest)
  | None => inr "asn1: syntax error"
  end.

(** Instances of the importer for the examples: one that accepts any
    metadata as an empty package named by [id], and one that finds a
    dependency missing. *)
Definition accept_ImportData (imports : gmap string types_Package)
  (filename id : string) (data : list byte)
  : gmap string types_Package * (types_Package + error) :=
  (imports, inl {| pkg_Path := id; Scope := ∅ |}).

Definition missing_ImportData (imports : gmap string types_Package)
  (filename id : string) (data : list byte)
  : gmap string types_Package * (types_Package + error) :=
  (imports, inr "can't find import").

(** An archive with something in every field. *)
Definition full_archive : Archive :=
  {| ImportPath := "p"; GcData := [x01; x02; x03];
     Dependencies := ["q"; "r"];
     Imports := [{| Path := "q"; VarName := "q$1" |}];
     Declarations := [example_decl "A" [] ["p:f"]; example_decl "B" ["f"] []];
     Tests := ["TestA"]; FileSet := Some [x7b; x7d] |}.

(** ** The dependency list of an archive *)

Definition with_dependencies (deps : list PkgPath) (a : Archive) : Archive :=
  {| ImportPath := ImportPath a; GcData := GcData a;
     Dependencies := deps; Imports := Imports a;
     Declarations := Declarations a; Tests := Tests a;
     FileSet := FileSet a |}.

(** The loop of [AddDependency]: does an entry equal [path]? *)
Fixpoint listed (deps : list PkgPath) (path : string) : bool :=
  match deps with
  | [] => false
  | dep :: deps' => if decide (dep = path) then true else listed deps' path
  end.

(** [AddDependency]: the archive [a] after the call. *)
Definition AddDependency (a : Archive) (path : string) : Archive :=
  if listed (Dependencies a) path then a
  else with_dependencies (Dependencies a ++ [path]) a.

(** [AddDependenciesOf]: the archive [a] after the call.  [range]
    evaluates [other.Dependencies] once, before the first iteration, so
    the walk is over the list as it was on entry also when [other] is [a]
    itself and the calls of [AddDependency] append to it. *)
Definition AddDependenciesOf (a other : Archive) : Archive :=
  foldl AddDependency a (Dependencies other).

(** ** The registry of type packages *)

(** [types.NewPackage(path, name)]: a package whose scope is empty. *)
Definition NewPackage (path name : string) : types_Package :=
  {| pkg_Path := path; Scope := ∅ |}.

(** [New]; [types.Unsafe] is the library's. *)
Definition New (types_Unsafe : types_Package) : Compiler :=
  {| typesPackages := {[ "unsafe" := types_Unsafe ]} |}.

(** [NewEmptyTypesPackage]: the compiler after the call. *)
Definition NewEmptyTypesPackage (t : Compiler) (path : string) : Compiler :=
  {| typesPackages := <[path := NewPackage path path]> (typesPackages t) |}.

(** ** Observing the underlying writer *)

(** One call of the underlying [Write]: the bytes it was handed, the
    count and the error it returned. *)
Record WriteCall := {
  handed : list byte;
  taken : Z;
  failure : option error
}.

(** A writer together with the record of the calls made to it. *)
Definition logged {W : Type}
  (WriterWrite : W -> list byte -> W * (Z * option error))
  (s : W * list WriteCall) (w : list byte)
  : (W * list WriteCall) * (Z * option error) :=
  let '(s', (n, err)) := WriterWrite s.1 w in
  ((s', s.2 ++ [{| handed := w; taken := n; failure := err |}]), (n, err)).

(** The sum of the counts that the calls returned. *)
Definition reported (calls : list WriteCall) : Z :=
  foldr (fun c acc => taken c + acc) 0 calls.

(** The filter [f] over the logged writer, with an empty log. *)
Definition observed {W : Type} (f : SourceMapFilter W)
  : SourceMapFilter (W * list WriteCall) :=
  {| Writer := (Writer f, []); MappingCallback := MappingCallback f;
     line := line f; column := column f; fileSet := fileSet f;
     mapped := mapped f |}.

(** A writer that fails once it holds [limit] bytes: it takes what still
    fits and reports a short write for the rest. *)
Definition Limited_Write (limit : nat) (buf w : list byte)
  : list byte * (Z * option error) :=
  let room := (limit - length buf)%nat in
  if decide (length w <= room)%nat
  then (buf ++ w, (Z.of_nat (length w), None))
  else (buf ++ take room w, (Z.of_nat room, Some "short write"%string)).

(** The filter with its mapping callback set or cleared. *)
Definition with_callback {W : Type} (cb : bool) (f : SourceMapFilter W)
  : SourceMapFilter W :=
  {| Writer := Writer f; MappingCallback := cb; line := line f;
     column := column f; fileSet := fileSet f; mapped := mapped f |}.

(** ** Runs of the linker *)

(** The mappings that a run adds all carry the file set [fs], which the
    run leaves in place. *)
Definition reports_with {W A : Type} (fs : option token_FileSet)
  (m : @M W A) : Prop :=
  forall w, fileSet w = fs ->
    fileSet (m w).1 = fs /\ MappingCallback (m w).1 = MappingCallback w /\
    exists l, mapped (m w).1 = mapped w ++ l /\
              Forall (fun x => mappingFileSet x = fs) l.

(** The file set in effect while the code of [pkg] is written. *)
Definition fileSet_in_effect
  (FileSet_Read : list byte -> option token_FileSet)
  {W : Type} (w : SourceMapFilter W) (pkg : Archive) : option token_FileSet :=
  match MappingCallback w, FileSet pkg with
  | true, Some data => Some (default NewFileSet (FileSet_Read data))
  | _, _ => fileSet w
  end.

(** No key of the index stands for an empty list. *)
Definition no_empty_entry (m : gmap string (list DeclPtr)) : Prop :=
  forall o ds, m !! o = Some ds -> ds <> [].

(** Two indexes with the same keys. *)
Definition same_keys (m1 m2 : gmap string (list DeclPtr)) : Prop :=
  forall o, m1 !! o = None <-> m2 !! o = None.

(** [pkgs2] is [pkgs1] with references added: the same packages and
    declarations, where a declaration of [pkgs2] has no filter that its
    counterpart lacks and every dependency that its counterpart has. *)
Definition more_references (pkgs1 pkgs2 : list Archive) : Prop :=
  Forall2 (fun a1 a2 =>
    ImportPath a1 = ImportPath a2 /\
    Forall2 (fun d1 d2 =>
      DceFilters d2 ⊆ DceFilters d1 /\ DceDeps d1 ⊆ DceDeps d2)
      (Declarations a1) (Declarations a2))
  pkgs1 pkgs2.

(** A run over a buffer that forwards no sentinel byte to it. *)
Definition forwards_clean {A : Type} (m : @M (list byte) A) : Prop :=
  forall w, exists out, Writer (m w).1 = Writer w ++ out /\ sentinel ∉ out.

(** A run that returns or panics, whatever the state of the filter. *)
Definition ends {W A : Type} (m : @M W A) : Prop :=
  forall w, (m w).2 <> OutOfFuel.

(** The compiler that [New] and one call of [NewEmptyTypesPackage] per
    path make. *)
Definition fresh_compiler (types_Unsafe : types_Package)
  (paths : list string) : Compiler :=
  foldl NewEmptyTypesPackage (New types_Unsafe) paths.

(** The table of the built-in [error] when nothing implements it. *)
Definition empty_error_table
  (removeWhitespace : list byte -> bool -> list byte) (minify : bool)
  : list byte :=
  removeWhitespace (bytes ("$error.implementedBy = [];" +:+ nl)) minify.

(** ** Importing and parsing a package

    [go/build], [go/ast], [go/parser], [go/scanner], [os] and
    [path/filepath] are libraries; of their data this file reads and
    writes the fields below, and their functions are parameters. *)

(** [strings.HasPrefix], [strings.HasSuffix] and the slices [s[n:]] and
    [s[:len(s)-n]] of a string. *)
Definition HasPrefix (s prefix : string) : bool :=
  bool_decide (String.length prefix <= String.length s)%nat &&
  bool_decide (substring 0 (String.length prefix) s = prefix).

Definition HasSuffix (s suffix : string) : bool :=
  bool_decide (String.length suffix <= String.length s)%nat &&
  bool_decide (substring (String.length s - String.length suffix)
                 (String.length suffix) s = suffix).

Definition string_from (n : nat) (s : string) : string :=
  substring n (String.length s - n) s.

Definition string_without_last (n : nat) (s : string) : string :=
  substring 0 (String.length s - n) s.

Module build.
(** [build.Package] *)
Record Package := {
  Dir : string;
  Name : string;
  ImportPath : string;
  BinDir : string;
  PkgObj : string;
  GoFiles : list string;
  XTestGoFiles : list string
}.

(** [build.Context]; the fields that [Import] leaves out are zero. *)
Record Context := {
  GOARCH : string;
  GOOS : string;
  GOROOT : string;
  GOPATH : string;
  InstallSuffix : string;
  Compiler : string;
  BuildTags : list string
}.

(** [Package.IsCommand] *)
Definition IsCommand (p : Package) : bool := bool_decide (Name p = "main"%string).

Definition with_GoFiles (files : list string) (p : Package) : Package :=
  {| Dir := Dir p; Name := Name p; ImportPath := ImportPath p;
     BinDir := BinDir p; PkgObj := PkgObj p; GoFiles := files;
     XTestGoFiles := XTestGoFiles p |}.

Definition with_PkgObj (obj : string) (p : Package) : Package :=
  {| Dir := Dir p; Name := Name p; ImportPath := ImportPath p;
     BinDir := BinDir p; PkgObj := obj; GoFiles := GoFiles p;
     XTestGoFiles := XTestGoFiles p |}.
End build.

Module ast.
Section Nodes.
(** What of a syntax tree this file does not look into. *)
Variable Rest : Type.

(** [ast.Ident] *)
Record Ident := {
  NamePos : Z;
  Name : string;
  Obj : option Rest
}.

(** The expressions that [funcName] tells apart. *)
Inductive Expr :=
| IdentExpr (id : Ident)
| StarExpr (X : Expr)
| OtherExpr (r : Rest).

(** [ast.Field], of which the type is read. *)
Record Field := {
  Field_Type : Expr;
  Field_rest : Rest
}.

(** [ast.FuncDecl]; [Recv] is [nil] for a function, and otherwise holds
    the [List] of the receiver's [FieldList]. *)
Record FuncDecl := {
  Recv : option (list Field);
  FuncDecl_Name : Ident;
  FuncDecl_rest : Rest
}.

Inductive Decl :=
| Func (d : FuncDecl)
| OtherDecl (r : Rest).

(** [ast.File] *)
Record File := {
  Decls : list Decl;
  File_rest : Rest
}.

(** [ast.NewIdent]: no position, no object. *)
Definition NewIdent (name : string) : Ident :=
  {| NamePos := 0; Name := name; Obj := None |}.

(** [d.Name = id] *)
Definition with_Name (id : Ident) (d : FuncDecl) : FuncDecl :=
  {| Recv := Recv d; FuncDecl_Name := id; FuncDecl_rest := FuncDecl_rest d |}.

Definition with_Decls (decls : list Decl) (f : File) : File :=
  {| Decls := decls; File_rest := File_rest f |}.
End Nodes.

Arguments NamePos {Rest} _.
Arguments Name {Rest} _.
Arguments Obj {Rest} _.
Arguments IdentExpr {Rest} _.
Arguments StarExpr {Rest} _.
Arguments OtherExpr {Rest} _.
Arguments Field_Type {Rest} _.
Arguments Recv {Rest} _.
Arguments FuncDecl_Name {Rest} _.
Arguments Func {Rest} _.
Arguments OtherDecl {Rest} _.
Arguments Decls {Rest} _.
Arguments NewIdent {Rest} _.
Arguments with_Name {Rest} _ _.
Arguments with_Decls {Rest} _ _.
End ast.

(** [ImportCError.Error] *)
Definition ImportCError_Error : string :=
  "importing " +:+ dquote +:+ "C" +:+ dquote +:+ " is not supported by GopherJS".

(** The closure [funcName] of [Parse]: [d.Recv.List[0]] panics on an
    empty list, and the assertion that [recv] is an identifier on
    anything else. *)
Definition funcName {Rest : Type} (d : ast.FuncDecl Rest) : outcome string :=
  match ast.Recv d with
  | None => Returned (ast.Name (ast.FuncDecl_Name d))
  | Some list =>
      match list with
      | [] => Panicked
      | field :: _ =>
          let recv := ast.Field_Type field in
          let recv := match recv with
                      | ast.StarExpr X => X
                      | _ => recv
                      end in
          match recv with
          | ast.IdentExpr id =>
              Returned (ast.Name id +:+ "." +:+ ast.Name (ast.FuncDecl_Name d))
          | _ => Panicked
          end
      end
  end.

Section Sources.
(** The error values of the libraries, the open files, and the unread
    parts of the syntax trees. *)
Context {Err Reader Rest : Type}.

(** [Error()] of a library's error. *)
Variable Err_Error : Err -> string.

(** [build.Default]; [Context.Import], which returns a package also when
    it returns an error; [os.Stat] (the error alone), [os.IsNotExist],
    [os.Open]; [filepath.Join], [filepath.Base], [filepath.IsAbs].  The
    file system does not change while [Import] and [Parse] run. *)
Variable build_Default : build.Context.
Variable Context_Import :
  build.Context -> string -> string -> Z -> build.Package * option Err.
Variable os_Stat : string -> option Err.
Variable os_IsNotExist : Err -> bool.
Variable os_Open : string -> Reader + Err.
Variable filepath_Join : string -> string -> string.
Variable filepath_Base : string -> string.
Variable filepath_IsAbs : string -> bool.

(** [parser.ParseFile], which adds the file to the file set; the type
    assertion [err.(scanner.ErrorList)], with the entries of the list;
    and [applyPatches], of another file of this repository, which may
    change the file set and may panic ([None]). *)
Variable parser_ParseFile :
  token_FileSet -> string -> option Reader -> Z ->
  token_FileSet * (ast.File Rest + Err).
Variable as_scanner_ErrorList : Err -> option (list Err).
Variable applyPatches :
  ast.File Rest -> token_FileSet -> string ->
  option (token_FileSet * ast.File Rest).

(** [ErrorList.Error]: [err[0]] panics on an empty list. *)
Definition ErrorList_Error (err : list Err) : outcome string :=
  match err with
  | [] => Panicked
  | e :: _ => Returned (Err_Error e)
  end.

(** The errors that [Import] returns: its own, or the build context's. *)
Inductive Import_error :=
| ImportCError
| BuildError (e : Err).

(** [Import]; the package is [nil] ([None]) for the path [C] only. *)
Definition Import (path : string) (mode : Z) (archSuffix : string)
  : option build.Package * option Import_error :=
  if decide (path = "C") then (None, Some ImportCError)
  else
    let buildContext :=
      {| build.GOROOT := build.GOROOT build_Default;
         build.GOPATH := build.GOPATH build_Default;
         build.GOOS := build.GOOS build_Default;
         build.GOARCH := archSuffix;
         build.Compiler := "gc";
         build.BuildTags := ["netgo"];
         build.InstallSuffix := EmptyString |} in
    let buildContext :=
      if decide (path = "runtime" \/ path = "syscall")
      then {| build.GOROOT := build.GOROOT buildContext;
              build.GOPATH := build.GOPATH buildContext;
              build.GOOS := build.GOOS buildContext;
              build.GOARCH := build.GOARCH build_Default;
              build.Compiler := build.Compiler buildContext;
              build.BuildTags := build.BuildTags buildContext;
              build.InstallSuffix := archSuffix |}
      else buildContext in
    let '(pkg, err) := Context_Import buildContext path EmptyString mode in
    let pkg :=
      if decide (path = "hash/crc32")
      then build.with_GoFiles ["crc32.go"; "crc32_generic.go"] pkg
      else pkg in
    let pkg :=
      if build.IsCommand pkg
      then build.with_PkgObj
             (filepath_Join (build.BinDir pkg)
                (filepath_Base (build.ImportPath pkg) +:+ ".js")) pkg
      else pkg in
    let pkg :=
      if match os_Stat (build.PkgObj pkg) with
         | Some e => os_IsNotExist e
         | None => false
         end && HasPrefix (build.PkgObj pkg) (build.GOROOT build_Default)
      then
        let gopathPkgObj :=
          build.GOPATH build_Default +:+
          string_from (String.length (build.GOROOT build_Default))
            (build.PkgObj pkg) in
        match os_Stat gopathPkgObj with
        | None => build.with_PkgObj gopathPkgObj pkg
        | Some _ => pkg
        end
      else pkg in
    (Some pkg, BuildError <$> err).

(** [os.Stat] finds no file under [name]. *)
Definition not_exist (name : string) : bool :=
  match os_Stat name with
  | Some e => os_IsNotExist e
  | None => false
  end.

(** The path under [GOPATH] that stands for [obj] under [GOROOT]. *)
Definition gopath_twin (obj : string) : string :=
  build.GOPATH build_Default +:+
  string_from (String.length (build.GOROOT build_Default)) obj.

(** The errors that [Parse] returns: that of [os.Open], as it is, or an
    [ErrorList]. *)
Inductive Parse_error :=
| OpenError (e : Err)
| ErrorList (errs : list Err).

(** [replacedDeclNames[funcName(d)] = true] for the functions of a file
    of the natives. *)
Fixpoint note_replaced (decls : list (ast.Decl Rest))
  (replacedDeclNames : gmap string bool) : outcome (gmap string bool) :=
  match decls with
  | [] => Returned replacedDeclNames
  | ast.Func d :: decls' =>
      obind (funcName d) (fun name =>
        note_replaced decls' (<[name := true]> replacedDeclNames))
  | _ :: decls' => note_replaced decls' replacedDeclNames
  end.

(** The loop over the files of the natives: a file that does not parse
    is a panic. *)
Fixpoint parse_natives (dir : string) (names : list string)
  (fileSet : token_FileSet) (files : list (ast.File Rest))
  (replacedDeclNames : gmap string bool)
  : outcome (token_FileSet * list (ast.File Rest) * gmap string bool) :=
  match names with
  | [] => Returned (fileSet, files, replacedDeclNames)
  | name :: names' =>
      match parser_ParseFile fileSet (filepath_Join dir name) None 0 with
      | (_, inr _) => Panicked
      | (fileSet, inl file) =>
          obind (note_replaced (ast.Decls file) replacedDeclNames)
            (fun replacedDeclNames =>
               parse_natives dir names' fileSet (files ++ [file])
                 replacedDeclNames)
      end
  end.

(** [d.Name = ast.NewIdent("_")] for the functions of a file of the
    package that the natives replace; [funcName] is called for every
    function, replaced or not. *)
Fixpoint blank_replaced (replacedDeclNames : gmap string bool)
  (decls : list (ast.Decl Rest)) : outcome (list (ast.Decl Rest)) :=
  match decls with
  | [] => Returned []
  | ast.Func d :: decls' =>
      obind (funcName d) (fun name =>
        let d := if default false (replacedDeclNames !! name)
                 then ast.with_Name (ast.NewIdent "_") d else d in
        obind (blank_replaced replacedDeclNames decls') (fun decls' =>
          Returned (ast.Func d :: decls')))
  | decl :: decls' =>
      obind (blank_replaced replacedDeclNames decls') (fun decls' =>
        Returned (decl :: decls'))
  end.

(** [errList = append(errList, e)]; [errList] is tested against [nil],
    hence the option. *)
Definition append_error (errList : option (list Err)) (e : Err)
  : option (list Err) :=
  Some (default [] errList ++ [e]).

(** The loop over [pkg.GoFiles].  [inl] is the [return nil, err] out of
    the loop. *)
Fixpoint parse_files (pkg : build.Package)
  (replacedDeclNames : gmap string bool) (names : list string)
  (fileSet : token_FileSet) (files : list (ast.File Rest))
  (errList : option (list Err))
  : outcome (token_FileSet *
             (Err + list (ast.File Rest) * option (list Err))) :=
  match names with
  | [] => Returned (fileSet, inr (files, errList))
  | name :: names' =>
      let name := if filepath_IsAbs name then name
                  else filepath_Join (build.Dir pkg) name in
      match os_Open name with
      | inr err => Returned (fileSet, inl err)
      | inl r =>
          match parser_ParseFile fileSet name (Some r) 0 with
          | (fileSet, inr err) =>
              let errList :=
                match as_scanner_ErrorList err with
                | Some list => foldl append_error errList list
                | None => append_error errList err
                end in
              parse_files pkg replacedDeclNames names' fileSet files errList
          | (fileSet, inl file) =>
              obind (blank_replaced replacedDeclNames (ast.Decls file))
                (fun decls =>
                   match applyPatches (ast.with_Decls decls file) fileSet
                           (build.ImportPath pkg) with
                   | None => Panicked
                   | Some (fileSet, file) =>
                       parse_files pkg replacedDeclNames names' fileSet
                         (files ++ [file]) errList
                   end)
          end
      end
  end.

Definition natives_path : string :=
  "github.com/gopherjs/gopherjs/compiler/natives/".

(** [Parse]: the file set as the call leaves it, the files and the
    error. *)
Definition Parse (pkg : build.Package) (fileSet : token_FileSet)
  : outcome (token_FileSet * (list (ast.File Rest) * option Parse_error)) :=
  let isTestPkg := HasSuffix (build.ImportPath pkg) "_test" in
  let importPath := build.ImportPath pkg in
  let importPath := if isTestPkg then string_without_last 5 importPath
                    else importPath in
  obind
    match Import (natives_path +:+ importPath) 0 "js" with
    | (Some nativesPkg, None) =>
        let names := build.GoFiles nativesPkg in
        let names := if isTestPkg then build.XTestGoFiles nativesPkg
                     else names in
        parse_natives (build.Dir nativesPkg) names fileSet [] ∅
    | (None, None) => Panicked
    | (_, Some _) => Returned (fileSet, [], ∅)
    end
    (fun '(fileSet, files, replacedDeclNames) =>
       let replacedDeclNames := delete "init" replacedDeclNames in
       obind (parse_files pkg replacedDeclNames (build.GoFiles pkg) fileSet
                files None)
         (fun '(fileSet, r) =>
            match r with
            | inl err => Returned (fileSet, ([], Some (OpenError err)))
            | inr (files, Some errList) =>
                Returned (fileSet, ([], Some (ErrorList errList)))
            | inr (files, None) => Returned (fileSet, (files, None))
            end)).
End Sources.

(** The names of the files of the natives that [Parse] reads for [pkg]. *)
Definition natives_of {Err : Type} (build_Default : build.Context)
  (Context_Import :
     build.Context -> string -> string -> Z -> build.Package * option Err)
  (os_Stat : string -> option Err) (os_IsNotExist : Err -> bool)
  (filepath_Join : string -> string -> string)
  (filepath_Base : string -> string) (pkg : build.Package) : list string :=
  let isTestPkg := HasSuffix (build.ImportPath pkg) "_test" in
  let importPath := if isTestPkg
                    then string_without_last 5 (build.ImportPath pkg)
                    else build.ImportPath pkg in
  match Import build_Default Context_Import os_Stat os_IsNotExist
          filepath_Join filepath_Base (natives_path +:+ importPath) 0 "js" with
  | (Some nativesPkg, None) =>
      if isTestPkg then build.XTestGoFiles nativesPkg
      else build.GoFiles nativesPkg
  | _ => []
  end.

(** The left injection: of [os.Open], the file that was opened. *)
Definition is_inl {A B : Type} (x : A + B) : Prop := exists a, x = inl a.

(** The name under which [Parse] opens a file of the package. *)
Definition source_name (filepath_Join : string -> string -> string)
  (filepath_IsAbs : string -> bool) (pkg : build.Package) (name : string)
  : string :=
  if filepath_IsAbs name then name else filepath_Join (build.Dir pkg) name.

(** The files [files] declare a function that [funcName] calls [n]. *)
Definition declared_in {Rest : Type} (files : list (ast.File Rest))
  (n : string) : Prop :=
  exists file d, file ∈ files /\ ast.Func d ∈ ast.Decls file /\
                 funcName d = Returned n.

(** [decl'] is [decl], under the name [_] when it is a function that the
    natives declare and [init] is not its name. *)
Definition blanked {Rest : Type} (natives : list (ast.File Rest))
  (decl decl' : ast.Decl Rest) : Prop :=
  match decl with
  | ast.Func d =>
      exists n, funcName d = Returned n /\
        ((n <> "init"%string /\ declared_in natives n) /\
         decl' = ast.Func (ast.with_Name (ast.NewIdent "_") d) \/
         ~ (n <> "init"%string /\ declared_in natives n) /\ decl' = decl)
  | _ => decl' = decl
  end.

(** The directory of the natives that [Parse] reads for [pkg]. *)
Definition natives_dir_of {Err : Type} (build_Default : build.Context)
  (Context_Import :
     build.Context -> string -> string -> Z -> build.Package * option Err)
  (os_Stat : string -> option Err) (os_IsNotExist : Err -> bool)
  (filepath_Join : string -> string -> string)
  (filepath_Base : string -> string) (pkg : build.Package) : string :=
  let isTestPkg := HasSuffix (build.ImportPath pkg) "_test" in
  let importPath := if isTestPkg
                    then string_without_last 5 (build.ImportPath pkg)
                    else build.ImportPath pkg in
  match Import build_Default Context_Import os_Stat os_IsNotExist
          filepath_Join filepath_Base (natives_path +:+ importPath) 0 "js" with
  | (Some nativesPkg, None) => build.Dir nativesPkg
  | _ => EmptyString
  end.

Section Parsed.
Context {Err Reader Rest : Type}.
Variable os_Open : string -> Reader + Err.
Variable filepath_Join : string -> string -> string.
Variable filepath_IsAbs : string -> bool.
Variable parser_ParseFile :
  token_FileSet -> string -> option Reader -> Z ->
  token_FileSet * (ast.File Rest + Err).
Variable as_scanner_ErrorList : Err -> option (list Err).
Variable applyPatches :
  ast.File Rest -> token_FileSet -> string ->
  option (token_FileSet * ast.File Rest).

(** [files] are the files [names] of [dir] as the parser returns them,
    one per name and in the order of the names, each parsed into the file
    set that the one before left; [fs'] is the file set after the last. *)
Fixpoint natives_parsed (dir : string) (names : list string)
  (fs : token_FileSet) (files : list (ast.File Rest)) (fs' : token_FileSet)
  : Prop :=
  match names, files with
  | [], [] => fs' = fs
  | name :: names', file :: files' =>
      exists fs1,
        parser_ParseFile fs (filepath_Join dir name) None 0 =
          (fs1, inl file) /\
        natives_parsed dir names' fs1 files' fs'
  | _, _ => False
  end.

(** [patched] are the files [names] of [pkg], in the order of the names:
    every one of them opens; one that parses has the functions that
    [natives] declare blanked and is handed to [applyPatches], whose
    result is the next file of [patched]; one that does not parse gives
    an error that is an empty list of errors, and no file.  The file set
    goes from each step to the next, and [fs'] is what the last leaves. *)
Fixpoint files_patched (pkg : build.Package) (natives : list (ast.File Rest))
  (names : list string) (fs : token_FileSet) (patched : list (ast.File Rest))
  (fs' : token_FileSet) : Prop :=
  match names with
  | [] => patched = [] /\ fs' = fs
  | name :: names' =>
      exists r,
        os_Open (source_name filepath_Join filepath_IsAbs pkg name) = inl r /\
        match parser_ParseFile fs
                (source_name filepath_Join filepath_IsAbs pkg name)
                (Some r) 0 with
        | (fs1, inl parsed) =>
            exists decls fs2 file rest,
              Forall2 (blanked natives) (ast.Decls parsed) decls /\
              applyPatches (ast.with_Decls decls parsed) fs1
                (build.ImportPath pkg) = Some (fs2, file) /\
              patched = file :: rest /\
              files_patched pkg natives names' fs2 rest fs'
        | (fs1, inr e) =>
            as_scanner_ErrorList e = Some [] /\
            files_patched pkg natives names' fs1 patched fs'
        end
  end.
End Parsed.

(** ** A file system for the examples

    Errors are their messages, an open file is its name, and nothing of
    a syntax tree is kept beyond what [Parse] reads.  The natives of [p]
    are one file; every file that parses declares [init] and [f]; the
    file [bad.go] does not parse, the file [missing.go] does not open. *)

Definition example_Default : build.Context :=
  {| build.GOARCH := "amd64"; build.GOOS := "linux"; build.GOROOT := "/go";
     build.GOPATH := "/gopath"; build.InstallSuffix := EmptyString;
     build.Compiler := "gc"; build.BuildTags := [] |}.

Definition example_package (path : string) (files : list string)
  : build.Package :=
  {| build.Dir := "/src/" +:+ path; build.Name := "p";
     build.ImportPath := path; build.BinDir := "/bin";
     build.PkgObj := "/pkg/" +:+ path +:+ ".a"; build.GoFiles := files;
     build.XTestGoFiles := [] |}.

Definition example_Context_Import (ctxt : build.Context)
  (path srcDir : string) (mode : Z) : build.Package * option string :=
  if decide (path = natives_path +:+ "p")
  then (example_package path ["n.go"], None)
  else (example_package path [], Some "cannot find package"%string).

Definition example_Stat (name : string) : option string := None.

Definition example_IsNotExist (e : string) : bool := false.

Definition example_Open (name : string) : string + string :=
  if decide (name = "/src/p/missing.go") then inr "no such file"%string
  else inl name.

Definition example_Join (dir name : string) : string := dir +:+ "/" +:+ name.

Definition example_IsAbs (name : string) : bool := HasPrefix name "/".

Definition example_func (name : string) : ast.Decl unit :=
  ast.Func {| ast.Recv := None; ast.FuncDecl_Name := ast.NewIdent name;
              ast.FuncDecl_rest := tt |}.

(** A file that declares [init] and one more function. *)
Definition example_file (name : string) : ast.File unit :=
  {| ast.Decls := [example_func "init"; example_func name];
     ast.File_rest := tt |}.

Definition example_ParseFile (fileSet : token_FileSet) (name : string)
  (src : option string) (mode : Z)
  : token_FileSet * (ast.File unit + string) :=
  if decide (name = "/src/p/bad.go")
  then (fileSet, inr "syntax errors"%string)
  else (fileSet ++ [x01], inl (example_file "f")).

Definition example_ErrorList (e : string) : option (list string) :=
  if decide (e = "syntax errors")
  then Some ["bad.go:1:1: expected declaration"%string;
             "bad.go:2:1: expected declaration"%string]
  else None.

Definition example_applyPatches (file : ast.File unit)
  (fileSet : token_FileSet) (importPath : string)
  : option (token_FileSet * ast.File unit) :=
  Some (fileSet, file).

Definition example_Parse (files : list string)
  : outcome (token_FileSet *
             (list (ast.File unit) * option (@Parse_error string))) :=
  Parse example_Default example_Context_Import example_Stat
    example_IsNotExist example_Open example_Join id example_IsAbs
    example_ParseFile example_ErrorList example_applyPatches
    (example_package "p" files) [].

(** A parser that tells the files apart: the file [b.go] declares [g]
    where the others declare [f], every file that parses leaves a byte of
    its own in the file set, and the file [void.go] does not parse, with
    an error that is an empty list of errors. *)
Definition order_ParseFile (fileSet : token_FileSet) (name : string)
  (src : option string) (mode : Z)
  : token_FileSet * (ast.File unit + string) :=
  if decide (name = "/src/p/void.go")
  then (fileSet, inr "no errors"%string)
  else if decide (name = "/src/p/a.go")
  then (fileSet ++ [x02], inl (example_file "f"))
  else if decide (name = "/src/p/b.go")
  then (fileSet ++ [x03], inl (example_file "g"))
  else (fileSet ++ [x01], inl (example_file "f")).

Definition order_ErrorList (e : string) : option (list string) :=
  if decide (e = "no errors") then Some [] else None.

Definition order_Parse (files : list string)
  : outcome (token_FileSet *
             (list (ast.File unit) * option (@Parse_error string))) :=
  Parse example_Default example_Context_Import example_Stat
    example_IsNotExist example_Open example_Join id example_IsAbs
    order_ParseFile order_ErrorList example_applyPatches
    (example_package "p" files) [].

(** ** More examples *)

(** A compiler that knows no package. *)
Definition no_packages : Compiler := {| typesPackages := ∅ |}.

(** What [WriteProgramCode] writes before it turns to the interface
    tables. *)
Definition packages_plan
  (removeWhitespace : list byte -> bool -> list byte)
  (prelude : string) (TrimSpace : string -> string)
  (pkgs : list Archive) (minify : bool) : list (list byte) :=
  [program_header;
   removeWhitespace (bytes (TrimSpace prelude)) minify;
   bytes nl] ++
  (pkgs ≫= fun pkg => pkg_plan removeWhitespace pkg minify).

(** An archive with the dependencies [deps] and nothing else. *)
Definition dependent (path : PkgPath) (deps : list PkgPath) : Archive :=
  {| ImportPath := path; GcData := []; Dependencies := deps; Imports := [];
     Declarations := []; Tests := []; FileSet := None |}.

(** [B] is guarded by [f] and by a name with a colon in it; [A], which
    has no filter, depends on the keys of both. *)
Definition colon_program : list Archive :=
  [example_archive "p"
     [example_decl "A" [] ["p:a:b"; "p:f"];
      example_decl "B" ["f"; "a:b"] []]].

(** ** A program with interface tables *)

(** Types of package [p]: a struct [S], an interface [I] with one
    method, an interface [E] without methods, and named types that are
    neither structs nor interfaces. *)
Definition p_struct : TypeName :=
  {| Name := "S"; Pkg := Some "p"; underlying := UStruct |}.

Definition p_interface : TypeName :=
  {| Name := "I"; Pkg := Some "p";
     underlying := UInterface {| methods := ["M"] |} |}.

Definition p_empty_interface : TypeName :=
  {| Name := "E"; Pkg := Some "p";
     underlying := UInterface {| methods := [] |} |}.

Definition p_named (name : string) : TypeName :=
  {| Name := name; Pkg := Some "p"; underlying := UOther |}.

(** A compiler that knows package [p], the one of [example_program]:
    its scope holds those types, with named types [f] and [g] for the
    two objects that the declarations of the program are filtered by, and
    a variable [v]. *)
Definition example_compiler : Compiler :=
  {| typesPackages :=
       {[ "p" := {| pkg_Path := "p";
                    Scope := list_to_map
                      [("S", ObjTypeName p_struct);
                       ("I", ObjTypeName p_interface);
                       ("E", ObjTypeName p_empty_interface);
                       ("f", ObjTypeName (p_named "f"));
                       ("g", ObjTypeName (p_named "g"));
                       ("v", ObjOther)] |} ]} |}.

(** Candidates in which [S] comes twice. *)
Definition repeated_types : list TypeName :=
  [p_named "f"; universe_error; p_struct; p_interface; p_empty_interface;
   p_struct].

(** The implementors of every interface when every type is assignable
    to it: [S] and [f] of package [p], by value and by pointer. *)
Definition example_refs : list string :=
  [packages_ref "p" "S"; packages_ref "p" "S" +:+ ".Ptr";
   packages_ref "p" "f"; "$ptrType(" +:+ packages_ref "p" "f" +:+ ")"].

Definition example_table (target : string) : list byte :=
  bytes (target +:+ ".implementedBy = [" +:+ Join example_refs ", "
         +:+ "];" +:+ nl).

(** [example_program] as the DCE leaves it: [B] is released, [C] is
    still filtered by [g]. *)
Definition example_linked : list Archive :=
  [example_archive "p"
     [example_decl "A" [] ["p:f"];
      example_decl "B" [] [];
      example_decl "C" ["g"] []]].

(** The output for [example_program], every type being assignable to
    every interface. *)
Definition example_output : list byte :=
  program_header ++ bytes ("PRELUDE" +:+ nl) ++
  concat (pkg_plan keep_whitespace
            (example_archive "p"
               [example_decl "A" [] ["p:f"];
                example_decl "B" [] [];
                example_decl "C" ["g"] []]) false) ++
  example_table "$error" ++
  example_table (packages_ref "p" "I") ++
  init_call (example_archive "p" []) ++
  entry_call "p".

(** * The source map filter *)

Lemma int_wrap_add_l (a b : Z) : int_wrap (int_wrap a + b) = int_wrap (a + b).
Proof.
  unfold int_wrap.
  replace ((a + 2 ^ 63) mod 2 ^ 64 - 2 ^ 63 + b + 2 ^ 63)
    with ((a + 2 ^ 63) mod 2 ^ 64 + b) by lia.
  rewrite Z.add_mod_idemp_l by lia.
  f_equal. f_equal. lia.
Qed.

Lemma int_add_add (a b c : Z) : int_add (int_add a b) c = int_add a (b + c).
Proof. unfold int_add. rewrite int_wrap_add_l. f_equal. lia. Qed.

Lemma int_wrap_small (a : Z) : - 2 ^ 63 <= a < 2 ^ 63 -> int_wrap a = a.
Proof. intros H. unfold int_wrap. rewrite Z.mod_small; lia. Qed.

Lemma int_wrap_idemp (a : Z) : int_wrap (int_wrap a) = int_wrap a.
Proof.
  replace (int_wrap a) with (int_wrap a + 0) at 1 by lia.
  rewrite int_wrap_add_l. f_equal. lia.
Qed.

Lemma IndexByte_None (s : list byte) (c : byte) :
  IndexByte s c = None -> c ∉ s.
Proof.
  induction s as [|b s IH]; simpl; intros H.
  - apply not_elem_of_nil.
  - destruct (decide (b = c)) as [->|Hne]; [done|].
    destruct (IndexByte s c); [done|].
    apply not_elem_of_cons; auto.
Qed.

Lemma IndexByte_Some (s : list byte) (c : byte) (i : nat) :
  IndexByte s c = Some i ->
  s = take i s ++ c :: drop (S i) s /\ (c ∉ take i s) /\ (i < length s)%nat.
Proof.
  revert i; induction s as [|b s IH]; simpl; intros i H; [done|].
  destruct (decide (b = c)) as [->|Hne].
  - injection H as <-. simpl. rewrite drop_0.
    split_and!; [done|apply not_elem_of_nil|lia].
  - destruct (IndexByte s c) as [j|] eqn:Hj; [|done].
    injection H as <-. destruct (IH j eq_refl) as (Hs & Hn & Hl).
    simpl. split_and!; [by rewrite <- Hs|apply not_elem_of_cons; auto|lia].
Qed.

Lemma IndexByte_app_fresh (w q : list byte) (c : byte) :
  c ∉ w -> IndexByte (w ++ c :: q) c = Some (length w).
Proof.
  induction w as [|b w IH]; simpl; intros H.
  - by rewrite decide_True.
  - apply not_elem_of_cons in H as [Hb Hw].
    rewrite decide_False by done. by rewrite IH.
Qed.

Lemma IndexByte_fresh (w : list byte) (c : byte) : c ∉ w -> IndexByte w c = None.
Proof.
  induction w as [|b w IH]; simpl; intros H; [done|].
  apply not_elem_of_cons in H as [Hb Hw].
  rewrite decide_False by done. by rewrite IH.
Qed.

Lemma int_add_wrapped (a b : Z) : int_wrap (int_add a b) = int_add a b.
Proof. apply int_wrap_idemp. Qed.

Lemma int_add_0_r (a : Z) : int_wrap a = a -> int_add a 0 = a.
Proof. intros H. unfold int_add. by rewrite Z.add_0_r. Qed.

(** The position after a run of bytes none of which is a newline. *)
Lemma foldl_track_plain (w : list byte) (l c : Z) :
  newline ∉ w -> int_wrap c = c ->
  foldl track (l, c) w = (l, int_add c (Z.of_nat (length w))).
Proof.
  revert c; induction w as [|b w IH]; intros c H Hc.
  - simpl. by rewrite int_add_0_r.
  - apply not_elem_of_cons in H as [Hb Hw]. simpl.
    unfold track at 2. rewrite decide_False by done. simpl.
    rewrite IH by (done || apply int_add_wrapped).
    rewrite int_add_add. do 2 f_equal. lia.
Qed.

Lemma advance_fuel (fuel : nat) (l c : Z) (w : list byte) :
  (length w < fuel)%nat -> exists pos, advance fuel l c w = Some pos.
Proof.
  revert l c w; induction fuel as [|fuel IH]; intros l c w Hlen; [lia|].
  simpl. destruct (IndexByte w newline) as [i|] eqn:Hi; [|by eexists].
  apply IndexByte_Some in Hi as (_ & _ & Hi).
  apply IH. rewrite length_drop. lia.
Qed.

Lemma advance_track (fuel : nat) (l c : Z) (w : list byte) :
  (length w < fuel)%nat -> int_wrap c = c ->
  advance fuel l c w = Some (foldl track (l, c) w).
Proof.
  revert l c w; induction fuel as [|fuel IH]; intros l c w Hlen Hc; [lia|].
  simpl. destruct (IndexByte w newline) as [i|] eqn:Hi.
  - apply IndexByte_Some in Hi as (Hw & Hfresh & Hi).
    rewrite IH; [|rewrite length_drop; lia|reflexivity].
    f_equal. rewrite Hw at 2. rewrite foldl_app. simpl.
    rewrite (foldl_track_plain (take i w)) by done.
    by f_equal.
  - apply IndexByte_None in Hi. f_equal.
    by rewrite foldl_track_plain.
Qed.

Lemma foldl_track_wrapped (w : list byte) (l c : Z) :
  int_wrap c = c -> int_wrap (foldl track (l, c) w).2 = (foldl track (l, c) w).2.
Proof.
  revert l c; induction w as [|b w IH]; intros l c Hc; [done|].
  simpl. unfold track at 2 4. destruct (decide (b = newline)); simpl.
  - by apply IH.
  - apply IH, int_add_wrapped.
Qed.

Lemma lor_shiftl_add (a b k : Z) :
  0 <= k -> 0 <= a < 2 ^ k -> Z.lor a (Z.shiftl b k) = a + b * 2 ^ k.
Proof.
  intros Hk Ha.
  assert (Z.land a (Z.shiftl b k) = 0) as Hdisj.
  { apply Z.bits_inj'. intros n Hn.
    rewrite Z.land_spec, Z.bits_0.
    destruct (Z.lt_ge_cases n k) as [Hlt|Hge].
    - by rewrite Z.shiftl_spec_low, andb_false_r.
    - replace a with (a mod 2 ^ k) by (apply Z.mod_small; lia).
      by rewrite Z.mod_pow2_bits_high. }
  rewrite <- Z.lxor_lor by done.
  rewrite <- Z.add_nocarry_lxor by done.
  by rewrite Z.shiftl_mul_pow2.
Qed.

Lemma byteZ_range (b : byte) : 0 <= byteZ b < 256.
Proof.
  unfold byteZ. pose proof (Byte.to_N_bounded b). lia.
Qed.

Lemma Uint32_cookie_value (c0 c1 c2 c3 : byte) :
  Uint32 [c0; c1; c2; c3] = cookie_value c0 c1 c2 c3.
Proof.
  unfold Uint32, cookie_value.
  pose proof (byteZ_range c0). pose proof (byteZ_range c1).
  pose proof (byteZ_range c2). pose proof (byteZ_range c3).
  rewrite (lor_shiftl_add (byteZ c3)) by lia.
  rewrite (lor_shiftl_add _ _ 16) by lia.
  rewrite (lor_shiftl_add _ _ 24) by lia.
  lia.
Qed.

Lemma invoke_report (f : SourceMapFilter (list byte)) (c0 c1 c2 c3 : byte) :
  invoke f (Uint32 [c0; c1; c2; c3]) = report (cookie_value c0 c1 c2 c3) f.
Proof.
  rewrite Uint32_cookie_value. unfold invoke, report.
  by destruct f as [w [] l c fs m].
Qed.

(** A run of ordinary bytes is forwarded as it is. *)
Lemma scan_plain (w : list byte) (f : SourceMapFilter (list byte)) :
  sentinel ∉ w ->
  scan w f =
    {| Writer := Writer f ++ w; MappingCallback := MappingCallback f;
       line := (foldl track (line f, column f) w).1;
       column := (foldl track (line f, column f) w).2;
       fileSet := fileSet f; mapped := mapped f |}.
Proof.
  revert f; induction w as [|b w IH]; intros f H.
  - simpl. rewrite app_nil_r. by destruct f.
  - apply not_elem_of_cons in H as [Hb Hw]. simpl.
    rewrite decide_False by done. rewrite IH by done. simpl.
    rewrite <- app_assoc. simpl. by destruct (track (line f, column f) b).
Qed.

Lemma scan_app_plain (w q : list byte) (f : SourceMapFilter (list byte)) :
  sentinel ∉ w -> scan (w ++ q) f = scan q (scan w f).
Proof.
  revert f; induction w as [|b w IH]; intros f H; [done|].
  apply not_elem_of_cons in H as [Hb Hw]. simpl.
  rewrite !decide_False by done. by apply IH.
Qed.

Lemma complete_cookies_app_plain (w q : list byte) :
  sentinel ∉ w -> complete_cookies (w ++ q) = complete_cookies q.
Proof.
  induction w as [|b w IH]; intros H; [done|].
  apply not_elem_of_cons in H as [Hb Hw]. simpl.
  rewrite decide_False by done. by apply IH.
Qed.

Lemma Write_loop_scan (fuel : nat) (f : SourceMapFilter (list byte))
  (p : list byte) (n : Z) :
  (length p < fuel)%nat -> complete_cookies p = true ->
  int_wrap (column f) = column f ->
  Write_loop Buffer_Write fuel f p n =
    (scan p f, Returned (int_add n (Z.of_nat (length p)), None)).
Proof.
  revert f p n; induction fuel as [|fuel IH]; intros f p n Hlen Hp Hc; [lia|].
  cbn [Write_loop Buffer_Write].
  destruct (IndexByte p sentinel) as [i|] eqn:Hi.
  - apply IndexByte_Some in Hi as (Hsplit & Hfresh & Hi).
    set (w := take i p) in *.
    rewrite advance_track by (done || lia).
    pose proof (foldl_track_wrapped w (line f) (column f) Hc) as Hwr.
    pose proof (scan_plain w f Hfresh) as Hscan.
    destruct (foldl track (line f, column f) w) as [l c] eqn:Hpos.
    simpl in Hwr, Hscan.
    rewrite Hsplit in Hp. rewrite complete_cookies_app_plain in Hp by done.
    simpl in Hp. destruct (drop (S i) p) as [|c0 [|c1 [|c2 [|c3 rest]]]] eqn:Hd;
      try done.
    assert (length w = i) as Hw by (unfold w; rewrite length_take; lia).
    assert (length p = (i + 5 + length rest)%nat) as Hlp.
    { rewrite Hsplit at 1. rewrite length_app. simpl. lia. }
    rewrite decide_True by lia.
    assert (drop (i + 5) p = rest) as ->.
    { rewrite Hsplit at 1. rewrite drop_app_ge by lia.
      by replace (i + 5 - length w)%nat with 5%nat by lia. }
    cbn [take]. rewrite invoke_report.
    rewrite IH; [|lia|done|done].
    f_equal.
    + rewrite Hsplit at 1. rewrite scan_app_plain by done.
      simpl. by rewrite Hscan.
    + rewrite !int_add_add. do 3 f_equal. lia.
  - apply IndexByte_None in Hi.
    rewrite advance_track by (done || lia).
    rewrite scan_plain by done.
    by destruct (foldl track (line f, column f) p).
Qed.

(** Every call of [Write] returns or panics: the fuel is never used up. *)
Lemma Write_loop_fuel {W : Type} (ww : W -> list byte -> W * (Z * option error))
  (fuel : nat) (f : SourceMapFilter W) (p : list byte) (n : Z) :
  (length p < fuel)%nat -> (Write_loop ww fuel f p n).2 <> OutOfFuel.
Proof.
  revert f p n; induction fuel as [|fuel IH]; intros f p n Hlen; [lia|].
  cbn [Write_loop].
  destruct (ww (Writer f) _) as [ws [n2 err]].
  destruct (IndexByte p sentinel) as [i|] eqn:Hi.
  - apply IndexByte_Some in Hi as (_ & _ & Hi).
    destruct (advance_fuel (S (length (take i p))) (line f) (column f) (take i p))
      as [pos ->]; [lia|].
    destruct pos as [l c]. destruct err; [done|].
    destruct (decide _); [|done].
    apply IH. rewrite length_drop. lia.
  - destruct (advance_fuel (S (length p)) (line f) (column f) p)
      as [pos ->]; [lia|].
    destruct pos as [l c]. by destruct err.
Qed.

Lemma complete_cookies_plain (w : list byte) :
  sentinel ∉ w -> complete_cookies w = true.
Proof.
  intros H. rewrite <- (app_nil_r w). by rewrite complete_cookies_app_plain.
Qed.

Lemma complete_cookies_app (n : nat) (p q : list byte) :
  (length p <= n)%nat -> complete_cookies p = true ->
  complete_cookies (p ++ q) = complete_cookies q.
Proof.
  revert p; induction n as [|n IH]; intros p Hn Hp.
  - by destruct p; [|simpl in Hn; lia].
  - destruct p as [|b p]; [done|]. simpl in *.
    destruct (decide (b = sentinel)).
    + destruct p as [|c0 [|c1 [|c2 [|c3 p]]]]; try done.
      simpl in *. apply IH; [lia|done].
    + apply IH; [lia|done].
Qed.

Lemma scan_app (n : nat) (p q : list byte) (f : SourceMapFilter (list byte)) :
  (length p <= n)%nat -> complete_cookies p = true ->
  scan (p ++ q) f = scan q (scan p f).
Proof.
  revert p f; induction n as [|n IH]; intros p f Hn Hp.
  - by destruct p; [|simpl in Hn; lia].
  - destruct p as [|b p]; [done|]. simpl in *.
    destruct (decide (b = sentinel)).
    + destruct p as [|c0 [|c1 [|c2 [|c3 p]]]]; try done.
      simpl in *. apply IH; [lia|done].
    + apply IH; [lia|done].
Qed.

Lemma scan_column_wrapped (n : nat) (p : list byte)
  (f : SourceMapFilter (list byte)) :
  (length p <= n)%nat -> int_wrap (column f) = column f ->
  int_wrap (column (scan p f)) = column (scan p f).
Proof.
  revert p f; induction n as [|n IH]; intros p f Hn Hf.
  - by destruct p; [|simpl in Hn; lia].
  - destruct p as [|b p]; [done|]. simpl in *.
    destruct (decide (b = sentinel)).
    + destruct p as [|c0 [|c1 [|c2 [|c3 p]]]]; try done.
      simpl in *. apply IH; [lia|done].
    + apply IH; [lia|]. simpl. unfold track.
      destruct (decide (b = newline)); [done|apply int_add_wrapped].
Qed.

Lemma scan_Writer (n : nat) (p : list byte) (f : SourceMapFilter (list byte)) :
  (length p <= n)%nat -> Writer (scan p f) = Writer f ++ strip p.
Proof.
  revert p f; induction n as [|n IH]; intros p f Hn.
  - destruct p; [|simpl in Hn; lia]. by rewrite app_nil_r.
  - destruct p as [|b p]; [by rewrite app_nil_r|]. simpl in *.
    destruct (decide (b = sentinel)).
    + destruct p as [|c0 [|c1 [|c2 [|c3 p]]]]; try by rewrite app_nil_r.
      simpl in *. rewrite IH by lia. done.
    + rewrite IH by lia. simpl. by rewrite <- app_assoc.
Qed.

Lemma int_add_wrap_wrap (a b : Z) :
  int_add (int_wrap a) (int_wrap b) = int_wrap (a + b).
Proof.
  unfold int_add. rewrite int_wrap_add_l.
  rewrite (Z.add_comm a), int_wrap_add_l. f_equal. lia.
Qed.

Lemma Write_scan (f : SourceMapFilter (list byte)) (p : list byte) :
  complete_cookies p = true -> int_wrap (column f) = column f ->
  Write Buffer_Write f p =
    (scan p f, Returned (int_wrap (Z.of_nat (length p)), None)).
Proof.
  intros Hp Hc. unfold Write. by rewrite Write_loop_scan by (done || lia).
Qed.

(** Two writes of complete pieces are one write of their concatenation. *)
Lemma Write_twice_app (f : SourceMapFilter (list byte)) (p1 p2 : list byte) :
  complete_cookies p1 = true -> complete_cookies p2 = true ->
  int_wrap (column f) = column f ->
  Write_twice f p1 p2 = Write Buffer_Write f (p1 ++ p2).
Proof.
  intros H1 H2 Hc. unfold Write_twice.
  rewrite (Write_scan f p1) by done.
  rewrite (Write_scan (scan p1 f) p2)
    by (done || by apply (scan_column_wrapped (length p1))).
  rewrite Write_scan; [|by rewrite (complete_cookies_app (length p1))|done].
  rewrite (scan_app (length p1)) by done.
  rewrite int_add_wrap_wrap, length_app. do 4 f_equal. lia.
Qed.

(** C3.  One call of [Write] on a buffer in which every sentinel is
    followed by its full four-byte cookie, over a sink that accepts every
    byte, does what the byte-by-byte reading [scan] says: each ordinary
    byte is forwarded as it is and advances the position (a newline
    increments the line and resets the column, any other byte increments
    the column); each sentinel and its big-endian cookie are consumed and
    never reach the sink (the sink receives [strip p]); and when a mapping
    callback is set it is invoked, once per pair and at the point the
    sentinel is reached, with (line+1, column, cookie).  The call returns
    the length of the buffer and no error. *)
Theorem Write_forwards_and_reports (f : SourceMapFilter (list byte))
  (p : list byte) :
  complete_cookies p = true -> int_wrap (column f) = column f ->
  Write Buffer_Write f p =
    (scan p f, Returned (int_wrap (Z.of_nat (length p)), None)) /\
  Writer (scan p f) = Writer f ++ strip p.
Proof.
  intros Hp Hc. split; [by apply Write_scan|].
  by apply (scan_Writer (length p)).
Qed.

Lemma Write_forwards_and_reports_witness :
  let p := [x61; x0a; x08; x00; x00; x01; x02; x62] in
  Write Buffer_Write (new_filter true) p =
    (scan p (new_filter true), Returned (int_wrap 8, None)) /\
  Writer (scan p (new_filter true)) = [x61; x0a; x62] /\
  mapped (scan p (new_filter true)) =
    [{| generatedLine := 2; generatedColumn := 0; mappingFileSet := None;
        originalPos := 258 |}].
Proof.
  intros p.
  destruct (Write_forwards_and_reports (new_filter true) p) as [H1 H2];
    [reflexivity|reflexivity|].
  split; [exact H1|]. split; [exact H2|reflexivity].
Defined.

(** C1, as the code has it.  Let [p] hold one sentinel and its cookie, at
    offset [length a].  Cutting [p] into two writes at a byte boundary [k]
    that does not fall between the sentinel and the end of its cookie
    ([k <= length a] or [length a + 5 <= k]) gives what one write of [p]
    gives: the same bytes in the sink, the same position, the same byte
    count, and the one invocation of the mapping callback with the same
    (line, column, cookie).  The filter keeps no partial cookie from one
    call to the next, so the cuts inside the pair are outside its
    contract. *)
Theorem Write_split_outside_cookie (f : SourceMapFilter (list byte))
  (a b : list byte) (c0 c1 c2 c3 : byte) (k : nat) :
  sentinel ∉ a -> sentinel ∉ b -> int_wrap (column f) = column f ->
  (k <= length a \/ length a + 5 <= k)%nat ->
  let p := a ++ sentinel :: c0 :: c1 :: c2 :: c3 :: b in
  fragmentation_invariant f p k /\
  Write Buffer_Write f p =
    (scan p f, Returned (int_wrap (Z.of_nat (length p)), None)) /\
  Writer (scan p f) = Writer f ++ a ++ b /\
  mapped (scan p f) =
    if MappingCallback f
    then mapped f ++
           [{| generatedLine := int_add (foldl track (line f, column f) a).1 1;
               generatedColumn := (foldl track (line f, column f) a).2;
               mappingFileSet := fileSet f;
               originalPos := cookie_value c0 c1 c2 c3 |}]
    else mapped f.
Proof.
  intros Ha Hb Hc Hk p.
  assert (complete_cookies p = true) as Hp.
  { unfold p. rewrite complete_cookies_app_plain by done. simpl.
    by apply complete_cookies_plain. }
  assert (sentinel ∉ take k a) as Hta.
  { intros Hin. apply Ha. eapply subseteq_take, Hin. }
  assert (sentinel ∉ drop k a) as Hda.
  { intros Hin. apply Ha. eapply subseteq_drop, Hin. }
  assert (sentinel ∉ take (k - length a - 5) b) as Htb.
  { intros Hin. apply Hb. eapply subseteq_take, Hin. }
  assert (sentinel ∉ drop (k - length a - 5) b) as Hdb.
  { intros Hin. apply Hb. eapply subseteq_drop, Hin. }
  split_and!.
  - unfold fragmentation_invariant.
    rewrite <- (take_drop k p) at 3.
    apply Write_twice_app; [| |done].
    + destruct Hk as [Hk|Hk]; unfold p.
      * rewrite take_app_le by done. by apply complete_cookies_plain.
      * rewrite take_app_ge by lia.
        rewrite complete_cookies_app_plain by done.
        replace (k - length a)%nat with (5 + (k - length a - 5))%nat by lia.
        simpl. by apply complete_cookies_plain.
    + destruct Hk as [Hk|Hk]; unfold p.
      * rewrite drop_app_le by done.
        rewrite complete_cookies_app_plain by done. simpl.
        by apply complete_cookies_plain.
      * rewrite drop_app_ge by lia.
        replace (k - length a)%nat with (5 + (k - length a - 5))%nat by lia.
        simpl. by apply complete_cookies_plain.
  - by apply Write_scan.
  - unfold p. rewrite scan_app_plain by done. simpl.
    rewrite !scan_plain by done. simpl. by rewrite app_assoc.
  - unfold p. rewrite scan_app_plain by done. simpl.
    rewrite !scan_plain by done. simpl. done.
Qed.

Lemma Write_split_outside_cookie_witness :
  let p := [x61; x0a; x08; x00; x00; x01; x02; x62] in
  fragmentation_invariant (new_filter true) p 1 /\
  fragmentation_invariant (new_filter true) p 7 /\
  mapped (scan p (new_filter true)) =
    [{| generatedLine := 2; generatedColumn := 0; mappingFileSet := None;
        originalPos := 258 |}].
Proof.
  intros p.
  assert (sentinel ∉ [x61; x0a]) as Ha by (apply IndexByte_None; reflexivity).
  assert (sentinel ∉ [x62]) as Hb by (apply IndexByte_None; reflexivity).
  split_and!.
  - apply (Write_split_outside_cookie (new_filter true) [x61; x0a] [x62]
             x00 x00 x01 x02 1 Ha Hb eq_refl). simpl. lia.
  - apply (Write_split_outside_cookie (new_filter true) [x61; x0a] [x62]
             x00 x00 x01 x02 7 Ha Hb eq_refl). simpl. lia.
  - apply (Write_split_outside_cookie (new_filter true) [x61; x0a] [x62]
             x00 x00 x01 x02 1 Ha Hb eq_refl). simpl. lia.
Defined.

(** C1, as stated, fails: the cut at byte 4 of the eight
    bytes below falls inside the cookie.  The first write forwards the two
    leading bytes, reaches the sentinel and panics on a slice past the end
    of its buffer, so the second write never happens; the single write of
    the same bytes returns, having forwarded three bytes and reported one
    mapping. *)
Lemma Write_split_inside_cookie :
  let p := [x61; x0a; x08; x00; x00; x01; x02; x62] in
  (Write_twice (new_filter true) (take 4 p) (drop 4 p)).2 = Panicked /\
  Writer (Write_twice (new_filter true) (take 4 p) (drop 4 p)).1 =
    [x61; x0a] /\
  Write Buffer_Write (new_filter true) p =
    ({| Writer := [x61; x0a; x62]; MappingCallback := true; line := 1;
        column := 1; fileSet := None;
        mapped := [{| generatedLine := 2; generatedColumn := 0;
                      mappingFileSet := None; originalPos := 258 |}] |},
     Returned (8, None)) /\
  ~ fragmentation_invariant (new_filter true) p 4.
Proof.
  intros p.
  assert ((Write_twice (new_filter true) (take 4 p) (drop 4 p)).2 = Panicked)
    as H1 by (by vm_compute).
  assert (Write Buffer_Write (new_filter true) p =
    ({| Writer := [x61; x0a; x62]; MappingCallback := true; line := 1;
        column := 1; fileSet := None;
        mapped := [{| generatedLine := 2; generatedColumn := 0;
                      mappingFileSet := None; originalPos := 258 |}] |},
     Returned (8, None))) as H2 by (by vm_compute).
  split_and!; [done|by vm_compute|done|].
  unfold fragmentation_invariant. intros H. rewrite H, H2 in H1. done.
Qed.

(** [Write] returns or panics, whatever the underlying writer does: the
    fuel of its loops is never used up. *)
Theorem Write_returns_or_panics {W : Type}
  (ww : W -> list byte -> W * (Z * option error))
  (f : SourceMapFilter W) (p : list byte) :
  (Write ww f p).2 <> OutOfFuel.
Proof. unfold Write. apply Write_loop_fuel. lia. Qed.

(** A buffer that ends inside a cookie makes [Write] panic, after the
    bytes before the sentinel were forwarded. *)
Theorem Write_truncated_cookie_panics (f : SourceMapFilter (list byte))
  (a c : list byte) :
  sentinel ∉ a -> (length c < 4)%nat -> int_wrap (column f) = column f ->
  (Write Buffer_Write f (a ++ sentinel :: c)).2 = Panicked /\
  Writer (Write Buffer_Write f (a ++ sentinel :: c)).1 = Writer f ++ a.
Proof.
  intros Ha Hc Hf. unfold Write. cbn [Write_loop Buffer_Write].
  rewrite IndexByte_app_fresh by done.
  rewrite take_app_length.
  rewrite advance_track by (done || lia).
  destruct (foldl track (line f, column f) a) as [l k].
  rewrite decide_False; [done|].
  rewrite length_app. simpl. lia.
Qed.

Lemma Write_truncated_cookie_panics_witness :
  (Write Buffer_Write (new_filter true) [x61; x0a; x08; x00; x00]).2 =
    Panicked /\
  Writer (Write Buffer_Write (new_filter true) [x61; x0a; x08; x00; x00]).1 =
    [x61; x0a].
Proof.
  apply (Write_truncated_cookie_panics (new_filter true) [x61; x0a] [x00; x00]).
  - apply IndexByte_None. reflexivity.
  - simpl. lia.
  - reflexivity.
Defined.

(** * Dead code elimination *)

Local Open Scope nat_scope.

(** ** Keys *)

Lemma Split_nonempty (s : string) : Split s <> [].
Proof.
  induction s as [|c s IH]; simpl; [done|].
  destruct (decide (c = colon)); [done|]. by destruct (Split s).
Qed.

Lemma Split_no_colon (s : string) : no_colon s = true -> Split s = [s].
Proof.
  induction s as [|c s IH]; simpl; [done|].
  destruct (decide (c = colon)); [done|]. intros H. by rewrite IH.
Qed.

Lemma Split_app_colon (p r : string) :
  no_colon p = true -> Split (p +:+ ":" +:+ r) = p :: Split r.
Proof.
  induction p as [|c p IH]; simpl.
  - done.
  - destruct (decide (c = colon)); [done|]. intros H. by rewrite IH.
Qed.

Lemma Split_object_key (p f : string) :
  no_colon p = true -> no_colon f = true ->
  Split (object_key p f) !! 1 = Some f.
Proof.
  intros Hp Hf. unfold object_key.
  rewrite Split_app_colon by done. by rewrite Split_no_colon.
Qed.

(** A key always splits into at least two parts. *)
Lemma Split_object_key_is_Some (p f : string) :
  is_Some (Split (object_key p f) !! 1).
Proof.
  unfold object_key. induction p as [|c p IH].
  - change (is_Some (Split f !! 0)).
    destruct (Split f) eqn:E; [by apply Split_nonempty in E|]. by eexists.
  - change (Split (String c p +:+ ":" +:+ f))
      with (if decide (c = colon) then EmptyString :: Split (p +:+ ":" +:+ f)
            else match Split (p +:+ ":" +:+ f) with
                 | x :: r => String c x :: r
                 | [] => [String c EmptyString]
                 end).
    destruct (decide (c = colon)).
    + destruct (Split (p +:+ ":" +:+ f)) eqn:E;
        [by apply Split_nonempty in E|]. by eexists.
    + destruct (Split (p +:+ ":" +:+ f)) as [|x [|y r]] eqn:E;
        [by destruct IH|by destruct IH|]. by eexists.
Qed.

Lemma object_key_inj (p f1 f2 : string) :
  object_key p f1 = object_key p f2 -> f1 = f2.
Proof.
  unfold object_key. induction p as [|c p IH]; simpl.
  - by intros [=].
  - intros [=]. by apply IH.
Qed.

(** ** Reading and writing declarations through pointers *)

Lemma get_decl_Some (pkgs : list Archive) (d : DeclPtr) (dc : Decl) :
  get_decl pkgs d = Some dc <->
  exists a, pkgs !! d.1 = Some a /\ Declarations a !! d.2 = Some dc.
Proof.
  unfold get_decl. destruct (pkgs !! d.1) as [a|]; simpl.
  - split; [by exists a|]. by intros (? & [= <-] & ?).
  - split; [done|]. by intros (? & ? & ?).
Qed.

Lemma set_filters_lookup (pkgs : list Archive) (d : DeclPtr)
  (fs : list DepId) (i : nat) :
  set_filters pkgs d fs !! i =
    if decide (d.1 = i)
    then with_declarations (alter (with_filters fs) d.2) <$> pkgs !! i
    else pkgs !! i.
Proof.
  unfold set_filters. rewrite list_lookup_alter.
  by destruct (decide (d.1 = i)) as [->|].
Qed.

Lemma get_decl_set_filters_eq (pkgs : list Archive) (d : DeclPtr)
  (fs : list DepId) :
  get_decl (set_filters pkgs d fs) d = with_filters fs <$> get_decl pkgs d.
Proof.
  unfold get_decl. rewrite set_filters_lookup, decide_True by done.
  destruct (pkgs !! d.1) as [a|]; simpl; [|done].
  by rewrite list_lookup_alter_eq.
Qed.

Lemma get_decl_set_filters_ne (pkgs : list Archive) (d d' : DeclPtr)
  (fs : list DepId) :
  d <> d' -> get_decl (set_filters pkgs d fs) d' = get_decl pkgs d'.
Proof.
  intros Hne. unfold get_decl. rewrite set_filters_lookup.
  destruct (decide (d.1 = d'.1)) as [E|]; [|done].
  destruct (pkgs !! d'.1) as [a|]; simpl; [|done].
  apply list_lookup_alter_ne. intros E2. apply Hne.
  destruct d, d'; simpl in *; congruence.
Qed.

Lemma path_of_set_filters (pkgs : list Archive) (d d' : DeclPtr)
  (fs : list DepId) :
  path_of (set_filters pkgs d fs) d' = path_of pkgs d'.
Proof.
  unfold path_of. rewrite set_filters_lookup.
  destruct (decide (d.1 = d'.1)); [|done]. by destruct (pkgs !! d'.1).
Qed.

Lemma filters_of_set_filters_eq (pkgs : list Archive) (d : DeclPtr)
  (fs : list DepId) (dc : Decl) :
  get_decl pkgs d = Some dc -> filters_of (set_filters pkgs d fs) d = fs.
Proof.
  intros H. unfold filters_of. by rewrite get_decl_set_filters_eq, H.
Qed.

Lemma filters_of_set_filters_ne (pkgs : list Archive) (d d' : DeclPtr)
  (fs : list DepId) :
  d <> d' -> filters_of (set_filters pkgs d fs) d' = filters_of pkgs d'.
Proof.
  intros H. unfold filters_of. by rewrite get_decl_set_filters_ne.
Qed.

Lemma same_decl_refl (dc : Decl) : same_decl dc dc.
Proof. by repeat split. Qed.

Lemma same_shape_refl (pkgs : list Archive) : same_shape pkgs pkgs.
Proof.
  apply Forall_Forall2_diag, Forall_forall. intros a _.
  repeat split. apply Forall_Forall2_diag, Forall_forall.
  intros dc _. apply same_decl_refl.
Qed.

Lemma same_shape_set_filters (pkgs0 pkgs : list Archive) (d : DeclPtr)
  (dc : Decl) (fs : list DepId) :
  same_shape pkgs0 pkgs -> get_decl pkgs d = Some dc ->
  fs ⊆ DceFilters dc -> same_shape pkgs0 (set_filters pkgs d fs).
Proof.
  intros Hs Hd Hfs. apply get_decl_Some in Hd as (a & Ha & Hdc).
  apply Forall2_alter_r; [done|].
  intros a0 a' _ Ha' (? & ? & ? & ? & ? & ? & Hds).
  assert (a' = a) as -> by congruence.
  repeat split; try done. simpl.
  apply Forall2_alter_r; [done|].
  intros dc0 dc' _ Hdc' (? & ? & ? & ? & Hsub).
  assert (dc' = dc) as -> by congruence.
  repeat split; try done. simpl. by etrans.
Qed.

Lemma same_shape_get_decl (pkgs0 pkgs : list Archive) (d : DeclPtr)
  (dc0 : Decl) :
  same_shape pkgs0 pkgs -> get_decl pkgs0 d = Some dc0 ->
  exists dc, get_decl pkgs d = Some dc /\ same_decl dc0 dc.
Proof.
  intros Hs Hd. apply get_decl_Some in Hd as (a0 & Ha0 & Hdc0).
  destruct (Forall2_lookup_l _ _ _ _ _ Hs Ha0) as (a & Ha & Hsa).
  destruct Hsa as (_ & _ & _ & _ & _ & _ & Hds).
  destruct (Forall2_lookup_l _ _ _ _ _ Hds Hdc0) as (dc & Hdc & Hsd).
  exists dc. split; [|done]. apply get_decl_Some. eauto.
Qed.

Lemma same_shape_get_decl_r (pkgs0 pkgs : list Archive) (d : DeclPtr)
  (dc : Decl) :
  same_shape pkgs0 pkgs -> get_decl pkgs d = Some dc ->
  exists dc0, get_decl pkgs0 d = Some dc0 /\ same_decl dc0 dc.
Proof.
  intros Hs Hd. apply get_decl_Some in Hd as (a & Ha & Hdc).
  destruct (Forall2_lookup_r _ _ _ _ _ Hs Ha) as (a0 & Ha0 & Hsa).
  destruct Hsa as (_ & _ & _ & _ & _ & _ & Hds).
  destruct (Forall2_lookup_r _ _ _ _ _ Hds Hdc) as (dc0 & Hdc0 & Hsd).
  exists dc0. split; [|done]. apply get_decl_Some. eauto.
Qed.

Lemma same_shape_path_of (pkgs0 pkgs : list Archive) (d : DeclPtr) :
  same_shape pkgs0 pkgs -> path_of pkgs d = path_of pkgs0 d.
Proof.
  intros Hs. unfold path_of.
  destruct (pkgs0 !! d.1) as [a0|] eqn:Ha0.
  - destruct (Forall2_lookup_l _ _ _ _ _ Hs Ha0) as (a & -> & Hsa).
    simpl. by destruct Hsa as (-> & _).
  - destruct (pkgs !! d.1) as [a|] eqn:Ha; [|done].
    destruct (Forall2_lookup_r _ _ _ _ _ Hs Ha) as (a0 & ? & _). congruence.
Qed.

(** ** Removing one filter *)

Lemma find_filter_Some (name : string) (fs : list DepId) (i : nat) :
  find_filter name fs = Some i -> fs !! i = Some name.
Proof.
  revert i; induction fs as [|f fs IH]; intros i; simpl; [done|].
  destruct (decide (f = name)) as [->|]; [by intros [= <-]|].
  destruct (find_filter name fs) as [j|]; [|done].
  intros [= <-]. by apply IH.
Qed.

Lemma find_filter_None (name : string) (fs : list DepId) :
  find_filter name fs = None -> name ∉ fs.
Proof.
  induction fs as [|f fs IH]; simpl; [intros _; apply not_elem_of_nil|].
  destruct (decide (f = name)) as [->|]; [done|].
  destruct (find_filter name fs); [done|].
  intros _. apply not_elem_of_cons. auto.
Qed.

Lemma remove_filter_absent (name : string) (fs : list DepId) :
  name ∉ fs -> remove_filter name fs = fs.
Proof.
  intros H. unfold remove_filter.
  destruct (find_filter name fs) as [i|] eqn:E; [|done].
  apply find_filter_Some in E. exfalso. apply H.
  by eapply list_elem_of_lookup_2.
Qed.

(** The swap with the last element takes out one occurrence of [name]. *)
Lemma remove_filter_Permutation (name : string) (fs : list DepId) :
  name ∈ fs -> fs ≡ₚ name :: remove_filter name fs.
Proof.
  intros Hin. unfold remove_filter.
  destruct (find_filter name fs) as [i|] eqn:E.
  2: { by apply find_filter_None in E. }
  apply find_filter_Some in E.
  destruct (last fs) as [x|] eqn:El.
  2: { apply last_None in El. by subst. }
  apply last_Some in El as [fs' ->].
  rewrite length_app. simpl.
  replace (length fs' + 1 - 1) with (length fs') by lia.
  destruct (decide (i < length fs')) as [Hi|Hi].
  - rewrite insert_app_l by done.
    rewrite take_app_length' by (by rewrite length_insert).
    rewrite lookup_app_l in E by done.
    rewrite insert_take_drop by done.
    rewrite <- (take_drop_middle fs' i name E) at 1.
    rewrite <- app_assoc. simpl.
    rewrite <- !Permutation_middle.
    by rewrite app_nil_r.
  - assert (i = length fs') as ->.
    { apply lookup_lt_Some in E. rewrite length_app in E. simpl in E. lia. }
    rewrite list_lookup_middle in E by done. injection E as ->.
    rewrite list_insert_id by (by apply list_lookup_middle).
    rewrite take_app_length.
    by rewrite Permutation_app_comm.
Qed.

Lemma remove_filter_subseteq (name : string) (fs : list DepId) :
  remove_filter name fs ⊆ fs.
Proof.
  destruct (decide (name ∈ fs)) as [Hin|Hin].
  - intros f Hf. rewrite (remove_filter_Permutation name fs Hin).
    by apply elem_of_cons; right.
  - by rewrite remove_filter_absent.
Qed.

Lemma remove_filter_length (name : string) (fs : list DepId) :
  name ∈ fs -> length fs = S (length (remove_filter name fs)).
Proof.
  intros Hin. by rewrite (remove_filter_Permutation name fs Hin) at 1.
Qed.

(** ** Well-formed archives *)

Lemma well_formed_path (pkgs : list Archive) (i : nat) (a : Archive) :
  well_formed pkgs = true -> pkgs !! i = Some a ->
  no_colon (ImportPath a) = true.
Proof.
  intros Hwf Ha. unfold well_formed in Hwf.
  rewrite forallb_forall in Hwf.
  specialize (Hwf a). rewrite <- list_elem_of_In in Hwf.
  apply andb_prop in Hwf as [H _]; [done|]. by eapply list_elem_of_lookup_2.
Qed.

Lemma well_formed_filter (pkgs : list Archive) (d : DeclPtr) (dc : Decl)
  (f : DepId) :
  well_formed pkgs = true -> get_decl pkgs d = Some dc ->
  f ∈ DceFilters dc -> no_colon f = true.
Proof.
  intros Hwf Hd Hf. apply get_decl_Some in Hd as (a & Ha & Hdc).
  unfold well_formed in Hwf. rewrite forallb_forall in Hwf.
  specialize (Hwf a). rewrite <- list_elem_of_In in Hwf.
  apply andb_prop in Hwf as [_ H]; [|by eapply list_elem_of_lookup_2].
  rewrite forallb_forall in H. specialize (H dc).
  rewrite <- list_elem_of_In in H.
  specialize (H (list_elem_of_lookup_2 _ _ _ Hdc)).
  rewrite forallb_forall in H. apply H. by apply list_elem_of_In.
Qed.

(** ** Induction on liveness, with the hypothesis for the justifying
    declarations *)

Lemma Live_strong_ind (pkgs : list Archive) (Q : DeclPtr -> Prop) :
  (forall d a dc,
     pkgs !! d.1 = Some a -> Declarations a !! d.2 = Some dc ->
     (forall f, f ∈ DceFilters dc ->
        exists d' dc', (Live pkgs d' /\ Q d') /\ get_decl pkgs d' = Some dc' /\
                       object_key (ImportPath a) f ∈ DceDeps dc') ->
     Q d) ->
  forall d, Live pkgs d -> Q d.
Proof.
  intros Hstep. fix IH 2. intros d [d0 a dc Ha Hdc Hf].
  apply (Hstep d0 a dc Ha Hdc). intros f Hin.
  destruct (Hf f Hin) as (d' & dc' & Hl & Hg & Hk).
  exists d', dc'. split_and!; [done|by apply IH|done|done].
Qed.

Lemma emptied_get_decl (pkgs : list Archive) (d : DeclPtr) :
  emptied pkgs d <-> is_Some (get_decl pkgs d) /\ filters_of pkgs d = [].
Proof.
  unfold emptied, filters_of. split.
  - intros (dc & -> & H). split; [by eexists|done].
  - intros [[dc Hd] H]. rewrite Hd in H. by exists dc.
Qed.

Lemma dce_inv_ext (pkgs0 : list Archive) (P : list DeclPtr)
  (idx idx' : string -> list DeclPtr) (pkgs : list Archive)
  (pending : list DeclPtr) :
  (forall o, idx o = idx' o) ->
  dce_inv pkgs0 P idx pkgs pending -> dce_inv pkgs0 P idx' pkgs pending.
Proof.
  intros Hext [H1 H2 H3 H4 H5]. split; try done.
  intros Hwf o d. rewrite <- Hext. by apply H4.
Qed.

(** Under the invariant, what is drained is live. *)
Lemma dce_inv_emptied_Live (pkgs0 : list Archive) (P : list DeclPtr)
  (idx : string -> list DeclPtr) (pkgs : list Archive)
  (pending : list DeclPtr) (d : DeclPtr) :
  well_formed pkgs0 = true -> dce_inv pkgs0 P idx pkgs pending ->
  emptied pkgs d -> Live pkgs0 d.
Proof.
  intros Hwf Hinv. intros Hd.
  apply emptied_get_decl in Hd as [[dc Hdc] He].
  destruct (same_shape_get_decl_r _ _ _ _ (inv_shape _ _ _ _ _ Hinv) Hdc)
    as (dc0 & Hdc0 & _).
  pose proof Hdc0 as Hdc0'. apply get_decl_Some in Hdc0' as (a0 & Ha0 & Hd0).
  apply (Live_intro pkgs0 d a0 dc0 Ha0 Hd0). intros f Hf.
  destruct (inv_removed _ _ _ _ _ Hinv Hwf d dc0 f Hdc0 Hf) as (d' & dc' & ?).
  { rewrite He. apply not_elem_of_nil. }
  exists d', dc'. unfold path_of in *. by rewrite Ha0 in *.
Qed.

(** ** Counting guards *)

Lemma occurrences_cons (d d' : DeclPtr) (ds : list DeclPtr) :
  occurrences d' (d :: ds) =
    (if decide (d = d') then 1 else 0) + occurrences d' ds.
Proof.
  unfold occurrences. rewrite filter_cons.
  by destruct (decide (d = d')).
Qed.

Lemma guards_set_filters_ne (pkgs : list Archive) (d d' : DeclPtr)
  (fs : list DepId) (o : string) :
  d <> d' -> guards (set_filters pkgs d fs) d' o = guards pkgs d' o.
Proof.
  intros Hne. unfold guards.
  by rewrite path_of_set_filters, filters_of_set_filters_ne.
Qed.

Lemma guards_set_filters_eq (pkgs : list Archive) (d : DeclPtr) (dc : Decl)
  (fs : list DepId) (o : string) :
  get_decl pkgs d = Some dc ->
  guards (set_filters pkgs d fs) d o =
    length (filter (fun f => object_key (path_of pkgs d) f = o) fs).
Proof.
  intros Hd. unfold guards.
  by rewrite path_of_set_filters, (filters_of_set_filters_eq _ _ _ dc).
Qed.

Lemma guards_pos (pkgs : list Archive) (d : DeclPtr) (o : string) :
  0 < guards pkgs d o ->
  exists f, f ∈ filters_of pkgs d /\ object_key (path_of pkgs d) f = o.
Proof.
  unfold guards. intros H.
  destruct (filter _ (filters_of pkgs d)) as [|f l] eqn:E; [simpl in H; lia|].
  assert (f ∈ filter (fun f => object_key (path_of pkgs d) f = o)
                     (filters_of pkgs d)) as Hin by (rewrite E; by left).
  apply list_elem_of_filter in Hin as [? ?]. by exists f.
Qed.

Lemma guards_zero (pkgs : list Archive) (d : DeclPtr) (o : string) (f : DepId) :
  guards pkgs d o = 0 -> f ∈ filters_of pkgs d ->
  object_key (path_of pkgs d) f <> o.
Proof.
  unfold guards. intros H Hf Hk.
  assert (f ∈ filter (fun f => object_key (path_of pkgs d) f = o)
                     (filters_of pkgs d)) as Hin
    by (by apply list_elem_of_filter).
  apply length_zero_iff_nil in H. rewrite H in Hin. by apply not_elem_of_nil in Hin.
Qed.

Lemma filters_of_Some (pkgs : list Archive) (d : DeclPtr) (dc : Decl) :
  get_decl pkgs d = Some dc -> filters_of pkgs d = DceFilters dc.
Proof. intros H. unfold filters_of. by rewrite H. Qed.

Lemma filters_of_None (pkgs : list Archive) (d : DeclPtr) :
  get_decl pkgs d = None -> filters_of pkgs d = [].
Proof. intros H. unfold filters_of. by rewrite H. Qed.

(** ** The walk over the declarations of one consumed key *)

(** Under the invariant, the declaration at the head of the list still
    carries the filter that the key stands for. *)
Lemma release_head_guard (pkgs0 : list Archive) (P : list DeclPtr)
  (idx : string -> list DeclPtr) (o name : string) (d : DeclPtr)
  (ds : list DeclPtr) (pkgs : list Archive) (pending : list DeclPtr) :
  well_formed pkgs0 = true -> Split o !! 1 = Some name ->
  dce_inv pkgs0 P (index_with o (d :: ds) idx) pkgs pending ->
  name ∈ filters_of pkgs d /\ object_key (path_of pkgs d) name = o.
Proof.
  intros Hwf Hname Hinv.
  pose proof (inv_count _ _ _ _ _ Hinv Hwf o d) as Hc.
  unfold index_with in Hc. rewrite decide_True in Hc by done.
  rewrite occurrences_cons, decide_True in Hc by done.
  destruct (guards_pos pkgs d o) as (f & Hf & Hk); [lia|].
  assert (exists dc, get_decl pkgs d = Some dc) as [dc Hdc].
  { destruct (get_decl pkgs d) eqn:E; [by eexists|].
    rewrite filters_of_None in Hf by done. by apply not_elem_of_nil in Hf. }
  rewrite (filters_of_Some _ _ _ Hdc) in *.
  pose proof (inv_shape _ _ _ _ _ Hinv) as Hs.
  destruct (same_shape_get_decl_r _ _ _ _ Hs Hdc) as (dc0 & Hdc0 & Hsd).
  assert (no_colon f = true) as Hnf.
  { eapply well_formed_filter; [done..|]. by apply Hsd. }
  assert (no_colon (path_of pkgs d) = true) as Hnp.
  { rewrite (same_shape_path_of _ _ _ Hs). unfold path_of.
    apply get_decl_Some in Hdc0 as (a0 & Ha0 & _). rewrite Ha0. simpl.
    by eapply well_formed_path. }
  rewrite <- Hk in Hname. rewrite Split_object_key in Hname by done.
  injection Hname as <-. done.
Qed.

Lemma emptied_set_filters (pkgs : list Archive) (d d' : DeclPtr) (dc : Decl)
  (fs : list DepId) :
  get_decl pkgs d = Some dc -> fs ⊆ DceFilters dc ->
  emptied pkgs d' -> emptied (set_filters pkgs d fs) d'.
Proof.
  intros Hd Hfs (dc' & Hd' & He).
  destruct (decide (d = d')) as [<-|Hne].
  - exists (with_filters fs dc). rewrite get_decl_set_filters_eq, Hd.
    split; [done|]. simpl. assert (dc' = dc) as -> by congruence.
    rewrite He in Hfs. destruct fs as [|f fs]; [done|].
    exfalso. eapply not_elem_of_nil, Hfs. by left.
  - exists dc'. by rewrite get_decl_set_filters_ne.
Qed.

Lemma release_step_inv (pkgs0 : list Archive) (P : list DeclPtr)
  (idx : string -> list DeclPtr) (o name : string) (d : DeclPtr) (dc : Decl)
  (ds : list DeclPtr) (pkgs : list Archive) (pending : list DeclPtr) :
  Split o !! 1 = Some name ->
  (well_formed pkgs0 = true ->
   exists d' dc', Live pkgs0 d' /\ get_decl pkgs0 d' = Some dc' /\
                  o ∈ DceDeps dc') ->
  get_decl pkgs d = Some dc ->
  dce_inv pkgs0 P (index_with o (d :: ds) idx) pkgs pending ->
  dce_inv pkgs0 P (index_with o ds idx)
    (set_filters pkgs d (remove_filter name (DceFilters dc)))
    (if decide (length (remove_filter name (DceFilters dc)) = 0)
     then pending ++ [d] else pending).
Proof.
  intros Hname Hjust Hdc Hinv.
  set (fs := remove_filter name (DceFilters dc)).
  assert (fs ⊆ DceFilters dc) as Hsub by apply remove_filter_subseteq.
  pose proof (inv_shape _ _ _ _ _ Hinv) as Hs.
  split.
  - by eapply same_shape_set_filters.
  - intros d' Hd'.
    assert (d' ∈ pending \/ (d' = d /\ fs = [])) as [Hin|[-> Hfs]].
    { destruct (decide (length fs = 0)) as [E|]; [|by left].
      apply elem_of_app in Hd' as [?|Hd']; [by left|right].
      apply list_elem_of_singleton in Hd'. split; [done|].
      by apply length_zero_iff_nil. }
    + eapply emptied_set_filters; [done..|]. by eapply inv_pending.
    + exists (with_filters fs dc). rewrite get_decl_set_filters_eq, Hdc.
      by rewrite Hfs.
  - intros d' (dc' & Hd' & He).
    destruct (decide (d = d')) as [<-|Hne].
    + rewrite get_decl_set_filters_eq, Hdc in Hd'. injection Hd' as <-.
      simpl in He. fold fs. rewrite He. rewrite decide_True by done.
      left. apply elem_of_app. right. by apply list_elem_of_singleton.
    + rewrite get_decl_set_filters_ne in Hd' by done.
      destruct (inv_emptied _ _ _ _ _ Hinv d') as [?|?];
        [by exists dc'| |by right].
      left. destruct (decide _); [|done]. apply elem_of_app. by left.
  - intros Hwf o' d'.
    destruct (release_head_guard _ _ _ _ _ _ _ _ _ Hwf Hname Hinv)
      as [Hin Hk].
    rewrite (filters_of_Some _ _ _ Hdc) in Hin.
    pose proof (inv_count _ _ _ _ _ Hinv Hwf o' d') as Hc.
    destruct (decide (d = d')) as [<-|Hne].
    + rewrite (guards_set_filters_eq _ _ dc) by done. fold fs.
      unfold guards in Hc. rewrite (filters_of_Some _ _ _ Hdc) in Hc.
      rewrite (remove_filter_Permutation name _ Hin) in Hc. fold fs in Hc.
      rewrite filter_cons in Hc.
      unfold index_with in *. destruct (decide (o' = o)) as [->|Ho].
      * rewrite decide_True in Hc by done.
        rewrite occurrences_cons, decide_True in Hc by done.
        simpl in Hc. lia.
      * rewrite decide_False in Hc by congruence. done.
    + rewrite guards_set_filters_ne by done. rewrite <- Hc.
      unfold index_with. destruct (decide (o' = o)); [|done].
      by rewrite occurrences_cons, decide_False.
  - intros Hwf d' dc0 f Hd0 Hf Hnot.
    destruct (release_head_guard _ _ _ _ _ _ _ _ _ Hwf Hname Hinv)
      as [Hin Hk].
    rewrite (filters_of_Some _ _ _ Hdc) in Hin.
    destruct (decide (d = d')) as [<-|Hne].
    + rewrite (filters_of_set_filters_eq _ _ _ dc) in Hnot by done.
      destruct (decide (f ∈ DceFilters dc)) as [Hfin|Hfin].
      * rewrite (remove_filter_Permutation name _ Hin) in Hfin.
        apply elem_of_cons in Hfin as [->|Hfin]; [|done].
        destruct (Hjust Hwf) as (d' & dc' & Hl & Hg & Ho).
        exists d', dc'. split_and!; [done..|].
        by rewrite <- (same_shape_path_of _ _ _ Hs), Hk.
      * eapply (inv_removed _ _ _ _ _ Hinv Hwf); [done..|].
        by rewrite (filters_of_Some _ _ _ Hdc).
    + rewrite filters_of_set_filters_ne in Hnot by done.
      by eapply (inv_removed _ _ _ _ _ Hinv Hwf).
Qed.

Lemma release_inv (pkgs0 : list Archive) (P : list DeclPtr)
  (idx : string -> list DeclPtr) (o name : string) (ds : list DeclPtr)
  (pkgs : list Archive) (pending : list DeclPtr) :
  Split o !! 1 = Some name ->
  (well_formed pkgs0 = true ->
   exists d' dc', Live pkgs0 d' /\ get_decl pkgs0 d' = Some dc' /\
                  o ∈ DceDeps dc') ->
  dce_inv pkgs0 P (index_with o ds idx) pkgs pending ->
  dce_inv pkgs0 P (index_with o [] idx)
    (release name ds pkgs pending).1 (release name ds pkgs pending).2 /\
  length (release name ds pkgs pending).2 <= length pending + length ds.
Proof.
  intros Hname Hjust. revert pkgs pending.
  induction ds as [|d ds IH]; intros pkgs pending Hinv; simpl.
  - split; [done|lia].
  - destruct (get_decl pkgs d) as [dc|] eqn:Hdc.
    + pose proof (release_step_inv _ _ _ _ _ _ _ _ _ _ Hname Hjust Hdc Hinv)
        as Hstep.
      destruct (IH _ _ Hstep) as [H1 H2]. split; [done|].
      etrans; [exact H2|].
      destruct (decide _); rewrite ?length_app; simpl; lia.
    + destruct (IH pkgs pending) as [H1 H2]; [|split; [done|lia]].
      destruct Hinv as [I1 I2 I3 I4 I5]. split; try done.
      intros Hwf. exfalso.
      destruct (release_head_guard pkgs0 P idx o name d ds pkgs pending
                  Hwf Hname) as [Hin _]; [by split|].
      rewrite filters_of_None in Hin by done. by apply not_elem_of_nil in Hin.
Qed.

(** ** The size of the index *)

Lemma index_size_delete (m : gmap string (list DeclPtr)) (o : string)
  (ds : list DeclPtr) :
  m !! o = Some ds -> index_size m = length ds + index_size (delete o m).
Proof.
  intros H. unfold index_size.
  rewrite <- (map_to_list_delete m o ds H). done.
Qed.

Lemma index_size_insert (m : gmap string (list DeclPtr)) (o : string)
  (ds : list DeclPtr) :
  m !! o = None -> index_size (<[o := ds]> m) = length ds + index_size m.
Proof.
  intros H. unfold index_size. by rewrite map_to_list_insert.
Qed.

Lemma index_at_delete (m : gmap string (list DeclPtr)) (o o' : string) :
  index_at (delete o m) o' = index_with o [] (index_at m) o'.
Proof.
  unfold index_at, index_with. destruct (decide (o' = o)) as [->|Hne].
  - by rewrite lookup_delete_eq.
  - by rewrite lookup_delete_ne.
Qed.

Lemma index_with_lookup (m : gmap string (list DeclPtr)) (o o' : string)
  (ds : list DeclPtr) :
  m !! o = Some ds ->
  index_at m o' = index_with o ds (index_at (delete o m)) o'.
Proof.
  intros H. unfold index_at, index_with. destruct (decide (o' = o)) as [->|Hne].
  - by rewrite H.
  - by rewrite lookup_delete_ne.
Qed.

Lemma keys_ok_delete (m : gmap string (list DeclPtr)) (o : string) :
  keys_ok m -> keys_ok (delete o m).
Proof.
  intros H o' ds Ho'. apply lookup_delete_Some in Ho' as [_ Ho'].
  by eapply H.
Qed.

(** ** The walk over the dependencies of one declaration *)

Lemma visit_deps_inv (pkgs0 : list Archive) (P : list DeclPtr)
  (deps : list DepId) (st : dce_state) :
  dce_inv pkgs0 P (index_at (declsByObject st)) (st_pkgs st)
    (pendingDecls st) ->
  keys_ok (declsByObject st) ->
  (well_formed pkgs0 = true ->
   exists d' dc', Live pkgs0 d' /\ get_decl pkgs0 d' = Some dc' /\
                  deps ⊆ DceDeps dc') ->
  exists st',
    visit_deps deps st = Returned st' /\
    dce_inv pkgs0 P (index_at (declsByObject st')) (st_pkgs st')
      (pendingDecls st') /\
    keys_ok (declsByObject st') /\
    (forall o, declsByObject st !! o = None -> declsByObject st' !! o = None) /\
    (forall o, o ∈ deps -> declsByObject st' !! o = None) /\
    length (pendingDecls st') + index_size (declsByObject st')
      <= length (pendingDecls st) + index_size (declsByObject st).
Proof.
  revert st. induction deps as [|o deps IH]; intros st Hinv Hkeys Hjust.
  - exists st. split_and!; try done. intros o Ho. by apply not_elem_of_nil in Ho.
  - assert (well_formed pkgs0 = true ->
            exists d' dc', Live pkgs0 d' /\ get_decl pkgs0 d' = Some dc' /\
                           deps ⊆ DceDeps dc') as Hjust'.
    { intros Hwf. destruct (Hjust Hwf) as (d' & dc' & ? & ? & Hsub).
      exists d', dc'. split_and!; [done..|].
      intros x Hx. apply Hsub. by right. }
    simpl. destruct (declsByObject st !! o) as [ds|] eqn:Ho.
    + destruct (Hkeys o ds Ho) as (p & f & ->).
      destruct (Split_object_key_is_Some p f) as [name Hname].
      rewrite Hname.
      destruct (release_inv pkgs0 P (index_at (delete (object_key p f)
                  (declsByObject st))) (object_key p f) name ds
                  (st_pkgs st) (pendingDecls st) Hname) as [Hrel Hlen].
      { intros Hwf. destruct (Hjust Hwf) as (d' & dc' & ? & ? & Hsub).
        exists d', dc'. split_and!; [done..|]. apply Hsub. by left. }
      { eapply dce_inv_ext; [|exact Hinv].
        intros o'. by apply index_with_lookup. }
      destruct (release name ds (st_pkgs st) (pendingDecls st))
        as [pkgs' pending'] eqn:Erel. simpl in Hrel, Hlen.
      destruct (IH {| st_pkgs := pkgs';
                      declsByObject := delete (object_key p f) (declsByObject st);
                      pendingDecls := pending' |})
        as (st' & Hv & Hinv' & Hkeys' & Hmono & Hcons & Hsize).
      { simpl. eapply dce_inv_ext; [|exact Hrel].
        intros o'. unfold index_with. destruct (decide _) as [->|]; [|done].
        unfold index_at. by rewrite lookup_delete_eq. }
      { simpl. by apply keys_ok_delete. }
      { done. }
      exists st'. simpl in *. split_and!; try done.
      * intros o' Ho'. apply Hmono. by rewrite lookup_delete_None; right.
      * intros o' Ho'. apply elem_of_cons in Ho' as [->|Ho']; [|by apply Hcons].
        apply Hmono. by apply lookup_delete_eq.
      * rewrite (index_size_delete _ _ _ Ho). lia.
    + destruct (IH st Hinv Hkeys Hjust')
        as (st' & Hv & Hinv' & Hkeys' & Hmono & Hcons & Hsize).
      exists st'. split_and!; try done.
      intros o' Ho'. apply elem_of_cons in Ho' as [->|Ho']; [|by apply Hcons].
      by apply Hmono.
Qed.

(** ** The worklist loop *)

Lemma pop_Some (l l' : list DeclPtr) (d : DeclPtr) :
  pop l = Some (l', d) -> l = l' ++ [d].
Proof.
  unfold pop. destruct (last l) as [x|] eqn:E; [|done].
  intros [= <- <-]. apply last_Some in E as [l' ->].
  rewrite length_app. simpl.
  replace (length l' + 1 - 1) with (length l') by lia.
  by rewrite take_app_length.
Qed.

Lemma pop_None (l : list DeclPtr) : pop l = None -> l = [].
Proof.
  unfold pop. destruct (last l) eqn:E; [done|]. intros _. by apply last_None.
Qed.

Lemma dce_loop_inv (pkgs0 : list Archive) (fuel : nat) (st : dce_state)
  (P : list DeclPtr) :
  dce_inv pkgs0 P (index_at (declsByObject st)) (st_pkgs st)
    (pendingDecls st) ->
  keys_ok (declsByObject st) ->
  deps_consumed pkgs0 P (declsByObject st) ->
  length (pendingDecls st) + index_size (declsByObject st) < fuel ->
  exists st' P',
    dce_loop fuel st = Returned st' /\
    dce_inv pkgs0 P' (index_at (declsByObject st')) (st_pkgs st')
      (pendingDecls st') /\
    deps_consumed pkgs0 P' (declsByObject st') /\
    pendingDecls st' = [].
Proof.
  revert st P. induction fuel as [|fuel IH]; intros st P Hinv Hkeys Hcons Hfuel;
    [lia|].
  simpl. destruct (pop (pendingDecls st)) as [[pending d]|] eqn:Hpop.
  - apply pop_Some in Hpop.
    assert (emptied (st_pkgs st) d) as Hd.
    { eapply inv_pending; [exact Hinv|]. rewrite Hpop.
      apply elem_of_app. right. by apply list_elem_of_singleton. }
    pose proof Hd as (dc & Hdc & He). rewrite Hdc.
    pose proof (inv_shape _ _ _ _ _ Hinv) as Hs.
    destruct (same_shape_get_decl_r _ _ _ _ Hs Hdc)
      as (dc0 & Hdc0 & (_ & _ & _ & Hdeps & _)).
    destruct (visit_deps_inv pkgs0 (d :: P) (DceDeps dc)
                {| st_pkgs := st_pkgs st; declsByObject := declsByObject st;
                   pendingDecls := pending |})
      as (st1 & Hv & Hinv1 & Hkeys1 & Hmono & Hvis & Hsize); simpl.
    + destruct Hinv as [I1 I2 I3 I4 I5]. split; try done.
      * intros d' Hd'. apply I2. rewrite Hpop. apply elem_of_app. by left.
      * intros d' Hd'. destruct (I3 d' Hd') as [Hin|Hin].
        -- rewrite Hpop in Hin. apply elem_of_app in Hin as [?|Hin];
             [by left|right].
           apply list_elem_of_singleton in Hin. subst. by left.
        -- right. by right.
    + done.
    + intros Hwf. exists d, dc0. split_and!; [|done|by rewrite Hdeps].
      by eapply dce_inv_emptied_Live.
    + rewrite Hv. simpl in Hsize.
      apply (IH st1 (d :: P)); [done|done| |].
      * intros d' dc' dep Hd' Hdc' Hdep.
        apply elem_of_cons in Hd' as [->|Hd'].
        -- apply Hvis. assert (dc' = dc0) as -> by congruence.
           by rewrite Hdeps.
        -- apply Hmono. by eapply Hcons.
      * rewrite Hpop, length_app in Hfuel. simpl in Hfuel. lia.
  - apply pop_None in Hpop. by exists st, P.
Qed.

(** ** Building the index and seeding the worklist *)

Lemma index_at_append (m : gmap string (list DeclPtr)) (o o' : string)
  (d : DeclPtr) :
  index_at (index_append o d m) o' =
    if decide (o' = o) then index_at m o ++ [d] else index_at m o'.
Proof.
  unfold index_at, index_append. destruct (decide (o' = o)) as [->|Hne].
  - by rewrite lookup_insert_eq.
  - by rewrite lookup_insert_ne.
Qed.

Lemma index_size_append (m : gmap string (list DeclPtr)) (o : string)
  (d : DeclPtr) :
  index_size (index_append o d m) = S (index_size m).
Proof.
  unfold index_append. destruct (m !! o) as [ds|] eqn:Ho; simpl.
  - rewrite <- insert_delete_eq.
    rewrite index_size_insert by apply lookup_delete_eq.
    rewrite (index_size_delete m o ds Ho), length_app. simpl. lia.
  - by rewrite index_size_insert.
Qed.

Lemma keys_ok_append (m : gmap string (list DeclPtr)) (p : PkgPath)
  (f : DepId) (d : DeclPtr) :
  keys_ok m -> keys_ok (index_append (object_key p f) d m).
Proof.
  intros H o ds Ho. unfold index_append in Ho.
  apply lookup_insert_Some in Ho as [[<- _]|[_ Ho]]; [by eexists _, _|].
  by eapply H.
Qed.

Lemma occurrences_app (d : DeclPtr) (l1 l2 : list DeclPtr) :
  occurrences d (l1 ++ l2) = occurrences d l1 + occurrences d l2.
Proof. unfold occurrences. by rewrite filter_app, length_app. Qed.

Lemma collect_filters_spec (path : PkgPath) (d : DeclPtr) (fs : list DepId)
  (m : gmap string (list DeclPtr)) :
  let m' := foldl (fun m f => index_append (object_key path f) d m) m fs in
  (forall o d', occurrences d' (index_at m' o) =
                occurrences d' (index_at m o) +
                (if decide (d = d') then key_count path o fs else 0)) /\
  index_size m' = index_size m + length fs /\
  (keys_ok m -> keys_ok m').
Proof.
  revert m. induction fs as [|f fs IH]; intros m; simpl.
  - split_and!; [|lia|done]. intros o d'. unfold key_count.
    destruct (decide _); simpl; lia.
  - destruct (IH (index_append (object_key path f) d m)) as (H1 & H2 & H3).
    split_and!.
    + intros o d'. rewrite H1, index_at_append.
      unfold key_count. rewrite filter_cons.
      destruct (decide (o = object_key path f)) as [->|Hne];
        destruct (decide (object_key path f = _)); try congruence.
      rewrite occurrences_app, occurrences_cons.
      change (occurrences d' []) with 0.
      destruct (decide (d = d')); simpl; lia.
    + rewrite H2, index_size_append. lia.
    + intros Hk. by apply H3, keys_ok_append.
Qed.

Lemma collect_decls_spec (path : PkgPath) (pi : nat) (ds : list Decl)
  (di : nat) (m : gmap string (list DeclPtr)) (q : list DeclPtr) :
  let r := collect_decls path pi di ds (m, q) in
  (forall o d, occurrences d (index_at r.1 o) =
               occurrences d (index_at m o) +
               (if decide (d.1 = pi /\ di <= d.2)
                then match ds !! (d.2 - di) with
                     | Some dc => key_count path o (DceFilters dc)
                     | None => 0
                     end
                else 0)) /\
  (forall d, d ∈ r.2 <->
             d ∈ q \/ (d.1 = pi /\ di <= d.2 /\
                       exists dc, ds !! (d.2 - di) = Some dc /\
                                  DceFilters dc = [])) /\
  length r.2 + index_size r.1 =
    length q + index_size m + sum_list (decl_weight <$> ds) /\
  (keys_ok m -> keys_ok r.1).
Proof.
  revert di m q. induction ds as [|dc ds IH]; intros di m q; simpl.
  - split_and!; [| |lia|done].
    + intros o d. destruct (decide _); lia.
    + intros d. split; [by left|].
      intros [?|(? & ? & dc & Hl & ?)]; [done|].
      by rewrite lookup_nil in Hl.
  - unfold collect_decl. simpl.
    destruct (decide (length (DceFilters dc) = 0)) as [He|He].
    + apply length_zero_iff_nil in He.
      destruct (IH (S di) m (q ++ [(pi, di)])) as (H1 & H2 & H3 & H4).
      split_and!.
      * intros o d. rewrite H1. f_equal.
        destruct (decide (d.1 = pi /\ S di <= d.2)) as [[? ?]|Hn].
        -- rewrite decide_True by (split; [done|lia]).
           by replace (d.2 - di) with (S (d.2 - S di)) by lia.
        -- destruct (decide (d.1 = pi /\ di <= d.2)) as [[? ?]|]; [|done].
           assert (d.2 = di) as -> by lia.
           rewrite Nat.sub_diag. simpl. rewrite He. done.
      * intros d. rewrite H2, elem_of_app, list_elem_of_singleton.
        split.
        -- intros [[?| ->]|(? & ? & dc' & Hl & ?)].
           ++ by left.
           ++ right. simpl. split_and!; [done|lia|].
              exists dc. by rewrite Nat.sub_diag.
           ++ right. split_and!; [done|lia|]. exists dc'.
              by replace (d.2 - di) with (S (d.2 - S di)) by lia.
        -- intros [?|(? & ? & dc' & Hl & ?)]; [by left; left|].
           destruct (decide (d.2 = di)) as [E|E].
           ++ left. right. destruct d; simpl in *. congruence.
           ++ right. split_and!; [done|lia|]. exists dc'.
              by replace (d.2 - di) with (S (d.2 - S di)) in Hl by lia.
      * rewrite H3, length_app. unfold decl_weight at 2.
        rewrite decide_True by (by rewrite He). simpl. unfold fmap. lia.
      * done.
    + destruct (collect_filters_spec path (pi, di) (DceFilters dc) m)
        as (F1 & F2 & F3).
      destruct (IH (S di)
                  (foldl (fun m f => index_append (object_key path f) (pi, di) m)
                         m (DceFilters dc)) q) as (H1 & H2 & H3 & H4).
      split_and!.
      * intros o d. rewrite H1, F1. rewrite <- Nat.add_assoc. f_equal.
        destruct (decide (d.1 = pi /\ S di <= d.2)) as [[? ?]|Hn].
        -- destruct (decide ((pi, di) = d)) as [E|_];
             [rewrite <- E in *; simpl in *; lia|].
           rewrite decide_True by (split; [done|lia]).
           by replace (d.2 - di) with (S (d.2 - S di)) by lia.
        -- destruct (decide (d.1 = pi /\ di <= d.2)) as [[? ?]|Hn2].
           ++ assert (d.2 = di) as E by lia.
              destruct (decide ((pi, di) = d)) as [_|E2];
                [|destruct d; simpl in *; congruence].
              rewrite E, Nat.sub_diag. simpl. lia.
           ++ destruct (decide ((pi, di) = d)) as [E|_]; [|done].
              rewrite <- E in *. simpl in *. exfalso. apply Hn2. split; [done|lia].
      * intros d. rewrite H2. split.
        -- intros [?|(? & ? & dc' & Hl & ?)]; [by left|right].
           split_and!; [done|lia|]. exists dc'.
           by replace (d.2 - di) with (S (d.2 - S di)) by lia.
        -- intros [?|(? & ? & dc' & Hl & Hf)]; [by left|right].
           destruct (decide (d.2 = di)) as [E|E].
           ++ rewrite E, Nat.sub_diag in Hl. simpl in Hl.
              injection Hl as <-. rewrite Hf in He. done.
           ++ split_and!; [done|lia|]. exists dc'.
              by replace (d.2 - di) with (S (d.2 - S di)) in Hl by lia.
      * rewrite H3, F2. unfold decl_weight at 2.
        rewrite decide_False by done. simpl. unfold fmap. lia.
      * intros Hk. by apply H4, F3.
Qed.

Lemma collect_pkgs_spec (pkgs : list Archive) (pi : nat)
  (m : gmap string (list DeclPtr)) (q : list DeclPtr) :
  let r := collect_pkgs pi pkgs (m, q) in
  (forall o d, occurrences d (index_at r.1 o) =
               occurrences d (index_at m o) +
               (if decide (pi <= d.1)
                then match pkgs !! (d.1 - pi) with
                     | Some a =>
                         match Declarations a !! d.2 with
                         | Some dc => key_count (ImportPath a) o (DceFilters dc)
                         | None => 0
                         end
                     | None => 0
                     end
                else 0)) /\
  (forall d, d ∈ r.2 <->
             d ∈ q \/ (pi <= d.1 /\
                       exists a dc, pkgs !! (d.1 - pi) = Some a /\
                                    Declarations a !! d.2 = Some dc /\
                                    DceFilters dc = [])) /\
  length r.2 + index_size r.1 =
    length q + index_size m +
    sum_list ((fun a => sum_list (decl_weight <$> Declarations a)) <$> pkgs) /\
  (keys_ok m -> keys_ok r.1).
Proof.
  revert pi m q. induction pkgs as [|pkg pkgs IH]; intros pi m q.
  - simpl. split_and!; [| |lia|done].
    + intros o d. destruct (decide _); lia.
    + intros d. split; [by left|].
      intros [?|(? & a & dc & Hl & _)]; [done|]. by rewrite lookup_nil in Hl.
  - cbn [collect_pkgs].
    destruct (collect_decls_spec (ImportPath pkg) pi (Declarations pkg) 0 m q)
      as (D1 & D2 & D3 & D4).
    destruct (collect_decls (ImportPath pkg) pi 0 (Declarations pkg) (m, q))
      as [m1 q1] eqn:E1. simpl in D1, D2, D3, D4.
    destruct (IH (S pi) m1 q1) as (H1 & H2 & H3 & H4).
    split_and!.
    + intros o d. rewrite H1, D1, <- Nat.add_assoc. f_equal.
      rewrite Nat.sub_0_r.
      destruct (decide (S pi <= d.1)) as [Hle|Hn].
      * rewrite decide_False by lia. rewrite decide_True by lia.
        by replace (d.1 - pi) with (S (d.1 - S pi)) by lia.
      * destruct (decide (d.1 = pi /\ 0 <= d.2)) as [[E _]|Hn2].
        -- rewrite decide_True by lia. by rewrite E, Nat.sub_diag.
        -- rewrite decide_False; [done|]. intros Hle. apply Hn2. lia.
    + intros d. rewrite H2, D2. split.
      * intros [[?|(E & _ & dc & Hl & He)]|(Hle & a & dc & Ha & Hl & He)].
        -- by left.
        -- right. split; [lia|]. exists pkg, dc.
           rewrite E, Nat.sub_diag. rewrite Nat.sub_0_r in Hl. done.
        -- right. split; [lia|]. exists a, dc.
           by replace (d.1 - pi) with (S (d.1 - S pi)) by lia.
      * intros [?|(Hle & a & dc & Ha & Hl & He)]; [by left; left|].
        destruct (decide (d.1 = pi)) as [E|E].
        -- left. right. rewrite E, Nat.sub_diag in Ha. injection Ha as <-.
           split_and!; [done|lia|]. exists dc. by rewrite Nat.sub_0_r.
        -- right. split; [lia|]. exists a, dc.
           by replace (d.1 - pi) with (S (d.1 - S pi)) in Ha by lia.
    + rewrite H3, D3. simpl. unfold fmap. lia.
    + intros Hk. by apply H4, D4.
Qed.

Lemma decl_weight_le (ds : list Decl) :
  sum_list (decl_weight <$> ds)
    <= sum_list ((fun dc => S (length (DceFilters dc))) <$> ds).
Proof.
  induction ds as [|dc ds IH]; simpl; [lia|].
  unfold decl_weight at 1. destruct (decide _); unfold fmap in *; lia.
Qed.

Lemma dce_fuel_enough (pkgs : list Archive) :
  sum_list ((fun a => sum_list (decl_weight <$> Declarations a)) <$> pkgs)
    < dce_fuel pkgs.
Proof.
  unfold dce_fuel. apply Nat.lt_succ_r.
  induction pkgs as [|a pkgs IH]; simpl; [lia|].
  pose proof (decl_weight_le (Declarations a)). unfold fmap in *. lia.
Qed.

Lemma index_size_empty : index_size ∅ = 0.
Proof. unfold index_size. by rewrite map_to_list_empty. Qed.

Lemma guards_lookup (pkgs : list Archive) (d : DeclPtr) (o : string) :
  guards pkgs d o =
    match pkgs !! d.1 with
    | Some a =>
        match Declarations a !! d.2 with
        | Some dc => key_count (ImportPath a) o (DceFilters dc)
        | None => 0
        end
    | None => 0
    end.
Proof.
  unfold guards, key_count, path_of, filters_of, get_decl.
  destruct (pkgs !! d.1) as [a|]; simpl; [|done].
  by destruct (Declarations a !! d.2).
Qed.

(** The state in which the worklist loop starts. *)
Lemma dce_initial (pkgs : list Archive) :
  let r := collect_pkgs 0 pkgs (∅, []) in
  dce_inv pkgs [] (index_at r.1) pkgs r.2 /\ keys_ok r.1 /\
  length r.2 + index_size r.1 < dce_fuel pkgs.
Proof.
  destruct (collect_pkgs_spec pkgs 0 ∅ []) as (H1 & H2 & H3 & H4).
  split_and!.
  - split.
    + apply same_shape_refl.
    + intros d Hd. apply H2 in Hd as [Hd|(_ & a & dc & Ha & Hdc & He)];
        [by apply not_elem_of_nil in Hd|].
      rewrite Nat.sub_0_r in Ha. exists dc. split; [|done].
      apply get_decl_Some. eauto.
    + intros d (dc & Hd & He). left. apply H2. right. split; [lia|].
      apply get_decl_Some in Hd as (a & Ha & Hdc).
      exists a, dc. by rewrite Nat.sub_0_r.
    + intros _ o d. rewrite H1, guards_lookup, Nat.sub_0_r.
      destruct (decide (0 <= d.1)) as [_|]; [|lia].
      unfold index_at at 1. by rewrite lookup_empty.
    + intros _ d dc0 f Hd Hf Hn. rewrite (filters_of_Some _ _ _ Hd) in Hn. done.
  - apply H4. intros o ds Ho. by rewrite lookup_empty in Ho.
  - rewrite H3, index_size_empty. simpl. apply dce_fuel_enough.
Qed.

(** The DCE returns, for every input: it neither panics nor exhausts its
    fuel, and it ends with the invariant and an empty worklist. *)
Lemma dce_run (pkgs : list Archive) :
  exists st P,
    dce pkgs = Returned st /\
    dce_inv pkgs P (index_at (declsByObject st)) (st_pkgs st) [] /\
    deps_consumed pkgs P (declsByObject st) /\
    pendingDecls st = [].
Proof.
  destruct (dce_initial pkgs) as (Hinv & Hkeys & Hfuel).
  unfold dce.
  destruct (dce_loop_inv pkgs (dce_fuel pkgs)
              {| st_pkgs := pkgs;
                 declsByObject := (collect_pkgs 0 pkgs (∅, [])).1;
                 pendingDecls := (collect_pkgs 0 pkgs (∅, [])).2 |} [])
    as (st & P & Hrun & Hinv' & Hcons & Hpend); [done|done| |done|].
  - intros d dc dep Hd. by apply not_elem_of_nil in Hd.
  - exists st, P. rewrite Hpend in Hinv'. done.
Qed.

Lemma dce_inv_Live_emptied (pkgs0 : list Archive) (P : list DeclPtr)
  (m : gmap string (list DeclPtr)) (pkgs : list Archive) (d : DeclPtr) :
  well_formed pkgs0 = true ->
  dce_inv pkgs0 P (index_at m) pkgs [] -> deps_consumed pkgs0 P m ->
  Live pkgs0 d -> emptied pkgs d.
Proof.
  intros Hwf Hinv Hcons. revert d. apply Live_strong_ind.
  intros d a dc Ha Hdc Hf.
  pose proof (inv_shape _ _ _ _ _ Hinv) as Hs.
  assert (get_decl pkgs0 d = Some dc) as Hd0 by (apply get_decl_Some; eauto).
  destruct (same_shape_get_decl _ _ _ _ Hs Hd0) as (dcf & Hdf & Hsd).
  exists dcf. split; [done|].
  destruct (DceFilters dcf) as [|f fs] eqn:Efs; [done|]. exfalso.
  assert (f ∈ DceFilters dcf) as Hfin by (rewrite Efs; by left).
  assert (f ∈ DceFilters dc) as Hf0 by (by apply Hsd).
  destruct (Hf f Hf0) as (d' & dc' & [_ He'] & Hd' & Hk).
  destruct (inv_emptied _ _ _ _ _ Hinv d' He') as [Hin|Hin];
    [by apply not_elem_of_nil in Hin|].
  pose proof (Hcons d' dc' _ Hin Hd' Hk) as Hnone.
  pose proof (inv_count _ _ _ _ _ Hinv Hwf (object_key (ImportPath a) f) d)
    as Hc.
  unfold index_at in Hc. rewrite Hnone in Hc. simpl in Hc.
  change (occurrences d []) with 0 in Hc.
  eapply (guards_zero pkgs d); [by symmetry| |].
  - by rewrite (filters_of_Some _ _ _ Hdf).
  - rewrite (same_shape_path_of _ _ _ Hs). unfold path_of. by rewrite Ha.
Qed.

(** The DCE returns for every list of archives, well formed or not: it
    neither panics nor loops, it leaves the worklist empty, and it changes
    nothing of the archives but shortens filter lists. *)
Theorem dce_total (pkgs : list Archive) :
  exists st,
    dce pkgs = Returned st /\ same_shape pkgs (st_pkgs st) /\
    pendingDecls st = [] /\
    forall d dc, get_decl pkgs d = Some dc -> DceFilters dc = [] ->
                 emptied (st_pkgs st) d.
Proof.
  destruct (dce_run pkgs) as (st & P & Hrun & Hinv & _ & Hpend).
  pose proof (inv_shape _ _ _ _ _ Hinv) as Hs.
  exists st. split_and!; [done..|].
  intros d dc Hd He.
  destruct (same_shape_get_decl _ _ _ _ Hs Hd) as (dc' & Hd' & Hsd).
  exists dc'. split; [done|].
  destruct Hsd as (_ & _ & _ & _ & Hsub). rewrite He in Hsub.
  destruct (DceFilters dc') as [|f fs]; [done|].
  exfalso. eapply not_elem_of_nil, Hsub. by left.
Qed.

(** C2, as the code has it.  On archives whose import paths and filter
    names hold no colon, the DCE returns and changes nothing but filter
    lists, and afterwards a declaration is live (its filters drained to
    empty) if and only if it is in the least set that holds every
    declaration without filters and every declaration each of whose
    filters is a dependency of a member.  In particular a declaration whose
    filters were empty before is live, and one outside that set keeps a
    filter and stays dead.  A filter list is a conjunction: one hop to one
    of several filters does not make a declaration live. *)
Theorem dce_live_iff (pkgs : list Archive) :
  well_formed pkgs = true ->
  exists st,
    dce pkgs = Returned st /\ same_shape pkgs (st_pkgs st) /\
    forall d dc, get_decl pkgs d = Some dc ->
      (emptied (st_pkgs st) d <-> Live pkgs d) /\
      (DceFilters dc = [] -> emptied (st_pkgs st) d) /\
      (~ Live pkgs d ->
       exists dc', get_decl (st_pkgs st) d = Some dc' /\ DceFilters dc' <> []).
Proof.
  intros Hwf. destruct (dce_run pkgs) as (st & P & Hrun & Hinv & Hcons & _).
  exists st. split; [done|].
  pose proof (inv_shape _ _ _ _ _ Hinv) as Hs. split; [done|].
  intros d dc Hd.
  assert (emptied (st_pkgs st) d <-> Live pkgs d) as Hiff.
  { split.
    - by eapply dce_inv_emptied_Live.
    - by eapply dce_inv_Live_emptied. }
  split_and!; [done| |].
  - intros He. apply Hiff. apply get_decl_Some in Hd as (a & Ha & Hdc).
    apply (Live_intro pkgs d a dc Ha Hdc). intros f Hf.
    rewrite He in Hf. by apply not_elem_of_nil in Hf.
  - intros Hn. destruct (same_shape_get_decl _ _ _ _ Hs Hd) as (dc' & Hd' & _).
    exists dc'. split; [done|]. intros He. apply Hn, Hiff. by exists dc'.
Qed.

Lemma dce_live_iff_witness :
  exists st,
    dce example_program = Returned st /\
    (emptied (st_pkgs st) (0, 1) <-> Live example_program (0, 1)) /\
    (emptied (st_pkgs st) (0, 2) <-> Live example_program (0, 2)).
Proof.
  destruct (dce_live_iff example_program) as (st & Hrun & _ & H);
    [reflexivity|].
  exists st. split; [exact Hrun|]. split.
  - apply (H (0, 1) (example_decl "B" ["f"] [])). reflexivity.
  - apply (H (0, 2) (example_decl "C" ["f"; "g"] [])). reflexivity.
Defined.

(** C2, as stated, fails: [C] of the example is one hop away
    from the unconditionally live [A] (through its filter [f], which [A]
    depends on), yet the DCE leaves it the filter [g] and it stays dead. *)
Lemma dce_reachable_not_live :
  exists st,
    dce example_program = Returned st /\
    reachable example_program (0, 2) /\
    (DceFilters <$> get_decl (st_pkgs st) (0, 2)) = Some ["g"] /\
    ~ emptied (st_pkgs st) (0, 2).
Proof.
  destruct (dce example_program) as [st| |] eqn:E;
    [|by vm_compute in E|by vm_compute in E].
  exists st. split; [done|].
  assert (st_pkgs st =
          [example_archive "p"
             [example_decl "A" [] ["p:f"];
              example_decl "B" [] [];
              example_decl "C" ["g"] []]]) as Hst.
  { assert (obind (dce example_program) (fun s => Returned (st_pkgs s)) =
            Returned [example_archive "p"
                        [example_decl "A" [] ["p:f"];
                         example_decl "B" [] [];
                         example_decl "C" ["g"] []]]) as H by (by vm_compute).
    rewrite E in H. simpl in H. by injection H. }
  split_and!.
  - exists (0, 0), (example_decl "A" [] ["p:f"]).
    split_and!; [done|done|].
    apply rtc_once.
    exists (example_archive "p"
              [example_decl "A" [] ["p:f"];
               example_decl "B" ["f"] [];
               example_decl "C" ["f"; "g"] []]),
           (example_decl "C" ["f"; "g"] []),
           (example_decl "A" [] ["p:f"]), "f".
    split_and!; [done|done|done|by left|by left].
  - by rewrite Hst.
  - rewrite Hst. intros (dc & Hd & He). injection Hd as <-. done.
Qed.

(** ** Liveness depends on the Filters/Deps relation only *)

Lemma same_relation_get_decl (pkgs1 pkgs2 : list Archive) (d : DeclPtr)
  (a1 : Archive) (dc1 : Decl) :
  same_relation pkgs1 pkgs2 ->
  pkgs1 !! d.1 = Some a1 -> Declarations a1 !! d.2 = Some dc1 ->
  exists a2 dc2,
    pkgs2 !! d.1 = Some a2 /\ Declarations a2 !! d.2 = Some dc2 /\
    ImportPath a1 = ImportPath a2 /\
    (forall f, f ∈ DceFilters dc1 <-> f ∈ DceFilters dc2) /\
    (forall o, o ∈ DceDeps dc1 <-> o ∈ DceDeps dc2).
Proof.
  intros Hr Ha Hd.
  destruct (Forall2_lookup_l _ _ _ _ _ Hr Ha) as (a2 & Ha2 & Hp & Hds).
  destruct (Forall2_lookup_l _ _ _ _ _ Hds Hd) as (dc2 & Hd2 & Hf & Ho).
  by exists a2, dc2.
Qed.

Lemma Live_same_relation (pkgs1 pkgs2 : list Archive) (d : DeclPtr) :
  same_relation pkgs1 pkgs2 -> Live pkgs1 d -> Live pkgs2 d.
Proof.
  intros Hr. revert d. apply Live_strong_ind.
  intros d a1 dc1 Ha Hd Hf.
  destruct (same_relation_get_decl _ _ _ _ _ Hr Ha Hd)
    as (a2 & dc2 & Ha2 & Hd2 & Hp & Hfs & _).
  apply (Live_intro pkgs2 d a2 dc2 Ha2 Hd2). intros f Hin.
  apply Hfs in Hin. destruct (Hf f Hin) as (d' & dc' & [_ Hl] & Hg & Hk).
  apply get_decl_Some in Hg as (a' & Ha' & Hd').
  destruct (same_relation_get_decl _ _ _ _ _ Hr Ha' Hd')
    as (a2' & dc2' & Ha2' & Hd2' & _ & _ & Hos).
  exists d', dc2'. split_and!; [done| |].
  - apply get_decl_Some. eauto.
  - rewrite <- Hp. by apply Hos.
Qed.

Lemma same_relation_sym (pkgs1 pkgs2 : list Archive) :
  same_relation pkgs1 pkgs2 -> same_relation pkgs2 pkgs1.
Proof.
  intros H. apply Forall2_flip. eapply Forall2_impl; [exact H|].
  intros a1 a2 [Hp Hds]. split; [done|].
  apply Forall2_flip. eapply Forall2_impl; [exact Hds|].
  intros d1 d2 [Hf Ho]. split; intros x; by rewrite ?Hf, ?Ho.
Qed.

Lemma dce_emptied_Live (pkgs : list Archive) :
  well_formed pkgs = true ->
  exists st,
    dce pkgs = Returned st /\ same_shape pkgs (st_pkgs st) /\
    forall d, emptied (st_pkgs st) d <-> Live pkgs d.
Proof.
  intros Hwf. destruct (dce_run pkgs) as (st & P & Hrun & Hinv & Hcons & _).
  exists st. split_and!; [done|by eapply inv_shape|].
  intros d. split.
  - by eapply dce_inv_emptied_Live.
  - by eapply dce_inv_Live_emptied.
Qed.

(** Two programs with the same Filters/Deps relation have the same live
    declarations after the DCE, whatever the order of their lists. *)
Lemma dce_same_relation (pkgs1 pkgs2 : list Archive) :
  well_formed pkgs1 = true -> well_formed pkgs2 = true ->
  same_relation pkgs1 pkgs2 ->
  exists st1 st2,
    dce pkgs1 = Returned st1 /\ dce pkgs2 = Returned st2 /\
    forall d, emptied (st_pkgs st1) d <-> emptied (st_pkgs st2) d.
Proof.
  intros Hwf1 Hwf2 Hr.
  destruct (dce_emptied_Live pkgs1 Hwf1) as (st1 & Hrun1 & _ & H1).
  destruct (dce_emptied_Live pkgs2 Hwf2) as (st2 & Hrun2 & _ & H2).
  exists st1, st2. split_and!; [done..|].
  intros d. rewrite H1, H2. split.
  - by apply Live_same_relation.
  - by apply Live_same_relation, same_relation_sym.
Qed.

(** * The linker's output *)

Local Open Scope nat_scope.

(** ** The order of [sort.Strings] *)

Lemma ascii_compare_refl (a : ascii) : Ascii.compare a a = Eq.
Proof. unfold Ascii.compare. apply N.compare_refl. Qed.

Lemma string_compare_refl (s : string) : String.compare s s = Eq.
Proof.
  induction s as [|c s IH]; simpl; [done|]. by rewrite ascii_compare_refl.
Qed.

Lemma string_leb_trans (s1 s2 s3 : string) :
  String.leb s1 s2 = true -> String.leb s2 s3 = true ->
  String.leb s1 s3 = true.
Proof.
  unfold String.leb. revert s2 s3.
  induction s1 as [|a s1 IH]; intros [|b s2] [|c s3]; simpl; try done.
  destruct (Ascii.compare a b) eqn:E1; [| |done];
    destruct (Ascii.compare b c) eqn:E2; try done.
  - apply Ascii.compare_eq_iff in E1, E2. subst.
    rewrite ascii_compare_refl. apply IH.
  - apply Ascii.compare_eq_iff in E1. subst. by rewrite E2.
  - apply Ascii.compare_eq_iff in E2. subst. by rewrite E1.
  - unfold Ascii.compare in *. rewrite N.compare_lt_iff in E1, E2.
    assert ((N_of_ascii a ?= N_of_ascii c)%N = Lt) as ->
      by (apply N.compare_lt_iff; lia).
    done.
Qed.

#[global] Instance string_le_trans : Transitive string_le.
Proof.
  intros s1 s2 s3 H1 H2. apply Is_true_true.
  apply Is_true_true in H1, H2. by eapply string_leb_trans.
Qed.

#[global] Instance string_le_total : Total string_le.
Proof.
  intros s1 s2. unfold string_le.
  destruct (String.leb_total s1 s2) as [H|H]; rewrite H; [by left|by right].
Qed.

#[global] Instance string_le_antisym : AntiSymm (=) string_le.
Proof.
  intros s1 s2 H1 H2. apply Is_true_true in H1, H2.
  by apply String.leb_antisym.
Qed.

#[global] Instance string_le_refl : Reflexive string_le.
Proof.
  intros s. apply Is_true_true. unfold String.leb.
  by rewrite string_compare_refl.
Qed.

Lemma sort_Strings_sorted (l : list string) :
  StronglySorted string_le (sort_Strings l).
Proof. apply StronglySorted_merge_sort; apply _. Qed.

Lemma sort_Strings_Permutation (l : list string) : sort_Strings l ≡ₚ l.
Proof. apply merge_sort_Permutation. Qed.

(** The result of sorting does not depend on the order of the input. *)
Lemma sort_Strings_order (l1 l2 : list string) :
  l1 ≡ₚ l2 -> sort_Strings l1 = sort_Strings l2.
Proof.
  intros H. apply (StronglySorted_unique string_le).
  - apply sort_Strings_sorted.
  - apply sort_Strings_sorted.
  - by rewrite !sort_Strings_Permutation.
Qed.

(** ** Running code that writes to a buffer *)

Lemma scan_MappingCallback (n : nat) (p : list byte)
  (f : SourceMapFilter (list byte)) :
  length p <= n -> MappingCallback (scan p f) = MappingCallback f.
Proof.
  revert p f; induction n as [|n IH]; intros p f Hn.
  - by destruct p; [|simpl in Hn; lia].
  - destruct p as [|b p]; [done|]. simpl in *.
    destruct (decide (b = sentinel)).
    + destruct p as [|c0 [|c1 [|c2 [|c3 p]]]]; try done.
      simpl in *. by rewrite IH by lia.
    + by rewrite IH by lia.
Qed.

Lemma sink_after_nil (buf : list byte) : sink_after buf [] = buf.
Proof. unfold sink_after. simpl. by rewrite app_nil_r. Qed.

Lemma sink_after_app (buf : list byte) (c1 c2 : list (list byte)) :
  sink_after (sink_after buf c1) c2 = sink_after buf (c1 ++ c2).
Proof.
  unfold sink_after. by rewrite fmap_app, concat_app, app_assoc.
Qed.

Lemma writes_ret {A : Type} (cb : bool) (a : A) : writes cb (ret a) [] a.
Proof.
  intros w Hcb Hc _. exists w. rewrite sink_after_nil. by split_and!.
Qed.

Lemma writes_bind {A B : Type} (cb : bool) (m : @M (list byte) A)
  (k : A -> @M (list byte) B) (c1 c2 : list (list byte)) (a : A) (b : B) :
  writes cb m c1 a -> writes cb (k a) c2 b -> writes cb (bind m k) (c1 ++ c2) b.
Proof.
  intros Hm Hk w Hcb Hc Hall. apply Forall_app in Hall as [Hall1 Hall2].
  destruct (Hm w Hcb Hc Hall1) as (w1 & E1 & Hw1 & Hcb1 & Hc1).
  destruct (Hk w1 Hcb1 Hc1 Hall2) as (w2 & E2 & Hw2 & Hcb2 & Hc2).
  exists w2. unfold bind. rewrite E1, E2. split_and!; try done.
  by rewrite Hw2, Hw1, sink_after_app.
Qed.

Lemma writes_w_Write (cb : bool) (p : list byte) :
  writes cb (w_Write Buffer_Write p) [p] tt.
Proof.
  intros w Hcb Hc Hall. rewrite Forall_singleton in Hall.
  exists (scan p w). unfold w_Write. rewrite (Write_scan w p Hall Hc).
  split_and!; [done| | |].
  - unfold sink_after. simpl. rewrite app_nil_r.
    by apply (scan_Writer (length p)).
  - by rewrite (scan_MappingCallback (length p)).
  - by apply (scan_column_wrapped (length p)).
Qed.

Lemma writes_for_range {A : Type} (cb : bool) (l : list A)
  (body : A -> @M (list byte) unit) (plan : A -> list (list byte)) :
  (forall x, x ∈ l -> writes cb (body x) (plan x) tt) ->
  writes cb (for_range l body) (l ≫= plan) tt.
Proof.
  induction l as [|x l IH]; intros Hbody; simpl.
  - apply writes_ret.
  - apply writes_bind with (a := tt).
    + apply Hbody. by left.
    + apply IH. intros y Hy. apply Hbody. by right.
Qed.

Lemma writes_lift {A : Type} (cb : bool) (a : A) :
  writes cb (lift (Returned a)) [] a.
Proof. apply writes_ret. Qed.

(** ** The package emitter *)

Section Emitter.
Variable removeWhitespace : list byte -> bool -> list byte.
Variable FileSet_Read : list byte -> option token_FileSet.

Lemma foldl_snoc_map {A : Type} (f : A -> string) (l : list A)
  (acc : list string) :
  foldl (fun vars x => vars ++ [f x]) acc l = acc ++ (f <$> l).
Proof.
  revert acc; induction l as [|x l IH]; intros acc; simpl.
  - by rewrite app_nil_r.
  - by rewrite IH, <- app_assoc.
Qed.

Lemma foldl_snoc_filter (l : list Decl) (acc : list string) :
  foldl (fun vars d =>
           if decide (length (DceFilters d) = 0 /\ Var d <> EmptyString)
           then vars ++ [Var d] else vars) acc l =
  acc ++ (Var <$> filter (fun d => Var d <> EmptyString)
                    (filter (fun d => DceFilters d = []) l)).
Proof.
  revert acc; induction l as [|d l IH]; intros acc; simpl.
  - by rewrite app_nil_r.
  - rewrite IH. rewrite (filter_cons (fun d => DceFilters d = [])).
    destruct (decide (DceFilters d = [])) as [He|He].
    + rewrite filter_cons. destruct (decide (Var d <> EmptyString)) as [Hv|Hv].
      * rewrite decide_True by (by rewrite He). simpl.
        by rewrite <- app_assoc.
      * rewrite decide_False; [done|]. by intros [_ ?].
    + rewrite decide_False; [done|]. intros [Hl _].
      by apply length_zero_iff_nil in Hl.
Qed.

(** The variable list that the three loops build is the list of entries
    of the specification. *)
Lemma pkg_vars_entries (pkg : Archive) : pkg_vars pkg = var_entries pkg.
Proof.
  unfold pkg_vars, var_entries, live_decls.
  by rewrite foldl_snoc_filter, foldl_snoc_map, <- app_assoc.
Qed.

Lemma writes_live_decls (cb : bool) (code : Decl -> list byte)
  (ds : list Decl) :
  writes cb
    (for_range ds (fun d =>
       if decide (length (DceFilters d) = 0)
       then w_Write Buffer_Write (code d) else ret tt))
    (code <$> filter (fun d => DceFilters d = []) ds) tt.
Proof.
  induction ds as [|d ds IH]; simpl; [apply writes_ret|].
  rewrite filter_cons.
  destruct (decide (DceFilters d = [])) as [He|He].
  - rewrite decide_True by (by rewrite He).
    apply (writes_bind cb _ _ [code d] _ tt); [apply writes_w_Write|done].
  - rewrite decide_False by (by intros ?%length_zero_iff_nil).
    apply (writes_bind cb _ _ [] _ tt); [apply writes_ret|done].
Qed.

Lemma writes_load_fileSet (cb : bool) (pkg : Archive) :
  fileSets_ok FileSet_Read cb [pkg] ->
  writes cb (load_fileSet FileSet_Read pkg) [] tt.
Proof.
  intros Hok w Hcb Hc _. unfold load_fileSet. rewrite sink_after_nil.
  destruct (MappingCallback w) eqn:Ecb;
    [|exists w; rewrite ?Ecb; by split_and!].
  destruct (FileSet pkg) as [data|] eqn:Efs;
    [|exists w; rewrite ?Ecb; by split_and!].
  destruct (Hok (eq_sym Hcb) pkg data) as [fs Hfs]; [by left|done|].
  unfold bind, set_fileSet. simpl. rewrite Hfs. simpl.
  eexists. split; [done|]. simpl. rewrite ?Ecb. by split_and!.
Qed.

Lemma writes_WritePkgCode (cb : bool) (pkg : Archive) (minify : bool) :
  fileSets_ok FileSet_Read cb [pkg] ->
  writes cb (WritePkgCode Buffer_Write removeWhitespace FileSet_Read pkg minify)
    (pkg_plan removeWhitespace pkg minify) tt.
Proof.
  intros Hok. unfold WritePkgCode, pkg_plan.
  apply (writes_bind cb _ _ [] _ tt); [by apply writes_load_fileSet|].
  apply (writes_bind cb _ _ [_] _ tt); [apply writes_w_Write|].
  rewrite pkg_vars_entries.
  apply (writes_bind cb _ _ [_] _ tt).
  { rewrite decide_True by (unfold var_entries; simpl; lia).
    apply writes_w_Write. }
  apply (writes_bind cb _ _ _ _ tt); [apply writes_live_decls|].
  apply (writes_bind cb _ _ [_] _ tt); [apply writes_w_Write|].
  apply (writes_bind cb _ _ _ _ tt); [apply writes_live_decls|].
  apply (writes_bind cb _ _ [_] _ tt); [apply writes_w_Write|].
  apply writes_w_Write.
Qed.

End Emitter.

(** ** The interface tables *)

Section Tables.
Variable removeWhitespace : list byte -> bool -> list byte.
Variable AssignableTo : GoType -> Interface -> bool.
Variable range_keys : gmap string bool -> list string.

(** [range] walks the keys of a map in an order of its own choosing. *)
Hypothesis range_keys_perm :
  forall m : gmap string bool, range_keys m ≡ₚ (map_to_list m).*1.

Lemma Pkg_Path_Some (t : TypeName) :
  is_Some (Pkg t) -> Pkg_Path t = Returned (default EmptyString (Pkg t)).
Proof. intros [p Hp]. unfold Pkg_Path. by rewrite Hp. Qed.

Lemma add_implementor_spec (i : Interface) (other : TypeName)
  (m : gmap string bool) :
  is_interface other = true \/ is_Some (Pkg other) ->
  exists m',
    add_implementor AssignableTo i other m = Returned m' /\
    forall x, x ∈ dom m' <->
              x ∈ dom m \/ x ∈ implementor_refs AssignableTo i other.
Proof.
  intros Hok. unfold add_implementor, implementor_refs, is_interface in *.
  unfold pointer_ref, value_ref.
  destruct (underlying other) as [i'| |] eqn:Eu.
  - exists m. split; [done|]. intros x. rewrite elem_of_nil. tauto.
  - destruct Hok as [?|Hp]; [done|]. rewrite (Pkg_Path_Some _ Hp).
    destruct (AssignableTo (TNamed other) i),
             (AssignableTo (TPointer (TNamed other)) i); simpl;
      eexists; (split; [done|]); intros x;
      rewrite ?dom_insert, ?elem_of_union, ?elem_of_singleton,
              ?elem_of_cons, ?elem_of_nil; tauto.
  - destruct Hok as [?|Hp]; [done|]. rewrite (Pkg_Path_Some _ Hp).
    destruct (AssignableTo (TNamed other) i),
             (AssignableTo (TPointer (TNamed other)) i); simpl;
      eexists; (split; [done|]); intros x;
      rewrite ?dom_insert, ?elem_of_union, ?elem_of_singleton,
              ?elem_of_cons, ?elem_of_nil; tauto.
Qed.

Lemma implementors_spec (i : Interface) (others : list TypeName)
  (m : gmap string bool) :
  Forall (fun other => is_interface other = true \/ is_Some (Pkg other))
    others ->
  exists m',
    implementors AssignableTo i others m = Returned m' /\
    forall x, x ∈ dom m' <->
              x ∈ dom m \/ x ∈ others ≫= implementor_refs AssignableTo i.
Proof.
  revert m. induction others as [|other others IH]; intros m Hok; simpl.
  - exists m. split; [done|]. intros x. rewrite elem_of_nil. tauto.
  - apply Forall_cons in Hok as [Ho Hok].
    destruct (add_implementor_spec i other m Ho) as (m1 & -> & H1).
    simpl. destruct (IH m1 Hok) as (m2 & -> & H2).
    exists m2. split; [done|]. intros x.
    rewrite H2, H1, elem_of_app. tauto.
Qed.

(** The list the code sorts is the sorted set of the specification,
    whatever the order [range] produced. *)
Lemma implemented_list (i : Interface) (all : list TypeName)
  (m : gmap string bool) :
  (forall x, x ∈ dom m <-> x ∈ all ≫= implementor_refs AssignableTo i) ->
  sort_Strings (range_keys m) = implementedBy_list AssignableTo i all.
Proof.
  intros Hdom. unfold implementedBy_list. apply sort_Strings_order.
  rewrite range_keys_perm. apply NoDup_Permutation.
  - apply NoDup_fst_map_to_list.
  - apply NoDup_remove_dups.
  - intros x. rewrite elem_of_remove_dups, <- Hdom, elem_of_dom.
    rewrite list_elem_of_fmap. split.
    + intros ([k v] & -> & Hin). apply elem_of_map_to_list in Hin.
      by exists v.
    + intros [v Hv]. exists (x, v). split; [done|].
      by apply elem_of_map_to_list.
Qed.

Lemma omap_bind_option_list {A B : Type} (f : A -> option B) (l : list A) :
  omap f l = l ≫= (fun x => option_list (f x)).
Proof.
  induction l as [|x l IH]; [done|].
  change (omap f (x :: l))
    with (match f x with Some y => y :: omap f l | None => omap f l end).
  change ((x :: l) ≫= (fun x => option_list (f x)))
    with (option_list (f x) ++ (l ≫= (fun x => option_list (f x)))).
  rewrite IH. by destruct (f x).
Qed.

Lemma target_name_spec (t : TypeName) :
  t = universe_error \/ is_Some (Pkg t) ->
  table_target t = Returned (target_name t).
Proof.
  intros Hok. unfold table_target, target_name.
  destruct (decide (Name t = "error")); [done|].
  destruct Hok as [->|Hp]; [done|]. by rewrite (Pkg_Path_Some _ Hp).
Qed.

Lemma candidate_ok (t : TypeName) :
  t = universe_error \/ is_Some (Pkg t) ->
  is_interface t = true \/ is_Some (Pkg t).
Proof. intros [->|?]; [by left|by right]. Qed.

Lemma writes_write_table (cb : bool) (all : list TypeName) (minify : bool)
  (t : TypeName) :
  Forall (fun t => t = universe_error \/ is_Some (Pkg t)) all ->
  t = universe_error \/ is_Some (Pkg t) ->
  writes cb
    (write_table Buffer_Write removeWhitespace AssignableTo range_keys
       all minify t)
    (option_list (table_line removeWhitespace AssignableTo all minify t
                    <$> qualifies t)) tt.
Proof.
  intros Hall Ht. unfold write_table, qualifies.
  destruct (underlying t) as [i| |]; [|apply writes_ret..].
  destruct (Empty i); [apply writes_ret|]. simpl.
  destruct (implementors_spec i all ∅) as (m & Hm & Hdom).
  { eapply Forall_impl; [exact Hall|]. intros x. apply candidate_ok. }
  rewrite Hm. apply (writes_bind cb _ _ [] _ m); [apply writes_lift|].
  rewrite (target_name_spec t Ht).
  apply (writes_bind cb _ _ [] _ (target_name t)); [apply writes_lift|].
  rewrite (implemented_list i all m).
  - apply writes_w_Write.
  - intros x. rewrite Hdom, dom_empty, elem_of_empty. tauto.
Qed.

Lemma writes_tables (cb : bool) (all : list TypeName) (minify : bool) :
  Forall (fun t => t = universe_error \/ is_Some (Pkg t)) all ->
  writes cb
    (for_range all
       (write_table Buffer_Write removeWhitespace AssignableTo range_keys
          all minify))
    (table_plan removeWhitespace AssignableTo all minify) tt.
Proof.
  intros Hall. unfold table_plan. rewrite omap_bind_option_list.
  apply writes_for_range. intros t Ht.
  apply writes_write_table; [done|].
  by apply (proj1 (Forall_forall _ _) Hall).
Qed.

(** *** The candidate type names *)

Lemma scope_type_names_spec (path : PkgPath) (scope : gmap string Object)
  (index : gmap string (list DeclPtr)) (acc : list TypeName) :
  scope_type_names path scope index acc =
    acc ++ used_type_names path scope index.
Proof.
  unfold scope_type_names, used_type_names.
  generalize (Scope_Names scope). intros names. revert acc.
  induction names as [|name names IH]; intros acc; simpl.
  - by rewrite app_nil_r.
  - rewrite IH. destruct (scope !! name) as [[tn|]|]; try done.
    destruct (index !! object_key path name); [done|].
    by rewrite <- app_assoc.
Qed.

Lemma collect_type_names_spec (t : Compiler) (pkgs : list Archive)
  (index : gmap string (list DeclPtr)) (acc : list TypeName) :
  (forall pkg, pkg ∈ pkgs -> is_Some (typesPackages t !! ImportPath pkg)) ->
  collect_type_names t pkgs index acc =
    Returned (acc ++ (pkgs ≫= fun pkg =>
      match typesPackages t !! ImportPath pkg with
      | Some tp => used_type_names (ImportPath pkg) (Scope tp) index
      | None => []
      end)).
Proof.
  revert acc. induction pkgs as [|pkg pkgs IH]; intros acc Hreg; simpl.
  - by rewrite app_nil_r.
  - destruct (Hreg pkg) as [tp Htp]; [by left|]. rewrite Htp.
    rewrite IH by (intros p Hp; apply Hreg; by right).
    by rewrite scope_type_names_spec, <- app_assoc.
Qed.

Lemma candidates_ok (t : Compiler) (pkgs : list Archive)
  (index : gmap string (list DeclPtr)) :
  scopes_ok t ->
  Forall (fun tn => tn = universe_error \/ is_Some (Pkg tn))
    (candidates t pkgs index).
Proof.
  intros Hok. unfold candidates. apply Forall_cons. split; [by left|].
  apply Forall_forall. intros tn Hin.
  apply list_elem_of_bind in Hin as (pkg & Hin & _).
  destruct (typesPackages t !! ImportPath pkg) as [tp|] eqn:Htp;
    [|by apply elem_of_nil in Hin].
  unfold used_type_names in Hin.
  apply list_elem_of_omap in Hin as (name & _ & Hn).
  destruct (Scope tp !! name) as [[tn'|]|] eqn:Hs; try done.
  destruct (index !! object_key (ImportPath pkg) name); [done|].
  injection Hn as ->. right. by eapply Hok.
Qed.

Lemma elem_of_implementor_refs (i : Interface) (other : TypeName) (x : string) :
  x ∈ implementor_refs AssignableTo i other <->
  is_interface other = false /\
  ((AssignableTo (TNamed other) i = true /\ x = value_ref other) \/
   (AssignableTo (TPointer (TNamed other)) i = true /\ x = pointer_ref other)).
Proof.
  unfold implementor_refs. destruct (is_interface other).
  - rewrite elem_of_nil. split; [done|]. by intros [? _].
  - destruct (AssignableTo (TNamed other) i),
             (AssignableTo (TPointer (TNamed other)) i); simpl;
      rewrite ?elem_of_cons, ?elem_of_nil; intuition congruence.
Qed.

(** C4.  For a candidate [t] whose underlying type is an interface [i]
    with a method, the code writes one statement,
    [target.implementedBy = [list];], where [list], joined by commas, is
    the emitted list of implementors: it holds each reference at most
    once, it is sorted in the byte-wise lexicographic order, and it holds
    exactly, for every candidate whose underlying type is not an
    interface, its value-form reference when the type is assignable to
    [i] and its pointer-form reference when a pointer to it is.  No
    reference to a type whose underlying type is an interface is in it,
    whatever [AssignableTo] says of that type.  The order in which [range]
    walks the map of implementors does not show.  Over a buffer, when the
    statement carries complete cookies, the call returns and the
    statement, its cookies stripped, is what the buffer gains. *)
Theorem implementedBy_sorted_set (all : list TypeName) (minify : bool)
  (t : TypeName) (i : Interface) (w : SourceMapFilter (list byte)) :
  Forall (fun t => t = universe_error \/ is_Some (Pkg t)) all ->
  t = universe_error \/ is_Some (Pkg t) ->
  underlying t = UInterface i -> Empty i = false ->
  exists list target,
    table_target t = Returned target /\
    let line :=
      removeWhitespace
        (bytes (target +:+ ".implementedBy = [" +:+ Join list ", "
                +:+ "];" +:+ nl)) minify in
    write_table Buffer_Write removeWhitespace AssignableTo range_keys
      all minify t w = w_Write Buffer_Write line w /\
    (complete_cookies line = true -> int_wrap (column w) = column w ->
     exists w',
       write_table Buffer_Write removeWhitespace AssignableTo range_keys
         all minify t w = (w', Returned tt) /\
       Writer w' = Writer w ++ strip line) /\
    NoDup list /\
    StronglySorted string_le list /\
    forall x,
      x ∈ list <->
      exists other,
        other ∈ all /\ is_interface other = false /\
        ((AssignableTo (TNamed other) i = true /\ x = value_ref other) \/
         (AssignableTo (TPointer (TNamed other)) i = true /\
          x = pointer_ref other)).
Proof.
  intros Hall Ht Hu He.
  destruct (implementors_spec i all ∅) as (m & Hm & Hdom).
  { eapply Forall_impl; [exact Hall|]. intros x. apply candidate_ok. }
  assert (sort_Strings (range_keys m) = implementedBy_list AssignableTo i all)
    as Hlist.
  { apply implemented_list. intros x.
    rewrite Hdom, dom_empty, elem_of_empty. tauto. }
  exists (sort_Strings (range_keys m)), (target_name t).
  split; [by apply target_name_spec|]. cbv zeta.
  set (line := removeWhitespace _ minify).
  assert (write_table Buffer_Write removeWhitespace AssignableTo range_keys
            all minify t w = w_Write Buffer_Write line w) as Hrun.
  { unfold write_table. rewrite Hu, He. unfold bind at 1, lift at 1.
    rewrite Hm. unfold bind, lift. by rewrite (target_name_spec t Ht). }
  split_and!; [done| | |apply sort_Strings_sorted|].
  - intros Hc Hcol. rewrite Hrun.
    destruct (writes_w_Write (MappingCallback w) line w eq_refl Hcol)
      as (w' & Hw' & Hbuf & _); [by repeat constructor|].
    exists w'. split; [done|]. rewrite Hbuf. unfold sink_after. simpl.
    by rewrite app_nil_r.
  - rewrite Hlist. unfold implementedBy_list.
    rewrite sort_Strings_Permutation. apply NoDup_remove_dups.
  - intros x. rewrite Hlist. unfold implementedBy_list.
    rewrite sort_Strings_Permutation, elem_of_remove_dups, list_elem_of_bind.
    split.
    + intros (other & Hx & Hin). apply elem_of_implementor_refs in Hx.
      by exists other.
    + intros (other & Hin & Hx). exists other. split; [|done].
      by apply elem_of_implementor_refs.
Qed.

(** *** The candidates, by what the scopes and the DCE hold *)

Lemma elem_of_Scope_Names (scope : gmap string Object) (name : string) :
  name ∈ Scope_Names scope <-> is_Some (scope !! name).
Proof.
  unfold Scope_Names.
  by rewrite sort_Strings_Permutation, elem_of_elements, elem_of_dom.
Qed.

Lemma elem_of_used_type_names (path : PkgPath) (scope : gmap string Object)
  (index : gmap string (list DeclPtr)) (tn : TypeName) :
  tn ∈ used_type_names path scope index <->
  exists name, scope !! name = Some (ObjTypeName tn) /\
               index !! object_key path name = None.
Proof.
  unfold used_type_names. rewrite list_elem_of_omap. split.
  - intros (name & _ & H). exists name.
    destruct (scope !! name) as [[tn'|]|]; try done.
    destruct (index !! object_key path name); [done|].
    by injection H as ->.
  - intros (name & Hs & Hi). exists name. split.
    + apply elem_of_Scope_Names. by eexists.
    + by rewrite Hs, Hi.
Qed.

Lemma elem_of_declared (t : Compiler) (pkgs : list Archive)
  (index : gmap string (list DeclPtr)) (tn : TypeName) :
  tn ∈ (pkgs ≫= fun pkg =>
          match typesPackages t !! ImportPath pkg with
          | Some tp => used_type_names (ImportPath pkg) (Scope tp) index
          | None => []
          end) <->
  exists path tp name,
    path ∈ ImportPath <$> pkgs /\ typesPackages t !! path = Some tp /\
    Scope tp !! name = Some (ObjTypeName tn) /\
    index !! object_key path name = None.
Proof.
  rewrite list_elem_of_bind. split.
  - intros (pkg & Htn & Hpkg).
    destruct (typesPackages t !! ImportPath pkg) as [tp|] eqn:Htp;
      [|by apply not_elem_of_nil in Htn].
    apply elem_of_used_type_names in Htn as (name & Hs & Hi).
    exists (ImportPath pkg), tp, name. split_and!; [|done..].
    apply list_elem_of_fmap. by exists pkg.
  - intros (path & tp & name & Hpath & Htp & Hs & Hi).
    apply list_elem_of_fmap in Hpath as (pkg & -> & Hpkg).
    exists pkg. split; [|done]. rewrite Htp.
    apply elem_of_used_type_names. by exists name.
Qed.

(** The tables, candidate by candidate. *)
Lemma table_plan_bind (all : list TypeName) (minify : bool)
  (l : list TypeName) :
  omap (fun t => table_line removeWhitespace AssignableTo all minify t
                   <$> qualifies t) l =
  l ≫= fun tn =>
    match underlying tn with
    | UInterface i =>
        if bool_decide (methods i = []) then []
        else [removeWhitespace
                (bytes ((if decide (Name tn = "error") then "$error"
                         else packages_ref (default EmptyString (Pkg tn))
                                (Name tn))
                        +:+ ".implementedBy = ["
                        +:+ Join (implementedBy_list AssignableTo i all) ", "
                        +:+ "];" +:+ nl)) minify]
    | _ => []
    end.
Proof.
  rewrite omap_bind_option_list.
  induction l as [|tn l IH]; [done|].
  change ((tn :: l) ≫= ?f) with (f tn ++ (l ≫= f)). rewrite IH. f_equal.
  unfold qualifies, table_line, target_name, value_ref, Empty.
  destruct (underlying tn) as [i| |]; [|done..].
  destruct (bool_decide (methods i = [])); [done|]. simpl.
  by destruct (decide (Name tn = "error")).
Qed.
End Tables.

(** ** The whole program *)

Lemma same_shape_elem (pkgs0 pkgs : list Archive) (a : Archive) :
  same_shape pkgs0 pkgs -> a ∈ pkgs ->
  exists a0, a0 ∈ pkgs0 /\ same_archive a0 a.
Proof.
  intros Hs Ha. apply list_elem_of_lookup in Ha as [i Hi].
  destruct (Forall2_lookup_r _ _ _ _ _ Hs Hi) as (a0 & Hi0 & Hsa).
  exists a0. split; [|done]. by eapply list_elem_of_lookup_2.
Qed.

Lemma same_shape_init_calls (pkgs0 pkgs : list Archive) :
  same_shape pkgs0 pkgs -> init_call <$> pkgs = init_call <$> pkgs0.
Proof.
  induction 1 as [|a0 a l0 l Ha _ IH]; [done|].
  rewrite !fmap_cons, IH. f_equal. unfold init_call.
  by destruct Ha as (-> & _).
Qed.

Lemma bind_singleton_fmap {A B : Type} (f : A -> B) (l : list A) :
  l ≫= (fun x => [f x]) = f <$> l.
Proof.
  induction l as [|x l IH]; [done|].
  change ((x :: l) ≫= (fun x => [f x])) with ([f x] ++ (l ≫= (fun x => [f x]))).
  by rewrite IH.
Qed.

Section Program.
Variable removeWhitespace : list byte -> bool -> list byte.
Variable prelude : string.
Variable TrimSpace : string -> string.
Variable FileSet_Read : list byte -> option token_FileSet.
Variable AssignableTo : GoType -> Interface -> bool.
Variable range_keys : gmap string bool -> list string.

Hypothesis range_keys_perm :
  forall m : gmap string bool, range_keys m ≡ₚ (map_to_list m).*1.

Lemma writes_WriteProgramCode (cb : bool) (t : Compiler)
  (pkgs : list Archive) (mainPkgPath : string) (minify : bool)
  (st : dce_state) :
  dce pkgs = Returned st ->
  (forall pkg, pkg ∈ st_pkgs st ->
     is_Some (typesPackages t !! ImportPath pkg)) ->
  scopes_ok t ->
  fileSets_ok FileSet_Read cb (st_pkgs st) ->
  writes cb
    (WriteProgramCode Buffer_Write removeWhitespace prelude TrimSpace
       FileSet_Read AssignableTo range_keys t pkgs mainPkgPath minify)
    (program_plan removeWhitespace prelude TrimSpace AssignableTo t
       (st_pkgs st) (declsByObject st) mainPkgPath minify)
    (st_pkgs st).
Proof.
  intros Hdce Hreg Hok Hfs. unfold WriteProgramCode, program_plan.
  rewrite Hdce.
  apply (writes_bind cb _ _ [] _ st); [apply writes_lift|].
  apply (writes_bind cb _ _ [_] _ tt); [apply writes_w_Write|].
  apply (writes_bind cb _ _ [_] _ tt); [apply writes_w_Write|].
  apply (writes_bind cb _ _ [_] _ tt); [apply writes_w_Write|].
  apply (writes_bind cb _ _
           (st_pkgs st ≫= fun pkg => pkg_plan removeWhitespace pkg minify)
           _ tt).
  { apply (writes_for_range cb _ _
             (fun pkg => pkg_plan removeWhitespace pkg minify)).
    intros pkg Hpkg. apply writes_WritePkgCode.
    intros Hcb p data Hp Hd. apply list_elem_of_singleton in Hp. subst p.
    by eapply Hfs. }
  rewrite (collect_type_names_spec t (st_pkgs st) _ [universe_error] Hreg).
  apply (writes_bind cb _ _ [] _ (candidates t (st_pkgs st) (declsByObject st)));
    [apply writes_lift|].
  apply (writes_bind cb _ _
           (table_plan removeWhitespace AssignableTo
              (candidates t (st_pkgs st) (declsByObject st)) minify)
           ((init_call <$> st_pkgs st) ++ [entry_call mainPkgPath]) tt).
  { apply writes_tables; [done|]. by apply candidates_ok. }
  apply (writes_bind cb _ _ (init_call <$> st_pkgs st)
           [entry_call mainPkgPath] tt).
  { rewrite <- bind_singleton_fmap.
    apply (writes_for_range cb _ _ (fun pkg => [init_call pkg])).
    intros pkg _. apply writes_w_Write. }
  apply (writes_bind cb _ _ [entry_call mainPkgPath] [] tt);
    [apply writes_w_Write|].
  apply writes_ret.
Qed.

(** C6, as the code has it.  [WriteProgramCode], writing to a buffer,
    runs the DCE and then appends, in this order and nothing else: the
    opening boilerplate and the prelude; the block of each package, in the
    order of the archives; the interface tables; one init call per
    package, in the same order; and the call of the entry package's
    [main] with a no-op continuation, followed by the closing boilerplate.
    The tables always include that of the built-in [error], the first of
    the candidates whatever the packages declare, so even the program of one
    package with one declaration holds, between its package block and its
    init call, the statement [$error.implementedBy = [...]]. *)
Theorem WriteProgramCode_output (t : Compiler) (pkgs : list Archive)
  (mainPkgPath : string) (minify : bool) (w : SourceMapFilter (list byte)) :
  (forall pkg, pkg ∈ pkgs -> is_Some (typesPackages t !! ImportPath pkg)) ->
  scopes_ok t ->
  fileSets_ok FileSet_Read (MappingCallback w) pkgs ->
  int_wrap (column w) = column w ->
  exists st,
    dce pkgs = Returned st /\ same_shape pkgs (st_pkgs st) /\
    (Forall (fun p => complete_cookies p = true)
       (program_plan removeWhitespace prelude TrimSpace AssignableTo t
          (st_pkgs st) (declsByObject st) mainPkgPath minify) ->
     exists w',
       WriteProgramCode Buffer_Write removeWhitespace prelude TrimSpace
         FileSet_Read AssignableTo range_keys t pkgs mainPkgPath minify w =
         (w', Returned (st_pkgs st)) /\
       Writer w' =
         Writer w ++
         strip program_header ++
         strip (removeWhitespace (bytes (TrimSpace prelude)) minify) ++
         strip (bytes nl) ++
         concat (strip <$>
           (st_pkgs st ≫= fun pkg => pkg_plan removeWhitespace pkg minify)) ++
         concat (strip <$>
           table_plan removeWhitespace AssignableTo
             (candidates t (st_pkgs st) (declsByObject st)) minify) ++
         concat (strip <$> (init_call <$> pkgs)) ++
         strip (entry_call mainPkgPath)).
Proof.
  intros Hreg Hok Hfs Hc.
  destruct (dce_run pkgs) as (st & P & Hdce & Hinv & _).
  pose proof (inv_shape _ _ _ _ _ Hinv) as Hs.
  exists st. split_and!; [done..|]. intros Hall.
  destruct (writes_WriteProgramCode (MappingCallback w) t pkgs mainPkgPath
              minify st Hdce) with (w := w) as (w' & Hrun & Hw & _);
    try done.
  - intros pkg Hpkg. destruct (same_shape_elem _ _ _ Hs Hpkg) as (a0 & Ha0 & Hsa).
    destruct Hsa as (-> & _). by apply Hreg.
  - intros Hcb pkg data Hpkg Hd.
    destruct (same_shape_elem _ _ _ Hs Hpkg) as (a0 & Ha0 & Hsa).
    destruct Hsa as (_ & _ & _ & _ & _ & Hf & _). rewrite Hf in Hd.
    by eapply Hfs.
  - exists w'. split; [done|]. rewrite Hw.
    unfold sink_after, program_plan. f_equal.
    rewrite !fmap_app, !concat_app. simpl. rewrite !app_nil_r.
    rewrite (same_shape_init_calls _ _ Hs).
    by rewrite <- !app_assoc.
Qed.

Lemma same_shape_paths (pkgs0 pkgs : list Archive) :
  same_shape pkgs0 pkgs -> ImportPath <$> pkgs = ImportPath <$> pkgs0.
Proof.
  induction 1 as [|a0 a l0 l Ha _ IH]; [done|].
  rewrite !fmap_cons, IH. f_equal. by destruct Ha as (-> & _).
Qed.

(** C5.  In the output of [WriteProgramCode], between the blocks of the
    packages and the init calls, stand the dispatch tables and nothing
    else: first that of the built-in [error], which is a candidate
    whatever the packages declare, under the reserved name [$error];
    then, for every type name of the scopes of the program's packages
    that the DCE left in use, in the order in which the code collected
    them, one statement when its underlying type is an interface with at
    least one method, under [$packages[...]] (or [$error], should it be
    called [error]), and nothing when its underlying type is an interface
    without methods or no interface at all. *)
Theorem tables_for_interfaces_with_methods (t : Compiler)
  (pkgs : list Archive) (mainPkgPath : string) (minify : bool)
  (w : SourceMapFilter (list byte)) :
  (forall pkg, pkg ∈ pkgs -> is_Some (typesPackages t !! ImportPath pkg)) ->
  scopes_ok t ->
  fileSets_ok FileSet_Read (MappingCallback w) pkgs ->
  int_wrap (column w) = column w ->
  exists st declared,
    dce pkgs = Returned st /\
    collect_type_names t (st_pkgs st) (declsByObject st) [universe_error] =
      Returned (universe_error :: declared) /\
    (forall tn, tn ∈ declared <->
       exists path tp name,
         path ∈ ImportPath <$> pkgs /\ typesPackages t !! path = Some tp /\
         Scope tp !! name = Some (ObjTypeName tn) /\
         declsByObject st !! object_key path name = None) /\
    let all := universe_error :: declared in
    let implementedBy := fun (target : string) (i : Interface) =>
      removeWhitespace
        (bytes (target +:+ ".implementedBy = ["
                +:+ Join (implementedBy_list AssignableTo i all) ", "
                +:+ "];" +:+ nl)) minify in
    let table := fun tn : TypeName =>
      match underlying tn with
      | UInterface i =>
          if bool_decide (methods i = []) then []
          else [implementedBy
                  (if decide (Name tn = "error") then "$error"
                   else packages_ref (default EmptyString (Pkg tn)) (Name tn))
                  i]
      | _ => []
      end in
    (Forall (fun p => complete_cookies p = true)
       (program_plan removeWhitespace prelude TrimSpace AssignableTo t
          (st_pkgs st) (declsByObject st) mainPkgPath minify) ->
     exists w',
       WriteProgramCode Buffer_Write removeWhitespace prelude TrimSpace
         FileSet_Read AssignableTo range_keys t pkgs mainPkgPath minify w =
         (w', Returned (st_pkgs st)) /\
       Writer w' =
         Writer w ++
         strip program_header ++
         strip (removeWhitespace (bytes (TrimSpace prelude)) minify) ++
         strip (bytes nl) ++
         concat (strip <$>
           (st_pkgs st ≫= fun pkg => pkg_plan removeWhitespace pkg minify)) ++
         strip (implementedBy "$error" {| methods := ["Error"] |}) ++
         concat (strip <$> (declared ≫= table)) ++
         concat (strip <$> (init_call <$> pkgs)) ++
         strip (entry_call mainPkgPath)).
Proof.
  intros Hreg Hok Hfs Hc.
  destruct (dce_run pkgs) as (st & P & Hdce & Hinv & _).
  pose proof (inv_shape _ _ _ _ _ Hinv) as Hs.
  assert (forall pkg, pkg ∈ st_pkgs st ->
            is_Some (typesPackages t !! ImportPath pkg)) as Hreg'.
  { intros pkg Hpkg.
    destruct (same_shape_elem _ _ _ Hs Hpkg) as (a0 & Ha0 & Hsa).
    destruct Hsa as (-> & _). by apply Hreg. }
  set (declared := st_pkgs st ≫= fun pkg =>
         match typesPackages t !! ImportPath pkg with
         | Some tp =>
             used_type_names (ImportPath pkg) (Scope tp) (declsByObject st)
         | None => []
         end).
  exists st, declared. split_and!; [done| | |].
  - by rewrite (collect_type_names_spec t (st_pkgs st) _ [universe_error] Hreg').
  - intros tn. unfold declared. rewrite elem_of_declared.
    by rewrite (same_shape_paths _ _ Hs).
  - cbv zeta. intros Hall.
    destruct (writes_WriteProgramCode (MappingCallback w) t pkgs mainPkgPath
                minify st Hdce) with (w := w) as (w' & Hrun & Hw & _);
      try done.
    + intros Hcb pkg data Hpkg Hd.
      destruct (same_shape_elem _ _ _ Hs Hpkg) as (a0 & Ha0 & Hsa).
      destruct Hsa as (_ & _ & _ & _ & _ & Hf & _). rewrite Hf in Hd.
      by eapply Hfs.
    + exists w'. split; [done|]. rewrite Hw.
      unfold sink_after, program_plan, table_plan, candidates.
      fold declared. f_equal.
      rewrite (table_plan_bind removeWhitespace AssignableTo).
      change ((universe_error :: declared) ≫= ?f)
        with (f universe_error ++ (declared ≫= f)).
      rewrite !fmap_app, !concat_app. simpl. rewrite !app_nil_r.
      rewrite (same_shape_init_calls _ _ Hs).
      by rewrite <- !app_assoc.
Qed.
End Program.

(** ** The order of [range] over a map does not show in the output *)

Section RangeOrder.
Context {W : Type}.
Variable WriterWrite : W -> list byte -> W * (Z * option error).
Variable removeWhitespace : list byte -> bool -> list byte.
Variable prelude : string.
Variable TrimSpace : string -> string.
Variable FileSet_Read : list byte -> option token_FileSet.
Variable AssignableTo : GoType -> Interface -> bool.
Variables range1 range2 : gmap string bool -> list string.

Hypothesis range1_perm :
  forall m : gmap string bool, range1 m ≡ₚ (map_to_list m).*1.
Hypothesis range2_perm :
  forall m : gmap string bool, range2 m ≡ₚ (map_to_list m).*1.

Lemma bind_ext {A B : Type} (m1 m2 : @M W A) (k1 k2 : A -> @M W B)
  (w : SourceMapFilter W) :
  (forall w, m1 w = m2 w) -> (forall a w, k1 a w = k2 a w) ->
  bind m1 k1 w = bind m2 k2 w.
Proof.
  intros Hm Hk. unfold bind. rewrite Hm.
  destruct (m2 w) as [w' [a| |]]; [apply Hk|done|done].
Qed.

Lemma for_range_ext {A : Type} (l : list A) (b1 b2 : A -> @M W unit)
  (w : SourceMapFilter W) :
  (forall x w, b1 x w = b2 x w) -> for_range l b1 w = for_range l b2 w.
Proof.
  intros Hb. revert w. induction l as [|x l IH]; intros w; simpl; [done|].
  apply bind_ext; [apply Hb|]. intros _ w'. apply IH.
Qed.

Lemma write_table_order (all : list TypeName) (minify : bool) (t : TypeName)
  (w : SourceMapFilter W) :
  write_table WriterWrite removeWhitespace AssignableTo range1 all minify t w =
  write_table WriterWrite removeWhitespace AssignableTo range2 all minify t w.
Proof.
  unfold write_table. destruct (underlying t) as [i| |]; try done.
  destruct (Empty i); [done|].
  apply bind_ext; [done|]. intros m w'.
  rewrite (sort_Strings_order (range1 m) (range2 m)); [done|].
  by rewrite range1_perm, range2_perm.
Qed.

Lemma WriteProgramCode_order (t : Compiler) (pkgs : list Archive)
  (mainPkgPath : string) (minify : bool) (w : SourceMapFilter W) :
  WriteProgramCode WriterWrite removeWhitespace prelude TrimSpace
    FileSet_Read AssignableTo range1 t pkgs mainPkgPath minify w =
  WriteProgramCode WriterWrite removeWhitespace prelude TrimSpace
    FileSet_Read AssignableTo range2 t pkgs mainPkgPath minify w.
Proof.
  unfold WriteProgramCode.
  apply bind_ext; [done|]. intros st w1.
  apply bind_ext; [done|]. intros _ w2.
  apply bind_ext; [done|]. intros _ w3.
  apply bind_ext; [done|]. intros _ w4.
  apply bind_ext; [done|]. intros _ w5.
  apply bind_ext; [done|]. intros all w6.
  apply bind_ext; [|done]. intros w7.
  apply for_range_ext. intros x w8. apply write_table_order.
Qed.

(** C8.  The linker is a function of its input up to one choice, the
    order in which [range] walks the map of implementors, and that choice
    does not show: for any two such orders the run of [WriteProgramCode]
    ends in the same state of the filter and of the sink, byte for byte,
    interface tables included, with the same archives.  And the live set
    depends on the Filters/Deps relation alone: two programs with the same
    packages and declarations whose filter and dependency lists hold the
    same symbols, in any order (which changes the order in which the
    worklist is filled and emptied), have the same live declarations after
    the DCE. *)
Theorem linker_deterministic (t : Compiler) (pkgs pkgs' : list Archive)
  (mainPkgPath : string) (minify : bool) (w : SourceMapFilter W) :
  well_formed pkgs = true -> well_formed pkgs' = true ->
  same_relation pkgs pkgs' ->
  WriteProgramCode WriterWrite removeWhitespace prelude TrimSpace
    FileSet_Read AssignableTo range1 t pkgs mainPkgPath minify w =
  WriteProgramCode WriterWrite removeWhitespace prelude TrimSpace
    FileSet_Read AssignableTo range2 t pkgs mainPkgPath minify w /\
  exists st st',
    dce pkgs = Returned st /\ dce pkgs' = Returned st' /\
    forall d, emptied (st_pkgs st) d <-> emptied (st_pkgs st') d.
Proof.
  intros Hwf Hwf' Hrel. split.
  - apply WriteProgramCode_order.
  - by apply dce_same_relation.
Qed.
End RangeOrder.

(** ** The theorems at work on the examples *)

Lemma map_order_perm (m : gmap string bool) :
  map_order m ≡ₚ (map_to_list m).*1.
Proof. done. Qed.

Lemma reverse_map_order_perm (m : gmap string bool) :
  reverse_map_order m ≡ₚ (map_to_list m).*1.
Proof. apply reverse_Permutation. Qed.

Lemma hello_registered (pkg : Archive) :
  pkg ∈ hello_program ->
  is_Some (typesPackages hello_compiler !! ImportPath pkg).
Proof.
  intros Hin. apply list_elem_of_singleton in Hin. subst pkg. by eexists.
Qed.

Lemma hello_scopes_ok : scopes_ok hello_compiler.
Proof.
  intros path tp name tn Htp Hs. simpl in Htp.
  apply lookup_singleton_Some in Htp as [_ <-]. simpl in Hs.
  by rewrite lookup_empty in Hs.
Qed.

Lemma hello_fileSets_ok (cb : bool) : fileSets_ok no_FileSet cb hello_program.
Proof.
  intros _ pkg data Hin Hd. apply list_elem_of_singleton in Hin. by subst pkg.
Qed.

Lemma repeated_types_ok :
  Forall (fun t => t = universe_error \/ is_Some (Pkg t)) repeated_types.
Proof. repeat constructor; by eexists. Qed.

Lemma example_registered (pkg : Archive) :
  pkg ∈ example_program ->
  is_Some (typesPackages example_compiler !! ImportPath pkg).
Proof.
  intros Hin. apply list_elem_of_singleton in Hin. subst pkg. by eexists.
Qed.

Lemma example_scopes_ok : scopes_ok example_compiler.
Proof.
  intros path tp name tn Htp Hs. simpl in Htp.
  apply lookup_singleton_Some in Htp as [_ <-]. cbn [Scope] in Hs.
  repeat (apply lookup_insert_Some in Hs as [[_ Hs]|[_ Hs]];
          [first [discriminate Hs|injection Hs as <-; by eexists]|]).
  by rewrite lookup_empty in Hs.
Qed.

Lemma example_fileSets_ok (cb : bool) :
  fileSets_ok no_FileSet cb example_program.
Proof.
  intros _ pkg data Hin Hd. apply list_elem_of_singleton in Hin. by subst pkg.
Qed.

(** The table of [I] among candidates in which [S] comes twice, with
    [range] walking the map in an order that is not the sorted one. *)
Lemma range_order_unsorted :
  exists m,
    implementors always_assignable {| methods := ["M"] |} repeated_types ∅ =
      Returned m /\
    reverse_map_order m <> example_refs /\
    map_order m <> reverse_map_order m /\
    sort_Strings (reverse_map_order m) = example_refs.
Proof.
  eexists. split; [vm_compute; reflexivity|].
  split_and!; [| |by vm_compute]; vm_compute; intros H; discriminate H.
Qed.

Lemma implementedBy_sorted_set_witness :
  (exists w',
     write_table Buffer_Write keep_whitespace always_assignable
       reverse_map_order repeated_types false p_interface (new_filter false) =
       (w', Returned tt) /\
     Writer w' = example_table (packages_ref "p" "I")) /\
  exists list target,
    table_target p_interface = Returned target /\
    write_table Buffer_Write keep_whitespace always_assignable
      reverse_map_order repeated_types false p_interface (new_filter false) =
      w_Write Buffer_Write
        (keep_whitespace
           (bytes (target +:+ ".implementedBy = [" +:+ Join list ", "
                   +:+ "];" +:+ nl)) false) (new_filter false) /\
    (complete_cookies
       (keep_whitespace
          (bytes (target +:+ ".implementedBy = [" +:+ Join list ", "
                  +:+ "];" +:+ nl)) false) = true ->
     int_wrap (column (new_filter false)) = column (new_filter false) ->
     exists w',
       write_table Buffer_Write keep_whitespace always_assignable
         reverse_map_order repeated_types false p_interface
         (new_filter false) = (w', Returned tt) /\
       Writer w' =
         Writer (new_filter false) ++
         strip (keep_whitespace
                  (bytes (target +:+ ".implementedBy = [" +:+ Join list ", "
                          +:+ "];" +:+ nl)) false)) /\
    NoDup list /\
    StronglySorted string_le list /\
    forall x,
      x ∈ list <->
      exists other,
        other ∈ repeated_types /\ is_interface other = false /\
        ((always_assignable (TNamed other) {| methods := ["M"] |} = true /\
          x = value_ref other) \/
         (always_assignable (TPointer (TNamed other)) {| methods := ["M"] |}
            = true /\
          x = pointer_ref other)).
Proof.
  split.
  - eexists. split; vm_compute; reflexivity.
  - apply (implementedBy_sorted_set keep_whitespace always_assignable
             reverse_map_order reverse_map_order_perm repeated_types false
             p_interface {| methods := ["M"] |} (new_filter false)).
    + exact repeated_types_ok.
    + right. by eexists.
    + reflexivity.
    + reflexivity.
Defined.

Lemma tables_for_interfaces_with_methods_witness :
  exists w',
    WriteProgramCode Buffer_Write keep_whitespace "PRELUDE" id no_FileSet
      always_assignable map_order example_compiler example_program "p" false
      (new_filter false) = (w', Returned example_linked) /\
    Writer w' = example_output /\
    example_output =
      program_header ++ bytes ("PRELUDE" +:+ nl) ++
      concat (pkg_plan keep_whitespace
                (example_archive "p"
                   [example_decl "A" [] ["p:f"];
                    example_decl "B" [] [];
                    example_decl "C" ["g"] []]) false) ++
      bytes ("$error.implementedBy = [" +:+ Join example_refs ", "
             +:+ "];" +:+ nl) ++
      bytes ("$packages[" +:+ dquote +:+ "p" +:+ dquote
             +:+ "].I.implementedBy = [" +:+ Join example_refs ", "
             +:+ "];" +:+ nl) ++
      init_call (example_archive "p" []) ++
      entry_call "p".
Proof.
  destruct (tables_for_interfaces_with_methods keep_whitespace "PRELUDE" id
              no_FileSet always_assignable map_order map_order_perm
              example_compiler example_program "p" false (new_filter false))
    as (st & declared & Hdce & Hcoll & _ & Hout).
  - exact example_registered.
  - exact example_scopes_ok.
  - exact (example_fileSets_ok false).
  - reflexivity.
  - vm_compute in Hdce. injection Hdce as <-.
    vm_compute in Hcoll. injection Hcoll as <-.
    destruct Hout as (w' & Hrun & Hw); [vm_compute; repeat constructor|].
    exists w'. split; [exact Hrun|]. split; [|reflexivity].
    rewrite Hw. vm_compute. reflexivity.
Defined.


Lemma WriteProgramCode_output_witness :
  exists st,
    dce hello_program = Returned st /\
    same_shape hello_program (st_pkgs st) /\
    (Forall (fun p => complete_cookies p = true)
       (program_plan keep_whitespace "PRELUDE" id never_assignable
          hello_compiler (st_pkgs st) (declsByObject st) "main" false) ->
     exists w',
       WriteProgramCode Buffer_Write keep_whitespace "PRELUDE" id no_FileSet
         never_assignable map_order hello_compiler hello_program "main" false
         (new_filter false) = (w', Returned (st_pkgs st)) /\
       Writer w' =
         Writer (new_filter false) ++
         strip program_header ++
         strip (keep_whitespace (bytes (id "PRELUDE")) false) ++
         strip (bytes nl) ++
         concat (strip <$>
           (st_pkgs st ≫= fun pkg => pkg_plan keep_whitespace pkg false)) ++
         concat (strip <$>
           table_plan keep_whitespace never_assignable
             (candidates hello_compiler (st_pkgs st) (declsByObject st))
             false) ++
         concat (strip <$> (init_call <$> hello_program)) ++
         strip (entry_call "main")).
Proof.
  apply (WriteProgramCode_output keep_whitespace "PRELUDE" id no_FileSet
           never_assignable map_order map_order_perm hello_compiler
           hello_program "main" false (new_filter false)).
  - exact hello_registered.
  - exact hello_scopes_ok.
  - exact (hello_fileSets_ok false).
  - reflexivity.
Defined.

(** C6, as stated, fails on its own scenario: the output of
    the program of one package with one declaration without filters and
    no imports holds the table of the built-in [error] between the package
    block and the init call, so it is not the prelude, the block, the init
    call and the entry call alone. *)
Lemma hello_output_holds_error_table :
  hello_output =
    program_header ++ bytes ("PRELUDE" +:+ nl) ++ hello_block ++
    bytes ("$error.implementedBy = [];" +:+ nl) ++
    init_call (example_archive "main" [example_decl "x" [] []]) ++
    entry_call "main" /\
  hello_output <>
    program_header ++ bytes ("PRELUDE" +:+ nl) ++ hello_block ++
    init_call (example_archive "main" [example_decl "x" [] []]) ++
    entry_call "main".
Proof.
  split; [by vm_compute|].
  intros H. apply (f_equal length) in H. vm_compute in H. discriminate H.
Qed.

Lemma example_same_relation :
  same_relation example_program
    [example_archive "p"
       [example_decl "A" [] ["p:f"; "p:f"];
        example_decl "B" ["f"] [];
        example_decl "C" ["g"; "f"; "g"] []]].
Proof.
  constructor; [|constructor]. split; [done|]. simpl.
  constructor; [|constructor; [|constructor; [|constructor]]];
    (split; intros x; simpl; rewrite ?elem_of_cons, ?elem_of_nil; tauto).
Qed.

Lemma linker_deterministic_witness :
  (WriteProgramCode Buffer_Write keep_whitespace "PRELUDE" id no_FileSet
     always_assignable map_order example_compiler example_program "p" false
     (new_filter false) =
   WriteProgramCode Buffer_Write keep_whitespace "PRELUDE" id no_FileSet
     always_assignable reverse_map_order example_compiler example_program "p"
     false (new_filter false) /\
   exists st st',
     dce example_program = Returned st /\
     dce [example_archive "p"
            [example_decl "A" [] ["p:f"; "p:f"];
             example_decl "B" ["f"] [];
             example_decl "C" ["g"; "f"; "g"] []]] = Returned st' /\
     forall d, emptied (st_pkgs st) d <-> emptied (st_pkgs st') d) /\
  (exists w',
     WriteProgramCode Buffer_Write keep_whitespace "PRELUDE" id no_FileSet
       always_assignable reverse_map_order example_compiler example_program
       "p" false (new_filter false) = (w', Returned example_linked) /\
     Writer w' = example_output) /\
  (exists m,
     implementors always_assignable {| methods := ["M"] |}
       [universe_error; p_empty_interface; p_interface; p_struct; p_named "f"]
       ∅ = Returned m /\
     map_order m <> reverse_map_order m /\
     map_order m <> sort_Strings (map_order m)).
Proof.
  split; [|split].
  - apply (linker_deterministic Buffer_Write keep_whitespace "PRELUDE" id
             no_FileSet always_assignable map_order reverse_map_order
             map_order_perm reverse_map_order_perm example_compiler).
    + reflexivity.
    + reflexivity.
    + exact example_same_relation.
  - eexists. split; vm_compute; reflexivity.
  - eexists. split; [vm_compute; reflexivity|].
    split; vm_compute; intros H; discriminate H.
Defined.

(** * The archive codec *)

Local Open Scope nat_scope.

(** ** Decoding what was encoded *)

Lemma dec_pos_enc (p : positive) (r : list byte) :
  dec_pos (enc_pos p ++ r) = Some (p, r).
Proof.
  induction p as [p IH|p IH|]; simpl; [by rewrite IH..|done].
Qed.

Lemma dec_len_enc (n : nat) (r : list byte) :
  dec_len (enc_len n ++ r) = Some (n, r).
Proof.
  unfold enc_len. destruct (N.of_nat n) as [|p] eqn:E.
  - assert (n = 0) as -> by lia. done.
  - assert (Pos.to_nat p = n) as <- by lia.
    unfold dec_len. destruct p; simpl; by rewrite ?dec_pos_enc.
Qed.

Lemma dec_bytes_enc (bs r : list byte) :
  dec_bytes (enc_bytes bs ++ r) = Some (bs, r).
Proof.
  unfold enc_bytes, dec_bytes. simpl.
  rewrite <- app_assoc, dec_len_enc. simpl.
  rewrite decide_True by (rewrite length_app; lia).
  by rewrite take_app_length, drop_app_length.
Qed.

Lemma dec_string_enc (s : string) (r : list byte) :
  dec_string (enc_string s ++ r) = Some (s, r).
Proof.
  unfold enc_string, dec_string. simpl.
  rewrite <- app_assoc, dec_len_enc. simpl.
  rewrite decide_True by (rewrite length_app; lia).
  rewrite take_app_length, drop_app_length.
  unfold bytes. by rewrite string_of_list_byte_of_string.
Qed.

Lemma dec_id_enc (s : string) (r : list byte) :
  dec_id (enc_id s ++ r) = Some (s, r).
Proof.
  unfold enc_id, dec_id. rewrite dec_bytes_enc. simpl.
  unfold bytes. by rewrite string_of_list_byte_of_string.
Qed.

Lemma dec_nilable_enc (bs : option (list byte)) (r : list byte) :
  dec_nilable (enc_nilable bs ++ r) = Some (bs, r).
Proof.
  destruct bs as [bs|]; [|done].
  unfold dec_nilable, enc_nilable.
  pose proof (dec_bytes_enc bs r) as H.
  unfold enc_bytes in *. simpl in *. by rewrite H.
Qed.

Section Sequences.
Context {A : Type}.
Variable enc : A -> list byte.
Variable dec : list byte -> option (A * list byte).
Hypothesis dec_enc : forall x r, dec (enc x ++ r) = Some (x, r).

Lemma dec_items_enc (l : list A) (r : list byte) :
  dec_items dec (length l) (concat (enc <$> l) ++ r) = Some (l, r).
Proof.
  induction l as [|x l IH]; simpl; [done|].
  rewrite <- app_assoc, dec_enc. simpl. unfold fmap in *. by rewrite IH.
Qed.

Lemma dec_seq_enc (l : list A) (r : list byte) :
  dec_seq dec (enc_seq enc l ++ r) = Some (l, r).
Proof.
  unfold enc_seq, dec_seq. simpl.
  rewrite <- app_assoc, dec_len_enc. simpl. apply dec_items_enc.
Qed.
End Sequences.

(** One decoded field: reduce the bind on the [Some] just obtained. *)
Ltac next_field := cbv beta iota delta [mbind option_bind].

Lemma dec_PkgImport_enc (imp : PkgImport) (r : list byte) :
  dec_PkgImport (enc_PkgImport imp ++ r) = Some (imp, r).
Proof.
  unfold enc_PkgImport, dec_PkgImport. rewrite <- app_assoc.
  rewrite dec_id_enc. next_field.
  rewrite dec_string_enc. next_field. by destruct imp.
Qed.

Lemma dec_Decl_enc (d : Decl) (r : list byte) :
  dec_Decl (enc_Decl d ++ r) = Some (d, r).
Proof.
  unfold enc_Decl, dec_Decl. rewrite <- !app_assoc.
  rewrite dec_string_enc. next_field.
  rewrite dec_bytes_enc. next_field.
  rewrite dec_bytes_enc. next_field.
  rewrite (dec_seq_enc enc_id dec_id dec_id_enc). next_field.
  rewrite (dec_seq_enc enc_id dec_id dec_id_enc). next_field.
  by destruct d.
Qed.

Lemma dec_Archive_enc (a : Archive) (r : list byte) :
  dec_Archive (enc_Archive a ++ r) = Some (a, r).
Proof.
  unfold enc_Archive, dec_Archive. rewrite <- !app_assoc.
  rewrite dec_id_enc. next_field.
  rewrite dec_bytes_enc. next_field.
  rewrite (dec_seq_enc enc_id dec_id dec_id_enc). next_field.
  rewrite (dec_seq_enc enc_PkgImport dec_PkgImport dec_PkgImport_enc).
  next_field.
  rewrite (dec_seq_enc enc_Decl dec_Decl dec_Decl_enc). next_field.
  rewrite (dec_seq_enc enc_string dec_string dec_string_enc). next_field.
  rewrite dec_nilable_enc. next_field.
  by destruct a.
Qed.

Lemma codec_Unmarshal_Marshal (a : Archive) :
  codec_Unmarshal (enc_Archive a) = inl (a, []).
Proof.
  unfold codec_Unmarshal.
  rewrite <- (app_nil_r (enc_Archive a)). by rewrite dec_Archive_enc.
Qed.

Section CodecFacts.
Variable asn1_Unmarshal : list byte -> (Archive * list byte) + error.
Variable ImportData :
  gmap string types_Package -> string -> string -> list byte ->
  gmap string types_Package * (types_Package + error).

(** C9.  With the codec of the specification, for every archive [a]
    whose type metadata the importer accepts: [MarshalArchive] returns
    bytes, and [UnmarshalArchive] of these bytes returns no error and an
    archive equal to [a], field by field: import path, type metadata,
    dependencies, imports, declarations, tests and position table.  The
    one side effect is the registration of the imported package under its
    path. *)
Theorem Unmarshal_Marshal_roundtrip (t : Compiler) (filename id : string)
  (a : Archive) (imports : gmap string types_Package) (pkg : types_Package) :
  ImportData (typesPackages t) filename id (GcData a) = (imports, inl pkg) ->
  exists data a',
    MarshalArchive codec_Marshal t a = (Some data, None) /\
    UnmarshalArchive codec_Unmarshal ImportData t filename id data =
      ({| typesPackages := <[pkg_Path pkg := pkg]> imports |},
       (Some a', None)) /\
    ImportPath a' = ImportPath a /\ GcData a' = GcData a /\
    Dependencies a' = Dependencies a /\ Imports a' = Imports a /\
    Declarations a' = Declarations a /\ Tests a' = Tests a /\
    FileSet a' = FileSet a.
Proof.
  intros Himp. exists (enc_Archive a), a. split; [done|].
  unfold UnmarshalArchive. rewrite codec_Unmarshal_Marshal, Himp. done.
Qed.

(** C10.  [UnmarshalArchive] fails in two ways.  When [asn1.Unmarshal]
    rejects the bytes, it returns that decode error, a nil archive, and
    leaves the registry as it was.  When the bytes decode and the importer
    rejects the type metadata (a dependency that is not registered), it
    returns that resolution error and a nil archive.  In every case the
    error is non-nil exactly when the archive is nil: a failure never
    comes with a partial archive. *)
Theorem UnmarshalArchive_failures (t : Compiler) (filename id : string)
  (data : list byte) :
  let r := UnmarshalArchive asn1_Unmarshal ImportData t filename id data in
  (forall err, asn1_Unmarshal data = inr err -> r = (t, (None, Some err))) /\
  (forall a rest imports err,
     asn1_Unmarshal data = inl (a, rest) ->
     ImportData (typesPackages t) filename id (GcData a) = (imports, inr err) ->
     r.2 = (None, Some err)) /\
  (is_Some r.2.2 <-> r.2.1 = None) /\
  (is_Some r.2.2 ->
   (exists err, asn1_Unmarshal data = inr err /\ r.2.2 = Some err) \/
   (exists a rest imports err,
      asn1_Unmarshal data = inl (a, rest) /\
      ImportData (typesPackages t) filename id (GcData a) = (imports, inr err) /\
      r.2.2 = Some err)).
Proof.
  intros r. unfold r, UnmarshalArchive. split_and!.
  - by intros err ->.
  - intros a rest imports err -> ->. done.
  - destruct (asn1_Unmarshal data) as [[a rest]|err]; simpl.
    + destruct (ImportData _ _ _ _) as [imports [pkg|err]]; simpl.
      * split; [by intros [? ?]|done].
      * split; [done|by eexists].
    + split; [done|by eexists].
  - destruct (asn1_Unmarshal data) as [[a rest]|err] eqn:Hdec; simpl.
    + destruct (ImportData _ _ _ _) as [imports [pkg|err]] eqn:Himp; simpl.
      * by intros [? ?].
      * intros _. right. by exists a, rest, imports, err.
    + intros _. left. by exists err.
Qed.
End CodecFacts.

Lemma Unmarshal_Marshal_roundtrip_witness :
  exists data a',
    MarshalArchive codec_Marshal hello_compiler full_archive =
      (Some data, None) /\
    (UnmarshalArchive codec_Unmarshal accept_ImportData hello_compiler
       "p.a" "p" data).2 = (Some a', None) /\
    a' = full_archive.
Proof.
  destruct (Unmarshal_Marshal_roundtrip accept_ImportData hello_compiler
              "p.a" "p" full_archive (typesPackages hello_compiler)
              {| pkg_Path := "p"; Scope := ∅ |} eq_refl)
    as (data & a' & Hm & Hu & H1 & H2 & H3 & H4 & H5 & H6 & H7).
  exists data, a'. split; [exact Hm|]. split; [by rewrite Hu|].
  destruct a'. simpl in *. by subst.
Defined.

Lemma UnmarshalArchive_failures_witness :
  UnmarshalArchive codec_Unmarshal accept_ImportData hello_compiler
    "p.a" "p" (take 20 (enc_Archive full_archive)) =
    (hello_compiler, (None, Some "asn1: syntax error")) /\
  (UnmarshalArchive codec_Unmarshal missing_ImportData hello_compiler
     "p.a" "p" (enc_Archive full_archive)).2 =
    (None, Some "can't find import").
Proof.
  split.
  - apply (UnmarshalArchive_failures codec_Unmarshal accept_ImportData
             hello_compiler "p.a" "p" (take 20 (enc_Archive full_archive))).
    reflexivity.
  - eapply (UnmarshalArchive_failures codec_Unmarshal missing_ImportData
              hello_compiler "p.a" "p" (enc_Archive full_archive));
      reflexivity.
Defined.

(** * The dependency list of an archive *)

Lemma listed_elem_of (deps : list PkgPath) (path : string) :
  listed deps path = true <-> path ∈ deps.
Proof.
  induction deps as [|dep deps IH]; simpl.
  - split; [done|]. by intros ?%not_elem_of_nil.
  - destruct (decide (dep = path)) as [->|Hne].
    + split; [intros _; by left|done].
    + rewrite IH. split; [by right|].
      intros [?|?]%elem_of_cons; [congruence|done].
Qed.

Lemma AddDependency_Dependencies (a : Archive) (path : string) :
  Dependencies (AddDependency a path) =
    if decide (path ∈ Dependencies a) then Dependencies a
    else Dependencies a ++ [path].
Proof.
  unfold AddDependency.
  destruct (listed (Dependencies a) path) eqn:E.
  - apply listed_elem_of in E. by rewrite decide_True.
  - rewrite decide_False; [done|]. intros H%listed_elem_of. congruence.
Qed.

Lemma AddDependency_present (a : Archive) (path : string) :
  path ∈ Dependencies a -> AddDependency a path = a.
Proof.
  intros H%listed_elem_of. unfold AddDependency. by rewrite H.
Qed.

Lemma AddDependency_shape (a : Archive) (path : string) :
  AddDependency a path =
    with_dependencies (Dependencies (AddDependency a path)) a.
Proof.
  unfold AddDependency. destruct (listed _ _); [by destruct a|done].
Qed.

Lemma foldl_AddDependency_present (l : list string) (a : Archive) :
  (forall p, p ∈ l -> p ∈ Dependencies a) -> foldl AddDependency a l = a.
Proof.
  induction l as [|p l IH]; intros H; [done|]. simpl.
  rewrite AddDependency_present by (apply H; by left).
  apply IH. intros q Hq. apply H. by right.
Qed.

Lemma foldl_AddDependency_spec (l : list string) (a : Archive) :
  let a' := foldl AddDependency a l in
  (forall p, p ∈ Dependencies a' <-> p ∈ Dependencies a \/ p ∈ l) /\
  Dependencies a `prefix_of` Dependencies a' /\
  a' = with_dependencies (Dependencies a') a /\
  (NoDup (Dependencies a) -> NoDup (Dependencies a')).
Proof.
  revert a. induction l as [|q l IH]; intros a; simpl.
  - split_and!; [|done|by destruct a|done].
    intros p. split; [by left|]. by intros [?|?%not_elem_of_nil].
  - destruct (IH (AddDependency a q)) as (H1 & H2 & H3 & H4).
    pose proof (AddDependency_Dependencies a q) as Hq.
    split_and!.
    + intros p. rewrite H1, Hq.
      destruct (decide (q ∈ Dependencies a)) as [Hin|Hin].
      * split; [intros [?|?]; [by left|right; by right]|].
        intros [?|[ ->|?]%elem_of_cons]; [by left|by left|by right].
      * rewrite elem_of_app, list_elem_of_singleton.
        split; [intros [[?| ->]|?]; [by left|right; by left|right; by right]|].
        intros [?|[ ->|?]%elem_of_cons];
          [left; by left|left; by right|by right].
    + etrans; [|exact H2]. rewrite Hq.
      destruct (decide _); [done|]. by apply prefix_app_r.
    + rewrite H3 at 1. rewrite (AddDependency_shape a q). by destruct a.
    + intros Hnd. apply H4. rewrite Hq.
      destruct (decide _) as [|Hin]; [done|].
      apply NoDup_app. split_and!; [done| |apply NoDup_singleton].
      intros x Hx ->%list_elem_of_singleton. done.
Qed.

(** [AddDependency] keeps a dependency list free of duplicates: it leaves
    the archive as it is when [path] is listed and appends [path]
    otherwise, so that afterwards [path] is listed, the old entries keep
    their places, and a second call with the same path changes nothing. *)
Theorem AddDependency_keeps_NoDup (a : Archive) (path : string) :
  NoDup (Dependencies a) ->
  NoDup (Dependencies (AddDependency a path)) /\
  path ∈ Dependencies (AddDependency a path) /\
  Dependencies a `prefix_of` Dependencies (AddDependency a path) /\
  (path ∈ Dependencies a -> AddDependency a path = a) /\
  AddDependency (AddDependency a path) path = AddDependency a path.
Proof.
  intros Hnd.
  destruct (foldl_AddDependency_spec [path] a) as (H1 & H2 & _ & H4).
  simpl in *.
  assert (path ∈ Dependencies (AddDependency a path)) as Hin.
  { apply H1. right. by left. }
  split_and!; [by apply H4|done|done|apply AddDependency_present|].
  by apply AddDependency_present.
Qed.

Lemma AddDependency_keeps_NoDup_witness :
  Dependencies (AddDependency (dependent "a" ["p"; "q"]) "r") = ["p"; "q"; "r"] /\
  AddDependency (dependent "a" ["p"; "q"]) "q" = dependent "a" ["p"; "q"] /\
  NoDup (Dependencies (AddDependency (dependent "a" ["p"; "q"]) "r")).
Proof.
  split; [reflexivity|]. split; [reflexivity|].
  apply (AddDependency_keeps_NoDup (dependent "a" ["p"; "q"]) "r").
  simpl. apply (bool_decide_unpack _). vm_compute. exact I.
Defined.

(** After [a.AddDependenciesOf(other)] the dependencies of [a] are those
    it had, in their places, followed by those of [other] that it lacked:
    a path is listed exactly when [a] or [other] listed it, and no other
    field of [a] changes. *)
Theorem AddDependenciesOf_union (a other : Archive) :
  (forall p, p ∈ Dependencies (AddDependenciesOf a other) <->
             p ∈ Dependencies a \/ p ∈ Dependencies other) /\
  Dependencies a `prefix_of` Dependencies (AddDependenciesOf a other) /\
  AddDependenciesOf a other =
    with_dependencies (Dependencies (AddDependenciesOf a other)) a.
Proof.
  destruct (foldl_AddDependency_spec (Dependencies other) a)
    as (H1 & H2 & H3 & _).
  done.
Qed.

(** [AddDependenciesOf] never introduces a duplicate: a list without
    duplicates stays so, whatever [other] lists and however often. *)
Theorem AddDependenciesOf_NoDup (a other : Archive) :
  NoDup (Dependencies a) -> NoDup (Dependencies (AddDependenciesOf a other)).
Proof.
  intros H.
  by destruct (foldl_AddDependency_spec (Dependencies other) a) as (_ & _ & _ & H4);
    apply H4.
Qed.

Lemma AddDependenciesOf_NoDup_witness :
  Dependencies (AddDependenciesOf (dependent "a" ["p"; "q"])
                  (dependent "b" ["q"; "r"; "r"; "p"; "s"])) =
    ["p"; "q"; "r"; "s"] /\
  NoDup (Dependencies (AddDependenciesOf (dependent "a" ["p"; "q"])
                         (dependent "b" ["q"; "r"; "r"; "p"; "s"]))).
Proof.
  split; [reflexivity|].
  apply (AddDependenciesOf_NoDup (dependent "a" ["p"; "q"])
           (dependent "b" ["q"; "r"; "r"; "p"; "s"])).
  simpl. apply (bool_decide_unpack _). vm_compute. exact I.
Defined.

(** Adding dependencies that are all there changes nothing: a second
    [AddDependenciesOf] of the same archive is a no-op, and so is
    [a.AddDependenciesOf(a)], where the list walked is the list appended
    to. *)
Theorem AddDependenciesOf_again (a other : Archive) :
  AddDependenciesOf (AddDependenciesOf a other) other =
    AddDependenciesOf a other /\
  AddDependenciesOf a a = a.
Proof.
  split.
  - apply foldl_AddDependency_present. intros p Hp.
    apply (foldl_AddDependency_spec (Dependencies other) a). by right.
  - by apply foldl_AddDependency_present.
Qed.

(** Merging the dependencies of two archives into a duplicate-free list
    gives the same set of paths in whichever order the two are merged:
    the two results are permutations of each other. *)
Theorem AddDependenciesOf_order (a o1 o2 : Archive) :
  NoDup (Dependencies a) ->
  Dependencies (AddDependenciesOf (AddDependenciesOf a o1) o2) ≡ₚ
  Dependencies (AddDependenciesOf (AddDependenciesOf a o2) o1).
Proof.
  intros Hnd.
  pose proof (foldl_AddDependency_spec (Dependencies o1) a) as (A1 & _ & _ & A4).
  pose proof (foldl_AddDependency_spec (Dependencies o2) a) as (B1 & _ & _ & B4).
  pose proof (foldl_AddDependency_spec (Dependencies o2)
                (AddDependenciesOf a o1)) as (C1 & _ & _ & C4).
  pose proof (foldl_AddDependency_spec (Dependencies o1)
                (AddDependenciesOf a o2)) as (D1 & _ & _ & D4).
  simpl in *. unfold AddDependenciesOf in *.
  apply NoDup_Permutation; [by apply C4, A4|by apply D4, B4|].
  intros p. rewrite C1, D1, A1, B1. tauto.
Qed.

Lemma AddDependenciesOf_order_witness :
  Dependencies (AddDependenciesOf
     (AddDependenciesOf (dependent "a" ["p"]) (dependent "b" ["q"; "p"]))
     (dependent "c" ["r"; "q"])) ≡ₚ
  Dependencies (AddDependenciesOf
     (AddDependenciesOf (dependent "a" ["p"]) (dependent "c" ["r"; "q"]))
     (dependent "b" ["q"; "p"])).
Proof.
  apply (AddDependenciesOf_order (dependent "a" ["p"])
           (dependent "b" ["q"; "p"]) (dependent "c" ["r"; "q"])).
  simpl. apply NoDup_singleton.
Defined.

(** * The filter over any input and any writer *)

Lemma strip_app_plain (w q : list byte) :
  sentinel ∉ w -> strip (w ++ q) = w ++ strip q.
Proof.
  induction w as [|b w IH]; intros H; [done|].
  apply not_elem_of_cons in H as [Hb Hw]. simpl.
  rewrite decide_False by done. by rewrite IH.
Qed.

Lemma strip_plain (w : list byte) : sentinel ∉ w -> strip w = w.
Proof.
  intros H. rewrite <- (app_nil_r w) at 1.
  rewrite strip_app_plain by done. simpl. by rewrite app_nil_r.
Qed.

Lemma strip_fresh_bounded (n : nat) (p : list byte) :
  length p <= n -> (sentinel ∉ strip p) /\ length (strip p) <= length p.
Proof.
  revert p; induction n as [|n IH]; intros p Hn.
  - destruct p; [|simpl in Hn; lia]. split; [apply not_elem_of_nil|done].
  - destruct p as [|b p]; [split; [apply not_elem_of_nil|done]|].
    simpl in *. destruct (decide (b = sentinel)).
    + destruct p as [|c0 [|c1 [|c2 [|c3 p]]]];
        try (split; [apply not_elem_of_nil|simpl; lia]).
      simpl in *. destruct (IH p) as [H1 H2]; [lia|]. split; [done|lia].
    + destruct (IH p) as [H1 H2]; [lia|].
      split; [apply not_elem_of_cons; auto|simpl; lia].
Qed.

Lemma drop_four (p : list byte) :
  4 <= length p ->
  exists c0 c1 c2 c3, p = c0 :: c1 :: c2 :: c3 :: drop 4 p.
Proof.
  destruct p as [|c0 [|c1 [|c2 [|c3 p]]]]; simpl; try lia.
  intros _. by exists c0, c1, c2, c3.
Qed.

Lemma Write_loop_sink (fuel : nat) (f : SourceMapFilter (list byte))
  (p : list byte) (n : Z) :
  length p < fuel ->
  Writer (Write_loop Buffer_Write fuel f p n).1 = Writer f ++ strip p /\
  match (Write_loop Buffer_Write fuel f p n).2 with
  | Returned (_, err) => complete_cookies p = true /\ err = None
  | Panicked => complete_cookies p = false
  | OutOfFuel => False
  end.
Proof.
  revert f p n; induction fuel as [|fuel IH]; intros f p n Hlen; [lia|].
  cbn [Write_loop Buffer_Write].
  destruct (IndexByte p sentinel) as [i|] eqn:Hi.
  - apply IndexByte_Some in Hi as (Hsplit & Hfresh & Hi).
    destruct (advance_fuel (S (length (take i p))) (line f) (column f)
                (take i p)) as [[l c] ->]; [lia|].
    assert (length (take i p) = i) as Hw by (rewrite length_take; lia).
    assert (strip p = take i p ++ strip (sentinel :: drop (S i) p)) as Hstrip.
    { rewrite Hsplit at 1. by apply strip_app_plain. }
    assert (complete_cookies p = complete_cookies (sentinel :: drop (S i) p))
      as Hcc.
    { rewrite Hsplit at 1. by apply complete_cookies_app_plain. }
    rewrite Hstrip, Hcc. clear Hstrip Hcc.
    destruct (decide (i + 5 <= length p)) as [Hfit|Hfit].
    + destruct (drop_four (drop (S i) p)) as (c0 & c1 & c2 & c3 & Hd).
      { rewrite length_drop. lia. }
      rewrite drop_drop in Hd.
      replace (S i + 4) with (i + 5) in Hd by lia.
      destruct (IH (invoke
                  {| Writer := Writer f ++ take i p;
                     MappingCallback := MappingCallback f; line := l;
                     column := c; fileSet := fileSet f; mapped := mapped f |}
                  (Uint32 (take 4 (drop (S i) p))))
                  (drop (i + 5) p)
                  (int_add (int_add n (Z.of_nat (length (take i p)))) 5))
        as [H1 H2].
      { rewrite length_drop. lia. }
      assert (strip (sentinel :: drop (S i) p) = strip (drop (i + 5) p)) as ->.
      { rewrite Hd. simpl. try rewrite decide_True by done. done. }
      assert (complete_cookies (sentinel :: drop (S i) p) =
              complete_cookies (drop (i + 5) p)) as ->.
      { rewrite Hd. simpl. try rewrite decide_True by done. done. }
      split; [|exact H2].
      rewrite H1. unfold invoke. simpl.
      destruct (MappingCallback f); simpl; by rewrite <- app_assoc.
    + simpl. try rewrite !decide_True by done.
      assert (length (drop (S i) p) < 4) as Hshort by (rewrite length_drop; lia).
      destruct (drop (S i) p) as [|c0 [|c1 [|c2 [|c3 rest]]]];
        simpl in Hshort; try lia; by rewrite ?app_nil_r.
  - apply IndexByte_None in Hi.
    destruct (advance_fuel (S (length p)) (line f) (column f) p)
      as [[l c] ->]; [lia|].
    simpl. rewrite strip_plain by done. split; [done|].
    split; [by apply complete_cookies_plain|done].
Qed.

(** Whatever the bytes handed to [Write], a buffer beneath the filter
    receives them less every sentinel and the (up to) four bytes after
    it: what arrives holds no sentinel byte and is no longer than the
    input.  The call panics exactly when some sentinel of the input is
    not followed by its four cookie bytes, and then what preceded that
    sentinel has been forwarded; otherwise it returns without error. *)
Theorem Write_sink_strip (f : SourceMapFilter (list byte)) (p : list byte) :
  Writer (Write Buffer_Write f p).1 = Writer f ++ strip p /\
  (sentinel ∉ strip p) /\ length (strip p) <= length p /\
  ((Write Buffer_Write f p).2 = Panicked <-> complete_cookies p = false) /\
  (forall n err, (Write Buffer_Write f p).2 = Returned (n, err) ->
                 err = None /\ complete_cookies p = true).
Proof.
  unfold Write.
  destruct (Write_loop_sink (S (length p)) f p 0) as [H1 H2]; [lia|].
  destruct (strip_fresh_bounded (length p) p) as [H3 H4]; [done|].
  split_and!; try done.
  - destruct (Write_loop Buffer_Write (S (length p)) f p 0).2 as [[n err]| |];
      [|done|done].
    destruct H2 as [H2 _]. split; [done|congruence].
  - intros n err E. rewrite E in H2. by destruct H2.
Qed.

(** ** The calls made to the underlying writer *)

Lemma reported_cons (c : WriteCall) (calls : list WriteCall) :
  reported (c :: calls) = (taken c + reported calls)%Z.
Proof. done. Qed.

Lemma Write_loop_calls {W : Type}
  (ww : W -> list byte -> W * (Z * option error)) (fuel : nat)
  (f : SourceMapFilter (W * list WriteCall)) (p : list byte) (n0 : Z) :
  length p < fuel ->
  exists new,
    (Writer (Write_loop (logged ww) fuel f p n0).1).2 = (Writer f).2 ++ new /\
    new <> [] /\
    Forall (fun c => sentinel ∉ handed c) new /\
    Forall (fun c => failure c = None) (take (length new - 1) new) /\
    match (Write_loop (logged ww) fuel f p n0).2 with
    | Returned (n, err) =>
        err = (last new ≫= failure) /\
        n = int_wrap (n0 + reported new + 5 * Z.of_nat (length new - 1))
    | Panicked => Forall (fun c => failure c = None) new
    | OutOfFuel => False
    end.
Proof.
  revert f p n0; induction fuel as [|fuel IH]; intros f p n0 Hlen; [lia|].
  cbn [Write_loop].
  set (w := match IndexByte p sentinel with
            | Some i => take i p
            | None => p
            end).
  destruct (logged ww (Writer f) w) as [ws [n2 err]] eqn:Elog.
  assert (ws.2 = (Writer f).2 ++ [{| handed := w; taken := n2; failure := err |}])
    as Hws.
  { unfold logged in Elog. destruct (ww (Writer f).1 w) as [s' [n' err']].
    by injection Elog as <- <- <-. }
  assert (length w <= length p) as Hwlen.
  { unfold w. destruct (IndexByte p sentinel); [rewrite length_take|]; lia. }
  destruct (advance_fuel (S (length w)) (line f) (column f) w)
    as [[l c] ->]; [lia|].
  set (call := {| handed := w; taken := n2; failure := err |}).
  assert (sentinel ∉ w) as Hfresh.
  { unfold w. destruct (IndexByte p sentinel) as [i|] eqn:Hi.
    - by apply IndexByte_Some in Hi as (_ & ? & _).
    - by apply IndexByte_None in Hi. }
  destruct err as [e|].
  { exists [call].
    split_and!; [by simpl|done|by apply Forall_singleton|by simpl|].
    simpl. split; [done|]. unfold int_add. f_equal. lia. }
  destruct (IndexByte p sentinel) as [i|] eqn:Hi.
  2: { exists [call].
       split_and!; [by simpl|done|by apply Forall_singleton|by simpl|].
    simpl. split; [done|]. unfold int_add. f_equal. lia. }
  apply IndexByte_Some in Hi as (_ & _ & Hi).
  destruct (decide (i + 5 <= length p)) as [Hfit|Hfit].
  - match goal with
    | |- context [Write_loop (logged ww) fuel ?g ?q ?m] =>
        destruct (IH g q m) as (new & H1 & H2 & H3 & H4 & H5)
    end.
    { rewrite length_drop. lia. }
    exists (call :: new).
    assert (length new <> 0) as Hnz by (by destruct new).
    split_and!.
    + rewrite H1. unfold invoke. simpl.
      destruct (MappingCallback f); simpl; by rewrite Hws, <- app_assoc.
    + done.
    + by apply Forall_cons.
    + replace (length (call :: new) - 1) with (S (length new - 1))
        by (simpl; lia).
      simpl. by apply Forall_cons.
    + destruct (Write_loop _ _ _ _ _).2 as [[n e]| |]; [|by apply Forall_cons|done].
      destruct H5 as [-> ->]. split.
      * by destruct new.
      * replace (Z.of_nat (length (call :: new) - 1)) with (Z.of_nat (length new))
          by (simpl; lia).
        replace (Z.of_nat (length new - 1)) with (Z.of_nat (length new) - 1)%Z
          by lia.
        unfold int_add. rewrite reported_cons. simpl taken.
        rewrite <- !Z.add_assoc, int_wrap_add_l.
        rewrite <- !Z.add_assoc, int_wrap_add_l. f_equal. lia.
  - exists [call].
    split_and!; [by simpl|done|by apply Forall_singleton|by simpl|
                 by apply Forall_singleton].
Qed.

(** [Write] stops at the first error of the underlying writer.  Of the
    calls it makes to the writer (at least one, also for an empty
    buffer) only the last can have failed, and that error, if any, is
    the one [Write] returns; no chunk handed over holds a sentinel.  The
    count returned is the sum of the counts the writer returned plus
    five for each sentinel and cookie consumed, so it falls short of the
    length of the buffer when the writer took less than it was handed. *)
Theorem Write_stops_at_first_error {W : Type}
  (ww : W -> list byte -> W * (Z * option error))
  (f : SourceMapFilter W) (p : list byte) :
  let r := Write (logged ww) (observed f) p in
  let calls := (Writer r.1).2 in
  calls <> [] /\
  Forall (fun c => sentinel ∉ handed c) calls /\
  Forall (fun c => failure c = None) (take (length calls - 1) calls) /\
  (forall n err, r.2 = Returned (n, err) ->
     err = (last calls ≫= failure) /\
     n = int_wrap (reported calls + 5 * Z.of_nat (length calls - 1))) /\
  (r.2 = Panicked -> Forall (fun c => failure c = None) calls).
Proof.
  intros r calls. subst calls r. unfold Write.
  destruct (Write_loop_calls ww (S (length p)) (observed f) p 0)
    as (new & H1 & H2 & H3 & H4 & H5); [lia|].
  change ((Writer (observed f)).2) with (@nil WriteCall) in H1.
  cbn [app] in H1. rewrite H1. split_and!; try done.
  - intros n err E. rewrite E in H5. done.
  - intros E. by rewrite E in H5.
Qed.

Lemma Write_loop_position {W : Type}
  (ww : W -> list byte -> W * (Z * option error)) (fuel : nat)
  (f : SourceMapFilter (W * list WriteCall)) (p : list byte) (n0 : Z) :
  length p < fuel -> int_wrap (column f) = column f ->
  exists new,
    (Writer (Write_loop (logged ww) fuel f p n0).1).2 = (Writer f).2 ++ new /\
    (line (Write_loop (logged ww) fuel f p n0).1,
     column (Write_loop (logged ww) fuel f p n0).1) =
      foldl track (line f, column f) (concat (handed <$> new)).
Proof.
  revert f p n0; induction fuel as [|fuel IH]; intros f p n0 Hlen Hc; [lia|].
  cbn [Write_loop].
  set (w := match IndexByte p sentinel with
            | Some i => take i p
            | None => p
            end).
  destruct (logged ww (Writer f) w) as [ws [n2 err]] eqn:Elog.
  assert (ws.2 = (Writer f).2 ++ [{| handed := w; taken := n2; failure := err |}])
    as Hws.
  { unfold logged in Elog. destruct (ww (Writer f).1 w) as [s' [n' err']].
    by injection Elog as <- <- <-. }
  assert (length w <= length p) as Hwlen.
  { unfold w. destruct (IndexByte p sentinel); [rewrite length_take|]; lia. }
  rewrite advance_track by (done || lia).
  pose proof (foldl_track_wrapped w (line f) (column f) Hc) as Hwr.
  destruct (foldl track (line f, column f) w) as [l c] eqn:Hpos.
  simpl in Hwr.
  set (call := {| handed := w; taken := n2; failure := err |}) in *.
  assert (forall out : outcome (Z * option error),
    exists new,
      (Writer ({| Writer := ws; MappingCallback := MappingCallback f;
                  line := l; column := c; fileSet := fileSet f;
                  mapped := mapped f |}, out).1).2 = (Writer f).2 ++ new /\
      (line ({| Writer := ws; MappingCallback := MappingCallback f;
                line := l; column := c; fileSet := fileSet f;
                mapped := mapped f |}, out).1,
       column ({| Writer := ws; MappingCallback := MappingCallback f;
                  line := l; column := c; fileSet := fileSet f;
                  mapped := mapped f |}, out).1) =
        foldl track (line f, column f) (concat (handed <$> new))) as Hstop.
  { intros out. exists [call]. simpl. rewrite app_nil_r. by rewrite Hpos. }
  destruct err as [e|]; [apply Hstop|].
  destruct (IndexByte p sentinel) as [i|] eqn:Hi; [|apply Hstop].
  apply IndexByte_Some in Hi as (_ & _ & Hi).
  destruct (decide (i + 5 <= length p)) as [Hfit|Hfit]; [|apply Hstop].
  set (g := {| Writer := ws; MappingCallback := MappingCallback f; line := l;
               column := c; fileSet := fileSet f; mapped := mapped f |}).
  destruct (IH (invoke g (Uint32 (take 4 (drop (S i) p)))) (drop (i + 5) p)
              (int_add (int_add n0 n2) 5)) as (new & H1 & H2).
  { rewrite length_drop. lia. }
  { unfold invoke, g. simpl. by destruct (MappingCallback f). }
  exists (call :: new). split.
  - rewrite H1. unfold invoke, g. simpl.
    destruct (MappingCallback f); simpl; by rewrite Hws, <- app_assoc.
  - rewrite H2. rewrite fmap_cons. simpl concat. rewrite foldl_app, Hpos.
    unfold invoke, g. simpl. by destruct (MappingCallback f).
Qed.

(** The position that the filter keeps is that of the bytes it handed to
    the writer, whatever the writer made of them: after any call of
    [Write] the line and the column are those reached by reading, byte by
    byte, the chunks handed over, also when the writer took fewer bytes
    than it was handed or failed. *)
Theorem Write_position_counts_handed {W : Type}
  (ww : W -> list byte -> W * (Z * option error))
  (f : SourceMapFilter W) (p : list byte) :
  int_wrap (column f) = column f ->
  let r := Write (logged ww) (observed f) p in
  (line r.1, column r.1) =
    foldl track (line f, column f) (concat (handed <$> (Writer r.1).2)).
Proof.
  intros Hc r. subst r. unfold Write.
  destruct (Write_loop_position ww (S (length p)) (observed f) p 0)
    as (new & H1 & H2); [lia|done|].
  change ((Writer (observed f)).2) with (@nil WriteCall) in H1.
  cbn [app] in H1. by rewrite H1, H2.
Qed.

Lemma Write_position_counts_handed_witness :
  let r := Write (logged (Limited_Write 2)) (observed (new_filter true))
             [x61; x0a; x63; x08; x00; x00; x00; x01; x64] in
  (line r.1, column r.1) =
    foldl track (0%Z, 0%Z) (concat (handed <$> (Writer r.1).2)) /\
  (line r.1, column r.1) = (1%Z, 1%Z) /\ (Writer r.1).1 = [x61; x0a].
Proof.
  split; [|by vm_compute].
  apply (Write_position_counts_handed (Limited_Write 2) (new_filter true)
           [x61; x0a; x63; x08; x00; x00; x00; x01; x64]).
  reflexivity.
Defined.

(** A writer with room for two bytes, handed three bytes, a cookie and
    one more byte: [Write] returns the short write and the count two,
    the cookie is not reported and the last byte is never handed over. *)
Lemma short_write_example :
  let r := Write (logged (Limited_Write 2)) (observed (new_filter true))
             [x61; x62; x63; x08; x00; x00; x00; x01; x64] in
  (r.2 = Returned (2%Z, Some "short write"%string)) /\
  (Writer r.1 =
     ([x61; x62],
      [{| handed := [x61; x62; x63]; taken := 2;
          failure := Some "short write"%string |}])) /\
  (mapped r.1 = []).
Proof. by vm_compute. Qed.

(** ** The mapping callback and what is forwarded *)

Lemma Write_loop_callback {W : Type}
  (ww : W -> list byte -> W * (Z * option error)) (fuel : nat)
  (f f' : SourceMapFilter W) (p : list byte) (n : Z) :
  Writer f' = Writer f -> line f' = line f -> column f' = column f ->
  fileSet f' = fileSet f ->
  let r := Write_loop ww fuel f p n in
  let r' := Write_loop ww fuel f' p n in
  Writer r'.1 = Writer r.1 /\ line r'.1 = line r.1 /\
  column r'.1 = column r.1 /\ fileSet r'.1 = fileSet r.1 /\ r'.2 = r.2 /\
  MappingCallback r'.1 = MappingCallback f' /\
  (MappingCallback f' = false -> mapped r'.1 = mapped f').
Proof.
  revert f f' p n; induction fuel as [|fuel IH];
    intros f f' p n Hw Hl Hc Hfs; [by simpl|].
  cbn [Write_loop]. rewrite Hw, Hl, Hc, Hfs.
  destruct (ww (Writer f) _) as [s' [n2 err]].
  destruct (advance _ _ _ _) as [[l c]|]; [|by simpl].
  destruct err as [e|]; [by simpl|].
  destruct (IndexByte p sentinel) as [i|]; [|by simpl].
  destruct (decide (i + 5 <= length p)); [|by simpl].
  set (g := {| Writer := s'; MappingCallback := MappingCallback f; line := l;
               column := c; fileSet := fileSet f; mapped := mapped f |}).
  set (g' := {| Writer := s'; MappingCallback := MappingCallback f'; line := l;
                column := c; fileSet := fileSet f; mapped := mapped f' |}).
  destruct (IH (invoke g (Uint32 (take 4 (drop (S i) p))))
              (invoke g' (Uint32 (take 4 (drop (S i) p))))
              (drop (i + 5) p) (int_add (int_add n n2) 5))
    as (I1 & I2 & I3 & I4 & I5 & I6 & I7);
    try (unfold invoke; simpl;
         by destruct (MappingCallback f), (MappingCallback f')).
Qed.

(** Whether a mapping callback is set makes no difference to anything
    but the mappings: over any writer and for any input, [Write] hands
    the same bytes to the writer, ends at the same position and returns
    the same result (or panics all the same) with the callback set or
    cleared; without a callback no mapping is recorded. *)
Theorem Write_callback_transparent {W : Type}
  (ww : W -> list byte -> W * (Z * option error))
  (f : SourceMapFilter W) (p : list byte) (cb : bool) :
  let r := Write ww f p in
  let r' := Write ww (with_callback cb f) p in
  Writer r'.1 = Writer r.1 /\ line r'.1 = line r.1 /\
  column r'.1 = column r.1 /\ fileSet r'.1 = fileSet r.1 /\ r'.2 = r.2 /\
  MappingCallback r'.1 = cb /\
  (cb = false -> mapped r'.1 = mapped f).
Proof.
  apply (Write_loop_callback ww (S (length p)) f (with_callback cb f) p 0);
    done.
Qed.
(** * More on the dead code elimination *)

(** ** A filter with a colon in its name *)

Lemma Split_segment_no_colon (s x : string) :
  x ∈ Split s -> no_colon x = true.
Proof.
  revert x; induction s as [|c s IH]; intros x; simpl.
  - by intros ->%list_elem_of_singleton.
  - destruct (decide (c = colon)) as [->|Hc].
    + intros [->|Hx]%elem_of_cons; [done|by apply IH].
    + destruct (Split s) as [|y r] eqn:E.
      * intros ->%list_elem_of_singleton. simpl. by rewrite decide_False.
      * intros [->|Hx]%elem_of_cons.
        -- simpl. rewrite decide_False by done. apply IH. by left.
        -- apply IH. by right.
Qed.

Lemma remove_filter_keeps (name f : string) (fs : list DepId) :
  f <> name -> f ∈ fs -> f ∈ remove_filter name fs.
Proof.
  intros Hne Hf. destruct (decide (name ∈ fs)) as [Hin|Hin].
  - rewrite (remove_filter_Permutation name fs Hin) in Hf.
    by apply elem_of_cons in Hf as [?|?].
  - by rewrite remove_filter_absent.
Qed.

Lemma release_keeps (name : string) (decls : list DeclPtr)
  (pkgs : list Archive) (pending : list DeclPtr) (d : DeclPtr) (f : DepId) :
  f <> name -> f ∈ filters_of pkgs d ->
  f ∈ filters_of (release name decls pkgs pending).1 d.
Proof.
  intros Hne. revert pkgs pending.
  induction decls as [|d' decls IH]; intros pkgs pending Hf; [done|].
  simpl. destruct (get_decl pkgs d') as [dc|] eqn:Hd'; [|by apply IH].
  apply IH. destruct (decide (d' = d)) as [->|Hdd].
  - rewrite (filters_of_set_filters_eq _ _ _ _ Hd').
    rewrite (filters_of_Some _ _ _ Hd') in Hf. by apply remove_filter_keeps.
  - by rewrite filters_of_set_filters_ne.
Qed.

Lemma visit_deps_keeps (deps : list DepId) (st st' : dce_state)
  (d : DeclPtr) (f : DepId) :
  no_colon f = false -> f ∈ filters_of (st_pkgs st) d ->
  visit_deps deps st = Returned st' -> f ∈ filters_of (st_pkgs st') d.
Proof.
  intros Hcolon. revert st.
  induction deps as [|o deps IH]; intros st Hf; simpl.
  - by intros [= <-].
  - destruct (declsByObject st !! o) as [ds|]; [|by apply IH].
    destruct (Split o !! 1) as [name|] eqn:Hname; [|done].
    assert (f <> name) as Hne.
    { intros ->. apply list_elem_of_lookup_2, Split_segment_no_colon in Hname.
      congruence. }
    pose proof (release_keeps name ds (st_pkgs st) (pendingDecls st) d f Hne Hf)
      as Hrel.
    destruct (release name ds (st_pkgs st) (pendingDecls st))
      as [pkgs' pending'].
    by apply IH.
Qed.

Lemma dce_loop_keeps (fuel : nat) (st st' : dce_state) (d : DeclPtr)
  (f : DepId) :
  no_colon f = false -> f ∈ filters_of (st_pkgs st) d ->
  dce_loop fuel st = Returned st' -> f ∈ filters_of (st_pkgs st') d.
Proof.
  intros Hcolon. revert st.
  induction fuel as [|fuel IH]; intros st Hf; simpl; [done|].
  destruct (pop (pendingDecls st)) as [[pending d']|]; [|by intros [= <-]].
  destruct (get_decl (st_pkgs st) d') as [dc|]; [|done].
  destruct (visit_deps _ _) as [st1| |] eqn:Hv; [|done|done].
  apply IH. by eapply visit_deps_keeps; [done| |exact Hv].
Qed.

(** A filter whose name holds a colon is never released: the name that
    the DCE recovers from a key with [strings.Split(o, ":")[1]] holds no
    colon, so it never equals that filter.  The declaration keeps the
    filter and stays dead, even when a live declaration depends on the
    very key the filter was indexed under. *)
Theorem dce_colon_filter_stays (pkgs : list Archive) (d : DeclPtr)
  (dc : Decl) (f : DepId) :
  get_decl pkgs d = Some dc -> f ∈ DceFilters dc -> no_colon f = false ->
  exists st dc',
    dce pkgs = Returned st /\ get_decl (st_pkgs st) d = Some dc' /\
    f ∈ DceFilters dc' /\ ~ emptied (st_pkgs st) d.
Proof.
  intros Hd Hf Hcolon.
  destruct (dce_run pkgs) as (st & P & Hrun & Hinv & _).
  pose proof (inv_shape _ _ _ _ _ Hinv) as Hs.
  destruct (same_shape_get_decl _ _ _ _ Hs Hd) as (dc' & Hd' & _).
  assert (f ∈ filters_of (st_pkgs st) d) as Hkept.
  { unfold dce in Hrun. eapply dce_loop_keeps; [done| |exact Hrun].
    simpl. by rewrite (filters_of_Some _ _ _ Hd). }
  rewrite (filters_of_Some _ _ _ Hd') in Hkept.
  exists st, dc'. split_and!; [done..|].
  intros (dc2 & Hd2 & He). rewrite Hd' in Hd2. injection Hd2 as <-.
  rewrite He in Hkept. by apply not_elem_of_nil in Hkept.
Qed.

Lemma dce_colon_filter_stays_witness :
  exists st dc',
    dce colon_program = Returned st /\
    get_decl (st_pkgs st) (0, 1) = Some dc' /\
    "a:b" ∈ DceFilters dc' /\ ~ emptied (st_pkgs st) (0, 1).
Proof.
  apply (dce_colon_filter_stays colon_program (0, 1)
           (example_decl "B" ["f"; "a:b"] []) "a:b").
  - reflexivity.
  - simpl. apply elem_of_cons. right. apply elem_of_cons. by left.
  - reflexivity.
Defined.

(** ** Counting the entries of the index *)

Lemma occurrences_all_zero (l : list DeclPtr) :
  (forall d, occurrences d l = 0) -> l = [].
Proof.
  destruct l as [|x l]; [done|]. intros H. specialize (H x).
  rewrite occurrences_cons, decide_True in H by done. lia.
Qed.

Lemma collect_index_guards (pkgs : list Archive) (o : string) (d : DeclPtr) :
  occurrences d (index_at (collect_pkgs 0 pkgs (∅, [])).1 o) =
    guards pkgs d o.
Proof.
  destruct (collect_pkgs_spec pkgs 0 ∅ []) as (H1 & _).
  rewrite H1, guards_lookup, Nat.sub_0_r.
  destruct (decide (0 <= d.1)) as [_|]; [|lia].
  unfold index_at at 1. by rewrite lookup_empty.
Qed.

(** * More on the linker *)

Section LinkerRuns.
Context {W : Type}.
Variable WriterWrite : W -> list byte -> W * (Z * option error).
Variable removeWhitespace : list byte -> bool -> list byte.
Variable prelude : string.
Variable TrimSpace : string -> string.
Variable FileSet_Read : list byte -> option token_FileSet.
Variable AssignableTo : GoType -> Interface -> bool.
Variable range_keys : gmap string bool -> list string.

(** ** Runs that end *)

Lemma ends_ret {A : Type} (a : A) : ends (@ret W A a).
Proof. by intros w. Qed.

Lemma ends_bind {A B : Type} (m : @M W A) (k : A -> @M W B) :
  ends m -> (forall a, ends (k a)) -> ends (bind m k).
Proof.
  intros Hm Hk w. unfold bind. specialize (Hm w).
  destruct (m w) as [w' [a| |]]; simpl in *; [apply Hk|done|done].
Qed.

Lemma ends_w_Write (p : list byte) : ends (w_Write WriterWrite p).
Proof.
  intros w. unfold w_Write.
  pose proof (Write_loop_fuel WriterWrite (S (length p)) w p 0) as H.
  unfold Write. destruct (Write_loop _ _ _ _ _) as [w' [r| |]]; simpl in *;
    [done|done|]. exfalso. by apply H; [lia|].
Qed.

Lemma ends_for_range {A : Type} (l : list A) (body : A -> @M W unit) :
  (forall x, ends (body x)) -> ends (for_range l body).
Proof.
  intros Hb. induction l as [|x l IH]; simpl; [apply ends_ret|].
  apply ends_bind; [apply Hb|done].
Qed.

Lemma ends_load_fileSet (pkg : Archive) :
  @ends W unit (load_fileSet FileSet_Read pkg).
Proof.
  intros w. unfold load_fileSet.
  destruct (MappingCallback w); [|done].
  destruct (FileSet pkg) as [data|]; [|done].
  unfold bind, set_fileSet, lift. simpl. by destruct (FileSet_Read data).
Qed.

Lemma ends_WritePkgCode (pkg : Archive) (minify : bool) :
  ends (WritePkgCode WriterWrite removeWhitespace FileSet_Read pkg minify).
Proof.
  unfold WritePkgCode. cbv zeta.
  repeat first
    [ apply ends_load_fileSet
    | apply ends_w_Write
    | apply ends_ret
    | apply ends_for_range; intros ?
    | apply ends_bind; [|intros ?]
    | destruct (decide _) ].
Qed.

Lemma bind_panics {A B : Type} (m : @M W A) (k : A -> @M W B) :
  ends m -> (forall a w, (k a w).2 = Panicked) ->
  forall w, (bind m k w).2 = Panicked.
Proof.
  intros Hm Hk w. unfold bind. specialize (Hm w).
  destruct (m w) as [w' [a| |]]; simpl in *; [apply Hk|done|done].
Qed.

Lemma collect_type_names_unregistered (t : Compiler) (pkgs : list Archive)
  (index : gmap string (list DeclPtr)) (acc : list TypeName) (pkg : Archive) :
  pkg ∈ pkgs -> typesPackages t !! ImportPath pkg = None ->
  collect_type_names t pkgs index acc = Panicked.
Proof.
  intros Hin Hnone. revert acc.
  induction pkgs as [|p pkgs IH]; intros acc; [by apply not_elem_of_nil in Hin|].
  simpl. destruct (typesPackages t !! ImportPath p) as [tp|] eqn:Hp; [|done].
  apply elem_of_cons in Hin as [->|Hin]; [congruence|]. by apply IH.
Qed.

(** [WriteProgramCode] panics when the compiler has no type package for
    the import path of one of the archives (the lookup in
    [typesPackages] gives [nil], whose [Scope] is asked for): whatever
    the writer and the archives, the call does not return. *)
Theorem WriteProgramCode_unregistered_panics (t : Compiler)
  (pkgs : list Archive) (mainPkgPath : string) (minify : bool)
  (w : SourceMapFilter W) (pkg : Archive) :
  pkg ∈ pkgs -> typesPackages t !! ImportPath pkg = None ->
  (WriteProgramCode WriterWrite removeWhitespace prelude TrimSpace
     FileSet_Read AssignableTo range_keys t pkgs mainPkgPath minify w).2 =
    Panicked.
Proof.
  intros Hin Hnone.
  destruct (dce_run pkgs) as (st & P & Hdce & Hinv & _).
  pose proof (inv_shape _ _ _ _ _ Hinv) as Hs.
  assert (exists pkg', pkg' ∈ st_pkgs st /\
                       typesPackages t !! ImportPath pkg' = None)
    as (pkg' & Hin' & Hnone').
  { apply list_elem_of_lookup in Hin as [i Hi].
    destruct (Forall2_lookup_l _ _ _ _ _ Hs Hi) as (a & Ha & Hsa).
    exists a. split; [by eapply list_elem_of_lookup_2|].
    destruct Hsa as (-> & _). done. }
  unfold WriteProgramCode. rewrite Hdce.
  change (bind (lift (Returned st)) ?k w) with (k st w).
  revert w.
  apply bind_panics; [apply ends_w_Write|]. intros _.
  apply bind_panics; [apply ends_w_Write|]. intros _.
  apply bind_panics; [apply ends_w_Write|]. intros _.
  apply bind_panics.
  { apply ends_for_range. intros a. apply ends_WritePkgCode. }
  intros _ w.
  by rewrite (collect_type_names_unregistered t (st_pkgs st) _ _ pkg').
Qed.

(** ** The file set that mappings are reported with *)

Lemma reports_with_ret {A : Type} (fs : option token_FileSet) (a : A) :
  reports_with fs (@ret W A a).
Proof.
  intros w Hw. simpl. split_and!; [done..|].
  exists []. by rewrite app_nil_r.
Qed.

Lemma reports_with_lift {A : Type} (fs : option token_FileSet)
  (x : outcome A) : reports_with fs (@lift W A x).
Proof.
  intros w Hw. simpl. split_and!; [done..|].
  exists []. by rewrite app_nil_r.
Qed.

Lemma reports_with_bind {A B : Type} (fs : option token_FileSet)
  (m : @M W A) (k : A -> @M W B) :
  reports_with fs m -> (forall a, reports_with fs (k a)) ->
  reports_with fs (bind m k).
Proof.
  intros Hm Hk w Hw. destruct (Hm w Hw) as (F & C & l & Hl & Hall).
  unfold bind. destruct (m w) as [w1 [a| |]]; simpl in *;
    [|split_and!; [done..|by exists l] ..].
  destruct (Hk a w1 F) as (F2 & C2 & l2 & Hl2 & Hall2).
  split_and!; [done|congruence|].
  exists (l ++ l2). rewrite Hl2, Hl, app_assoc. split; [done|].
  by apply Forall_app.
Qed.

Lemma reports_with_for_range {A : Type} (fs : option token_FileSet)
  (l : list A) (body : A -> @M W unit) :
  (forall x, reports_with fs (body x)) -> reports_with fs (for_range l body).
Proof.
  intros Hb. induction l as [|x l IH]; simpl; [apply reports_with_ret|].
  apply reports_with_bind; [apply Hb|done].
Qed.

Lemma Write_loop_reports (fuel : nat) (f : SourceMapFilter W)
  (p : list byte) (n : Z) :
  let r := Write_loop WriterWrite fuel f p n in
  fileSet r.1 = fileSet f /\ MappingCallback r.1 = MappingCallback f /\
  exists l, mapped r.1 = mapped f ++ l /\
            Forall (fun x => mappingFileSet x = fileSet f) l.
Proof.
  revert f p n. induction fuel as [|fuel IH]; intros f p n.
  { simpl. split_and!; [done..|]. exists []. by rewrite app_nil_r. }
  cbn [Write_loop].
  destruct (WriterWrite (Writer f) _) as [ws [n2 err]].
  destruct (advance _ _ _ _) as [[l c]|].
  2: { simpl. split_and!; [done..|]. exists []. by rewrite app_nil_r. }
  assert (forall out : outcome (Z * option error),
    let r := ({| Writer := ws; MappingCallback := MappingCallback f;
                 line := l; column := c; fileSet := fileSet f;
                 mapped := mapped f |}, out) in
    fileSet r.1 = fileSet f /\ MappingCallback r.1 = MappingCallback f /\
    exists l0, mapped r.1 = mapped f ++ l0 /\
               Forall (fun x => mappingFileSet x = fileSet f) l0) as Hstop.
  { intros out. simpl. split_and!; [done..|]. exists []. by rewrite app_nil_r. }
  destruct err as [e|]; [apply Hstop|].
  destruct (IndexByte p sentinel) as [i|]; [|apply Hstop].
  destruct (decide (i + 5 <= length p)); [|apply Hstop].
  set (g := {| Writer := ws; MappingCallback := MappingCallback f; line := l;
               column := c; fileSet := fileSet f; mapped := mapped f |}).
  destruct (IH (invoke g (Uint32 (take 4 (drop (S i) p)))) (drop (i + 5) p)
              (int_add (int_add n n2) 5)) as (F & C & l2 & Hl2 & Hall2).
  revert F C Hl2 Hall2. unfold invoke, g. simpl.
  destruct (MappingCallback f); simpl; intros F C Hl2 Hall2;
    (split_and!; [done..|]).
  - eexists. rewrite Hl2, <- app_assoc. split; [done|].
    apply Forall_app. split; [|done]. by apply Forall_singleton.
  - by exists l2.
Qed.

Lemma reports_with_w_Write (fs : option token_FileSet) (p : list byte) :
  reports_with fs (w_Write WriterWrite p).
Proof.
  intros w Hw. unfold w_Write, Write.
  pose proof (Write_loop_reports (S (length p)) w p 0) as H.
  destruct (Write_loop _ _ _ _ _) as [w' [r| |]]; simpl in *; by rewrite <- Hw.
Qed.

(** While the code of a package is written, every mapping reported
    carries one and the same file set: the one decoded from the
    archive's [FileSet] when a callback is set and the archive has one
    (the empty file set when it does not decode, and then the call
    panics before it writes), and otherwise the file set that the filter
    held before, which is that of the package written last. *)
Theorem WritePkgCode_mappings_fileSet (pkg : Archive) (minify : bool)
  (w : SourceMapFilter W) :
  let w' := (WritePkgCode WriterWrite removeWhitespace FileSet_Read
               pkg minify w).1 in
  fileSet w' = fileSet_in_effect FileSet_Read w pkg /\
  exists l, mapped w' = mapped w ++ l /\
            Forall (fun x => mappingFileSet x =
                             fileSet_in_effect FileSet_Read w pkg) l.
Proof.
  unfold WritePkgCode. set (rest := fun _ : unit => _).
  assert (forall fs, reports_with fs (rest tt)) as Hrest.
  { intros fs. unfold rest. cbv zeta.
    repeat first
      [ apply reports_with_w_Write
      | apply reports_with_ret
      | apply reports_with_for_range; intros ?
      | apply reports_with_bind; [|intros ?]
      | destruct (decide _) ]. }
  assert (forall w1, mapped w1 = mapped w ->
            let w' := (rest tt w1).1 in
            fileSet w' = fileSet w1 /\
            exists l, mapped w' = mapped w ++ l /\
                      Forall (fun x => mappingFileSet x = fileSet w1) l)
    as Hrun.
  { intros w1 Hm. destruct (Hrest (fileSet w1) w1 eq_refl) as (F & _ & l & Hl & H).
    simpl. split; [done|]. exists l. by rewrite <- Hm. }
  unfold bind, load_fileSet, fileSet_in_effect.
  destruct (MappingCallback w) eqn:Ecb; [|by apply Hrun].
  destruct (FileSet pkg) as [data|]; [|by apply Hrun].
  unfold bind, set_fileSet, lift. simpl.
  destruct (FileSet_Read data) as [fs|]; simpl.
  - by apply Hrun.
  - split; [done|]. exists []. by rewrite app_nil_r.
Qed.
End LinkerRuns.
Lemma WriteProgramCode_unregistered_panics_witness :
  (WriteProgramCode Buffer_Write keep_whitespace "PRELUDE" id no_FileSet
     never_assignable map_order no_packages hello_program "main" false
     (new_filter false)).2 = Panicked.
Proof.
  apply (WriteProgramCode_unregistered_panics Buffer_Write keep_whitespace
           "PRELUDE" id no_FileSet never_assignable map_order no_packages
           hello_program "main" false (new_filter false)
           (example_archive "main" [example_decl "x" [] []])).
  - by left.
  - reflexivity.
Defined.

(** ** What a run that panics leaves in the buffer *)

Lemma bind_returned {W A B : Type} (m : @M W A) (k : A -> @M W B)
  (w w' : SourceMapFilter W) (a : A) :
  m w = (w', Returned a) -> bind m k w = k a w'.
Proof. intros H. unfold bind. by rewrite H. Qed.

Section Truncated.
Variable removeWhitespace : list byte -> bool -> list byte.
Variable prelude : string.
Variable TrimSpace : string -> string.
Variable FileSet_Read : list byte -> option token_FileSet.
Variable AssignableTo : GoType -> Interface -> bool.
Variable range_keys : gmap string bool -> list string.

Lemma writes_packages (cb : bool) (pkgs : list Archive) (minify : bool) :
  fileSets_ok FileSet_Read cb pkgs ->
  writes cb
    (bind (w_Write Buffer_Write program_header) (fun _ =>
     bind (w_Write Buffer_Write
             (removeWhitespace (bytes (TrimSpace prelude)) minify)) (fun _ =>
     bind (w_Write Buffer_Write (bytes nl)) (fun _ =>
     for_range pkgs (fun pkg =>
       WritePkgCode Buffer_Write removeWhitespace FileSet_Read pkg minify)))))
    (packages_plan removeWhitespace prelude TrimSpace pkgs minify) tt.
Proof.
  intros Hfs. unfold packages_plan.
  apply (writes_bind cb _ _ [_] _ tt); [apply writes_w_Write|].
  apply (writes_bind cb _ _ [_] _ tt); [apply writes_w_Write|].
  apply (writes_bind cb _ _ [_] _ tt); [apply writes_w_Write|].
  apply (writes_for_range cb _ _
           (fun pkg => pkg_plan removeWhitespace pkg minify)).
  intros pkg Hpkg. apply writes_WritePkgCode.
  intros Hcb p data Hp Hd. apply list_elem_of_singleton in Hp. subst p.
  by eapply Hfs.
Qed.

(** When the type package of an archive is missing, the panic of
    [WriteProgramCode] comes late: by then the DCE has run and the
    opening boilerplate, the prelude and the code of every package are
    in the buffer, and nothing after them; the output is left without
    tables, init calls and the call of [main]. *)
Theorem WriteProgramCode_panics_after_packages (t : Compiler)
  (pkgs : list Archive) (mainPkgPath : string) (minify : bool)
  (w : SourceMapFilter (list byte)) (pkg : Archive) :
  pkg ∈ pkgs -> typesPackages t !! ImportPath pkg = None ->
  fileSets_ok FileSet_Read (MappingCallback w) pkgs ->
  int_wrap (column w) = column w ->
  exists st,
    dce pkgs = Returned st /\
    (Forall (fun p => complete_cookies p = true)
       (packages_plan removeWhitespace prelude TrimSpace (st_pkgs st) minify) ->
     exists w',
       WriteProgramCode Buffer_Write removeWhitespace prelude TrimSpace
         FileSet_Read AssignableTo range_keys t pkgs mainPkgPath minify w =
         (w', Panicked) /\
       Writer w' =
         Writer w ++
         strip program_header ++
         strip (removeWhitespace (bytes (TrimSpace prelude)) minify) ++
         strip (bytes nl) ++
         concat (strip <$>
           (st_pkgs st ≫= fun pkg => pkg_plan removeWhitespace pkg minify))).
Proof.
  intros Hin Hnone Hfs Hc.
  destruct (dce_run pkgs) as (st & P & Hdce & Hinv & _).
  pose proof (inv_shape _ _ _ _ _ Hinv) as Hs.
  exists st. split; [done|]. intros Hall.
  assert (exists pkg', pkg' ∈ st_pkgs st /\
                       typesPackages t !! ImportPath pkg' = None)
    as (pkg' & Hin' & Hnone').
  { apply list_elem_of_lookup in Hin as [i Hi].
    destruct (Forall2_lookup_l _ _ _ _ _ Hs Hi) as (a & Ha & Hsa).
    exists a. split; [by eapply list_elem_of_lookup_2|].
    destruct Hsa as (-> & _). done. }
  assert (fileSets_ok FileSet_Read (MappingCallback w) (st_pkgs st)) as Hfs'.
  { intros Hcb p data Hp Hd.
    destruct (same_shape_elem _ _ _ Hs Hp) as (a0 & Ha0 & Hsa).
    destruct Hsa as (_ & _ & _ & _ & _ & Hf & _). rewrite Hf in Hd.
    by eapply Hfs. }
  destruct (writes_packages (MappingCallback w) (st_pkgs st) minify Hfs' w
              eq_refl Hc Hall) as (w' & Hrun & Hw & _).
  exists w'. split.
  - unfold WriteProgramCode. rewrite Hdce.
    change (bind (lift (Returned st)) ?k w) with (k st w).
    revert Hrun. unfold bind.
    destruct (w_Write Buffer_Write _ w) as [w1 [[]| |]]; [|done|done].
    destruct (w_Write Buffer_Write _ w1) as [w2 [[]| |]]; [|done|done].
    destruct (w_Write Buffer_Write _ w2) as [w3 [[]| |]]; [|done|done].
    intros ->.
    by rewrite (collect_type_names_unregistered t (st_pkgs st) _ _ pkg').
  - rewrite Hw. unfold sink_after, packages_plan.
    rewrite !fmap_app, !concat_app. simpl. rewrite ?app_nil_r.
    by rewrite <- ?app_assoc.
Qed.

(** ** A compiler made of empty type packages *)

Lemma foldl_NewEmptyTypesPackage_other (paths : list string) (t : Compiler)
  (path : string) :
  path ∉ paths ->
  typesPackages (foldl NewEmptyTypesPackage t paths) !! path =
    typesPackages t !! path.
Proof.
  revert t. induction paths as [|q paths IH]; intros t Hnot; [done|].
  apply not_elem_of_cons in Hnot as [Hne Hnot]. simpl.
  rewrite IH by done. simpl. by rewrite lookup_insert_ne.
Qed.

Lemma foldl_NewEmptyTypesPackage_lookup (paths : list string) (t : Compiler)
  (path : string) :
  path ∈ paths ->
  typesPackages (foldl NewEmptyTypesPackage t paths) !! path =
    Some (NewPackage path path).
Proof.
  revert t. induction paths as [|q paths IH]; intros t Hin;
    [by apply not_elem_of_nil in Hin|].
  simpl. destruct (decide (path ∈ paths)) as [Hp|Hp]; [by apply IH|].
  apply elem_of_cons in Hin as [->|Hin]; [|done].
  rewrite foldl_NewEmptyTypesPackage_other by done. simpl.
  by rewrite lookup_insert_eq.
Qed.

Lemma fresh_compiler_scopes_ok (types_Unsafe : types_Package)
  (paths : list string) :
  scopes_ok (New types_Unsafe) -> scopes_ok (fresh_compiler types_Unsafe paths).
Proof.
  intros Hok path tp name tn Htp Hs. unfold fresh_compiler in Htp.
  destruct (decide (path ∈ paths)) as [Hp|Hp].
  - rewrite foldl_NewEmptyTypesPackage_lookup in Htp by done.
    injection Htp as <-. simpl in Hs. by rewrite lookup_empty in Hs.
  - rewrite foldl_NewEmptyTypesPackage_other in Htp by done. by eapply Hok.
Qed.

Lemma used_type_names_empty (path : PkgPath)
  (index : gmap string (list DeclPtr)) :
  used_type_names path ∅ index = [].
Proof.
  unfold used_type_names, Scope_Names. by rewrite dom_empty_L, elements_empty.
Qed.

Lemma fresh_compiler_candidates (types_Unsafe : types_Package)
  (paths : list string) (pkgs : list Archive)
  (index : gmap string (list DeclPtr)) :
  (forall pkg, pkg ∈ pkgs -> ImportPath pkg ∈ paths) ->
  candidates (fresh_compiler types_Unsafe paths) pkgs index = [universe_error].
Proof.
  intros Hreg. unfold candidates. f_equal.
  induction pkgs as [|pkg pkgs IH]; [done|].
  change ((pkg :: pkgs) ≫= ?f) with (f pkg ++ (pkgs ≫= f)).
  rewrite IH by (intros p Hp; apply Hreg; by right).
  unfold fresh_compiler.
  rewrite foldl_NewEmptyTypesPackage_lookup by (apply Hreg; by left).
  simpl. by rewrite used_type_names_empty.
Qed.

Lemma table_plan_error_alone (minify : bool) :
  table_plan removeWhitespace AssignableTo [universe_error] minify =
    [empty_error_table removeWhitespace minify].
Proof. reflexivity. Qed.

Hypothesis range_keys_perm :
  forall m : gmap string bool, range_keys m ≡ₚ (map_to_list m).*1.

(** A compiler made by [New] and one [NewEmptyTypesPackage] per import
    path links the archives without any type information: every lookup
    of a package succeeds, no scope holds a type name, and the one table
    written, between the package blocks and the init calls, is that of
    the built-in [error], with no implementor. *)
Theorem fresh_compiler_links (types_Unsafe : types_Package)
  (pkgs : list Archive) (mainPkgPath : string) (minify : bool)
  (w : SourceMapFilter (list byte)) :
  scopes_ok (New types_Unsafe) ->
  fileSets_ok FileSet_Read (MappingCallback w) pkgs ->
  int_wrap (column w) = column w ->
  let t := fresh_compiler types_Unsafe (ImportPath <$> pkgs) in
  exists st,
    dce pkgs = Returned st /\
    (Forall (fun p => complete_cookies p = true)
       (program_plan removeWhitespace prelude TrimSpace AssignableTo t
          (st_pkgs st) (declsByObject st) mainPkgPath minify) ->
     exists w',
       WriteProgramCode Buffer_Write removeWhitespace prelude TrimSpace
         FileSet_Read AssignableTo range_keys t pkgs mainPkgPath minify w =
         (w', Returned (st_pkgs st)) /\
       Writer w' =
         Writer w ++
         strip program_header ++
         strip (removeWhitespace (bytes (TrimSpace prelude)) minify) ++
         strip (bytes nl) ++
         concat (strip <$>
           (st_pkgs st ≫= fun pkg => pkg_plan removeWhitespace pkg minify)) ++
         strip (empty_error_table removeWhitespace minify) ++
         concat (strip <$> (init_call <$> pkgs)) ++
         strip (entry_call mainPkgPath)).
Proof.
  intros Hok Hfs Hc t.
  destruct (dce_run pkgs) as (st & P & Hdce & Hinv & _).
  pose proof (inv_shape _ _ _ _ _ Hinv) as Hs.
  exists st. split; [done|]. intros Hall.
  assert (forall pkg, pkg ∈ st_pkgs st ->
            ImportPath pkg ∈ ImportPath <$> pkgs) as Hpaths.
  { intros pkg Hpkg.
    destruct (same_shape_elem _ _ _ Hs Hpkg) as (a0 & Ha0 & Hsa).
    destruct Hsa as (-> & _). by apply list_elem_of_fmap_2. }
  destruct (writes_WriteProgramCode removeWhitespace prelude TrimSpace
              FileSet_Read AssignableTo range_keys range_keys_perm
              (MappingCallback w) t pkgs mainPkgPath minify st Hdce)
    with (w := w) as (w' & Hrun & Hw & _); try done.
  - intros pkg Hpkg. unfold t, fresh_compiler.
    rewrite foldl_NewEmptyTypesPackage_lookup by (by apply Hpaths).
    by eexists.
  - by apply fresh_compiler_scopes_ok.
  - intros Hcb pkg data Hpkg Hd.
    destruct (same_shape_elem _ _ _ Hs Hpkg) as (a0 & Ha0 & Hsa).
    destruct Hsa as (_ & _ & _ & _ & _ & Hf & _). rewrite Hf in Hd.
    by eapply Hfs.
  - exists w'. split; [done|]. rewrite Hw.
    unfold sink_after, program_plan. f_equal.
    unfold t at 1. rewrite fresh_compiler_candidates by done.
    rewrite table_plan_error_alone.
    rewrite !fmap_app, !concat_app. simpl. rewrite !app_nil_r.
    rewrite (same_shape_init_calls _ _ Hs).
    by rewrite <- !app_assoc.
Qed.
End Truncated.

Lemma WriteProgramCode_panics_after_packages_witness :
  exists st,
    dce hello_program = Returned st /\
    (Forall (fun p => complete_cookies p = true)
       (packages_plan keep_whitespace "PRELUDE" id (st_pkgs st) false) ->
     exists w',
       WriteProgramCode Buffer_Write keep_whitespace "PRELUDE" id no_FileSet
         never_assignable map_order no_packages hello_program "main" false
         (new_filter false) = (w', Panicked) /\
       Writer w' =
         Writer (new_filter false) ++
         strip program_header ++
         strip (keep_whitespace (bytes (id "PRELUDE")) false) ++
         strip (bytes nl) ++
         concat (strip <$>
           (st_pkgs st ≫= fun pkg => pkg_plan keep_whitespace pkg false))).
Proof.
  apply (WriteProgramCode_panics_after_packages keep_whitespace "PRELUDE" id
           no_FileSet never_assignable map_order no_packages hello_program
           "main" false (new_filter false)
           (example_archive "main" [example_decl "x" [] []])).
  - by left.
  - reflexivity.
  - exact (hello_fileSets_ok false).
  - reflexivity.
Defined.

Lemma empty_package_scopes_ok : scopes_ok (New (NewPackage "unsafe" "unsafe")).
Proof.
  intros path tp name tn Htp Hs. simpl in Htp.
  apply lookup_singleton_Some in Htp as [_ <-]. simpl in Hs.
  by rewrite lookup_empty in Hs.
Qed.

Lemma fresh_compiler_links_witness :
  exists st,
    dce hello_program = Returned st /\
    (Forall (fun p => complete_cookies p = true)
       (program_plan keep_whitespace "PRELUDE" id never_assignable
          (fresh_compiler (NewPackage "unsafe" "unsafe")
             (ImportPath <$> hello_program))
          (st_pkgs st) (declsByObject st) "main" false) ->
     exists w',
       WriteProgramCode Buffer_Write keep_whitespace "PRELUDE" id no_FileSet
         never_assignable map_order
         (fresh_compiler (NewPackage "unsafe" "unsafe")
            (ImportPath <$> hello_program))
         hello_program "main" false (new_filter false) =
         (w', Returned (st_pkgs st)) /\
       Writer w' =
         Writer (new_filter false) ++
         strip program_header ++
         strip (keep_whitespace (bytes (id "PRELUDE")) false) ++
         strip (bytes nl) ++
         concat (strip <$>
           (st_pkgs st ≫= fun pkg => pkg_plan keep_whitespace pkg false)) ++
         strip (empty_error_table keep_whitespace false) ++
         concat (strip <$> (init_call <$> hello_program)) ++
         strip (entry_call "main")).
Proof.
  apply (fresh_compiler_links keep_whitespace "PRELUDE" id no_FileSet
           never_assignable map_order map_order_perm
           (NewPackage "unsafe" "unsafe") hello_program "main" false
           (new_filter false)).
  - exact empty_package_scopes_ok.
  - exact (hello_fileSets_ok false).
  - reflexivity.
Defined.
(** * Linking again, and linking more *)

(** ** More references keep more code *)

Lemma more_references_get_decl (pkgs1 pkgs2 : list Archive) (d : DeclPtr)
  (a1 : Archive) (dc1 : Decl) :
  more_references pkgs1 pkgs2 ->
  pkgs1 !! d.1 = Some a1 -> Declarations a1 !! d.2 = Some dc1 ->
  exists a2 dc2,
    pkgs2 !! d.1 = Some a2 /\ Declarations a2 !! d.2 = Some dc2 /\
    ImportPath a1 = ImportPath a2 /\
    DceFilters dc2 ⊆ DceFilters dc1 /\ DceDeps dc1 ⊆ DceDeps dc2.
Proof.
  intros Hr Ha Hd.
  destruct (Forall2_lookup_l _ _ _ _ _ Hr Ha) as (a2 & Ha2 & Hp & Hds).
  destruct (Forall2_lookup_l _ _ _ _ _ Hds Hd) as (dc2 & Hd2 & Hf & Ho).
  by exists a2, dc2.
Qed.

Lemma Live_more_references (pkgs1 pkgs2 : list Archive) (d : DeclPtr) :
  more_references pkgs1 pkgs2 -> Live pkgs1 d -> Live pkgs2 d.
Proof.
  intros Hr. revert d. apply Live_strong_ind.
  intros d a1 dc1 Ha Hd Hf.
  destruct (more_references_get_decl _ _ _ _ _ Hr Ha Hd)
    as (a2 & dc2 & Ha2 & Hd2 & Hp & Hfs & _).
  apply (Live_intro pkgs2 d a2 dc2 Ha2 Hd2). intros f Hin.
  apply Hfs in Hin. destruct (Hf f Hin) as (d' & dc' & [_ Hl] & Hg & Hk).
  apply get_decl_Some in Hg as (a' & Ha' & Hd').
  destruct (more_references_get_decl _ _ _ _ _ Hr Ha' Hd')
    as (a2' & dc2' & Ha2' & Hd2' & _ & _ & Hos).
  exists d', dc2'. split_and!; [done| |].
  - apply get_decl_Some. eauto.
  - rewrite <- Hp. by apply Hos.
Qed.

(** The DCE is monotone: on archives whose paths and filter names hold
    no colon, giving declarations more dependencies, or fewer filters,
    never loses code.  Every declaration that is live after the DCE of
    [pkgs1] is live after the DCE of [pkgs2]. *)
Theorem dce_monotone (pkgs1 pkgs2 : list Archive) :
  well_formed pkgs1 = true -> well_formed pkgs2 = true ->
  more_references pkgs1 pkgs2 ->
  exists st1 st2,
    dce pkgs1 = Returned st1 /\ dce pkgs2 = Returned st2 /\
    forall d, emptied (st_pkgs st1) d -> emptied (st_pkgs st2) d.
Proof.
  intros Hwf1 Hwf2 Hr.
  destruct (dce_emptied_Live pkgs1 Hwf1) as (st1 & Hrun1 & _ & H1).
  destruct (dce_emptied_Live pkgs2 Hwf2) as (st2 & Hrun2 & _ & H2).
  exists st1, st2. split_and!; [done..|].
  intros d Hd. apply H2. eapply Live_more_references; [done|]. by apply H1.
Qed.

Lemma example_more_references :
  more_references example_program
    [example_archive "p"
       [example_decl "A" [] ["p:f"; "p:g"];
        example_decl "B" ["f"] [];
        example_decl "C" ["f"; "g"] []]].
Proof.
  constructor; [|constructor]. split; [done|]. simpl.
  constructor; [|constructor; [|constructor; [|constructor]]];
    (split; [done|]); intros x; simpl;
    rewrite ?elem_of_cons, ?elem_of_nil; tauto.
Qed.

Lemma dce_monotone_witness :
  exists st1 st2,
    dce example_program = Returned st1 /\
    dce [example_archive "p"
           [example_decl "A" [] ["p:f"; "p:g"];
            example_decl "B" ["f"] [];
            example_decl "C" ["f"; "g"] []]] = Returned st2 /\
    forall d, emptied (st_pkgs st1) d -> emptied (st_pkgs st2) d.
Proof.
  apply (dce_monotone example_program).
  - reflexivity.
  - reflexivity.
  - exact example_more_references.
Defined.

(** ** The index after the DCE *)

Lemma no_empty_entry_append (o : string) (d : DeclPtr)
  (m : gmap string (list DeclPtr)) :
  no_empty_entry m -> no_empty_entry (index_append o d m).
Proof.
  intros H o' ds. unfold index_append.
  destruct (decide (o = o')) as [<-|Hne].
  - rewrite lookup_insert_eq. intros [= <-]. by destruct (default [] (m !! o)).
  - rewrite lookup_insert_ne by done. apply H.
Qed.

Lemma no_empty_entry_collect_decls (path : PkgPath) (pi : nat)
  (ds : list Decl) (di : nat) (st : gmap string (list DeclPtr) * list DeclPtr) :
  no_empty_entry st.1 -> no_empty_entry (collect_decls path pi di ds st).1.
Proof.
  revert di st. induction ds as [|dc ds IH]; intros di st H; [done|].
  simpl. apply IH. unfold collect_decl. destruct (decide _); [done|]. simpl.
  generalize (DceFilters dc). intros fs. revert H. generalize st.1.
  induction fs as [|f fs IHf]; intros m H; [done|].
  simpl. by apply IHf, no_empty_entry_append.
Qed.

Lemma no_empty_entry_collect_pkgs (pkgs : list Archive) (pi : nat)
  (st : gmap string (list DeclPtr) * list DeclPtr) :
  no_empty_entry st.1 -> no_empty_entry (collect_pkgs pi pkgs st).1.
Proof.
  revert pi st. induction pkgs as [|pkg pkgs IH]; intros pi st H; [done|].
  simpl. by apply IH, no_empty_entry_collect_decls.
Qed.

Lemma no_empty_entry_visit_deps (deps : list DepId) (st st' : dce_state) :
  no_empty_entry (declsByObject st) -> visit_deps deps st = Returned st' ->
  no_empty_entry (declsByObject st').
Proof.
  revert st. induction deps as [|o deps IH]; intros st H; simpl.
  - by intros [= <-].
  - destruct (declsByObject st !! o) as [ds|]; [|by apply IH].
    destruct (Split o !! 1) as [name|]; [|done].
    destruct (release name ds (st_pkgs st) (pendingDecls st)) as [pkgs' pending'].
    apply IH. simpl. intros o' ds' Hl.
    apply lookup_delete_Some in Hl as [_ Hl]. by eapply H.
Qed.

Lemma no_empty_entry_dce_loop (fuel : nat) (st st' : dce_state) :
  no_empty_entry (declsByObject st) -> dce_loop fuel st = Returned st' ->
  no_empty_entry (declsByObject st').
Proof.
  revert st. induction fuel as [|fuel IH]; intros st H; simpl; [done|].
  destruct (pop (pendingDecls st)) as [[pending d]|]; [|by intros [= <-]].
  destruct (get_decl (st_pkgs st) d) as [dc|]; [|done].
  destruct (visit_deps _ _) as [st1| |] eqn:Hv; [|done|done].
  apply IH. by eapply no_empty_entry_visit_deps; [|exact Hv].
Qed.

Lemma no_empty_entry_dce (pkgs : list Archive) (st : dce_state) :
  dce pkgs = Returned st -> no_empty_entry (declsByObject st).
Proof.
  unfold dce. apply no_empty_entry_dce_loop. simpl.
  apply no_empty_entry_collect_pkgs. intros o ds Ho.
  simpl in Ho. by rewrite lookup_empty in Ho.
Qed.

Lemma no_empty_entry_index_at (m : gmap string (list DeclPtr)) (o : string) :
  no_empty_entry m -> m !! o = None <-> index_at m o = [].
Proof.
  intros H. unfold index_at. destruct (m !! o) as [ds|] eqn:Ho; simpl.
  - split; [done|]. intros ->. by destruct (H o [] Ho).
  - done.
Qed.

Lemma visit_deps_none (deps : list DepId) (st : dce_state) :
  (forall dep, dep ∈ deps -> declsByObject st !! dep = None) ->
  visit_deps deps st = Returned st.
Proof.
  induction deps as [|o deps IH]; intros H; [done|]. simpl.
  rewrite (H o) by (by left). apply IH. intros dep Hdep. apply H. by right.
Qed.

Lemma dce_loop_none (fuel : nat) (st : dce_state) :
  length (pendingDecls st) < fuel ->
  (forall d, d ∈ pendingDecls st ->
     exists dc, get_decl (st_pkgs st) d = Some dc /\
                forall dep, dep ∈ DceDeps dc ->
                            declsByObject st !! dep = None) ->
  dce_loop fuel st =
    Returned {| st_pkgs := st_pkgs st; declsByObject := declsByObject st;
                pendingDecls := [] |}.
Proof.
  revert st. induction fuel as [|fuel IH]; intros st Hfuel Hidle; [lia|].
  simpl. destruct (pop (pendingDecls st)) as [[pending d]|] eqn:Hpop.
  - apply pop_Some in Hpop.
    destruct (Hidle d) as (dc & Hdc & Hdeps).
    { rewrite Hpop. apply elem_of_app. right. by apply list_elem_of_singleton. }
    rewrite Hdc. rewrite visit_deps_none by done.
    rewrite IH; [done| |]; simpl.
    + rewrite Hpop, length_app in Hfuel. simpl in Hfuel. lia.
    + intros d' Hd'. apply Hidle. rewrite Hpop. apply elem_of_app. by left.
  - apply pop_None in Hpop. destruct st as [p m q]. simpl in *. by subst q.
Qed.

(** The second run of the DCE leaves the archives as they were and an
    index with the keys that the first run left. *)
Lemma dce_again (pkgs : list Archive) :
  well_formed pkgs = true ->
  exists st st2,
    dce pkgs = Returned st /\ dce (st_pkgs st) = Returned st2 /\
    same_shape pkgs (st_pkgs st) /\
    st_pkgs st2 = st_pkgs st /\
    same_keys (declsByObject st2) (declsByObject st).
Proof.
  intros Hwf.
  destruct (dce_run pkgs) as (st & P & Hrun & Hinv & Hcons & _).
  pose proof (inv_shape _ _ _ _ _ Hinv) as Hs.
  pose proof (no_empty_entry_dce _ _ Hrun) as Hne.
  destruct (dce_initial (st_pkgs st)) as (Hinv2 & Hkeys2 & Hfuel2).
  set (m2 := (collect_pkgs 0 (st_pkgs st) (∅, [])).1) in *.
  assert (no_empty_entry m2) as Hne2.
  { apply no_empty_entry_collect_pkgs. intros o ds Ho.
    simpl in Ho. by rewrite lookup_empty in Ho. }
  assert (same_keys m2 (declsByObject st)) as Hsame.
  { intros o. rewrite !no_empty_entry_index_at by done.
    split; intros H; apply occurrences_all_zero; intros d.
    - rewrite (inv_count _ _ _ _ _ Hinv Hwf o d).
      rewrite <- collect_index_guards. fold m2. by rewrite H.
    - unfold m2. rewrite collect_index_guards.
      rewrite <- (inv_count _ _ _ _ _ Hinv Hwf o d). by rewrite H. }
  exists st. eexists. split; [done|]. split.
  - unfold dce. apply dce_loop_none; simpl; [lia|].
    intros d Hd.
    destruct (inv_pending _ _ _ _ _ Hinv2 d Hd) as (dc & Hdc & He).
    exists dc. split; [done|]. intros dep Hdep. fold m2. apply Hsame.
    destruct (same_shape_get_decl_r _ _ _ _ Hs Hdc)
      as (dc0 & Hdc0 & (_ & _ & _ & Hdeps & _)).
    destruct (inv_emptied _ _ _ _ _ Hinv d) as [Hin|Hin].
    { by exists dc. }
    { by apply not_elem_of_nil in Hin. }
    apply (Hcons d dc0 dep Hin Hdc0). by rewrite <- Hdeps.
  - by split_and!.
Qed.

(** The DCE is idempotent on archives whose paths and filter names hold
    no colon: run on the archives that a first run left behind, it
    returns them as they are, with an index of the same keys.  No filter
    is removed twice, and nothing that stayed dead comes to life in a
    second link of the same archives. *)
Theorem dce_idempotent (pkgs : list Archive) :
  well_formed pkgs = true ->
  exists st st2,
    dce pkgs = Returned st /\ dce (st_pkgs st) = Returned st2 /\
    st_pkgs st2 = st_pkgs st /\
    same_keys (declsByObject st2) (declsByObject st).
Proof.
  intros Hwf.
  destruct (dce_again pkgs Hwf) as (st & st2 & H1 & H2 & _ & H3 & H4).
  by exists st, st2.
Qed.

Lemma dce_idempotent_witness :
  exists st st2,
    dce example_program = Returned st /\ dce (st_pkgs st) = Returned st2 /\
    st_pkgs st2 = st_pkgs st /\
    same_keys (declsByObject st2) (declsByObject st).
Proof. apply (dce_idempotent example_program). reflexivity. Defined.

Lemma used_type_names_same_keys (path : PkgPath) (scope : gmap string Object)
  (m1 m2 : gmap string (list DeclPtr)) :
  same_keys m1 m2 ->
  used_type_names path scope m1 = used_type_names path scope m2.
Proof.
  intros H. unfold used_type_names. apply list_omap_ext.
  apply Forall2_same_length_lookup. split; [done|].
  intros i name name' Hn Hn'. assert (name' = name) as -> by congruence.
  destruct (scope !! name) as [[tn|]|]; [|done|done].
  specialize (H (object_key path name)).
  destruct (m1 !! object_key path name), (m2 !! object_key path name);
    try done.
  - by pose proof (proj2 H eq_refl).
  - by pose proof (proj1 H eq_refl).
Qed.

Lemma candidates_same_keys (t : Compiler) (pkgs : list Archive)
  (m1 m2 : gmap string (list DeclPtr)) :
  same_keys m1 m2 -> candidates t pkgs m1 = candidates t pkgs m2.
Proof.
  intros H. unfold candidates. f_equal.
  induction pkgs as [|pkg pkgs IH]; [done|].
  change ((pkg :: pkgs) ≫= ?f) with (f pkg ++ (pkgs ≫= f)).
  rewrite IH. f_equal.
  destruct (typesPackages t !! ImportPath pkg); [|done].
  by apply used_type_names_same_keys.
Qed.

Section Again.
Variable removeWhitespace : list byte -> bool -> list byte.
Variable prelude : string.
Variable TrimSpace : string -> string.
Variable FileSet_Read : list byte -> option token_FileSet.
Variable AssignableTo : GoType -> Interface -> bool.
Variable range_keys : gmap string bool -> list string.

Hypothesis range_keys_perm :
  forall m : gmap string bool, range_keys m ≡ₚ (map_to_list m).*1.

(** Linking is repeatable.  [WriteProgramCode] changes the archives it
    is given (the DCE drains filter lists in place); called again on the
    archives as it left them, with paths and filter names that hold no
    colon, it runs the DCE to no effect and writes the same bytes once
    more. *)
Theorem WriteProgramCode_again (t : Compiler) (pkgs : list Archive)
  (mainPkgPath : string) (minify : bool) (w : SourceMapFilter (list byte)) :
  well_formed pkgs = true ->
  (forall pkg, pkg ∈ pkgs -> is_Some (typesPackages t !! ImportPath pkg)) ->
  scopes_ok t ->
  fileSets_ok FileSet_Read (MappingCallback w) pkgs ->
  int_wrap (column w) = column w ->
  exists st,
    dce pkgs = Returned st /\
    (Forall (fun p => complete_cookies p = true)
       (program_plan removeWhitespace prelude TrimSpace AssignableTo t
          (st_pkgs st) (declsByObject st) mainPkgPath minify) ->
     exists w1 w2 out,
       WriteProgramCode Buffer_Write removeWhitespace prelude TrimSpace
         FileSet_Read AssignableTo range_keys t pkgs mainPkgPath minify w =
         (w1, Returned (st_pkgs st)) /\
       WriteProgramCode Buffer_Write removeWhitespace prelude TrimSpace
         FileSet_Read AssignableTo range_keys t (st_pkgs st) mainPkgPath
         minify w1 = (w2, Returned (st_pkgs st)) /\
       Writer w1 = Writer w ++ out /\ Writer w2 = Writer w1 ++ out).
Proof.
  intros Hwf Hreg Hok Hfs Hc.
  destruct (dce_again pkgs Hwf) as (st & st2 & Hrun & Hrun2 & Hs & Hp2 & Hk).
  exists st. split; [done|]. intros Hall.
  assert (forall pkg, pkg ∈ st_pkgs st ->
            is_Some (typesPackages t !! ImportPath pkg)) as Hreg'.
  { intros pkg Hpkg.
    destruct (same_shape_elem _ _ _ Hs Hpkg) as (a0 & Ha0 & Hsa).
    destruct Hsa as (-> & _). by apply Hreg. }
  assert (fileSets_ok FileSet_Read (MappingCallback w) (st_pkgs st)) as Hfs'.
  { intros Hcb pkg data Hpkg Hd.
    destruct (same_shape_elem _ _ _ Hs Hpkg) as (a0 & Ha0 & Hsa).
    destruct Hsa as (_ & _ & _ & _ & _ & Hf & _). rewrite Hf in Hd.
    by eapply Hfs. }
  destruct (writes_WriteProgramCode removeWhitespace prelude TrimSpace
              FileSet_Read AssignableTo range_keys range_keys_perm
              (MappingCallback w) t pkgs mainPkgPath minify st Hrun
              Hreg' Hok Hfs' w eq_refl Hc Hall)
    as (w1 & Hrun1 & Hw1 & Hcb1 & Hc1).
  assert (program_plan removeWhitespace prelude TrimSpace AssignableTo t
            (st_pkgs st2) (declsByObject st2) mainPkgPath minify =
          program_plan removeWhitespace prelude TrimSpace AssignableTo t
            (st_pkgs st) (declsByObject st) mainPkgPath minify) as Hplan.
  { unfold program_plan. rewrite Hp2.
    by rewrite (candidates_same_keys t (st_pkgs st) _ _ Hk). }
  destruct (writes_WriteProgramCode removeWhitespace prelude TrimSpace
              FileSet_Read AssignableTo range_keys range_keys_perm
              (MappingCallback w) t (st_pkgs st) mainPkgPath minify st2 Hrun2)
    with (w := w1) as (w2 & Hrun2' & Hw2 & _); try done.
  - by rewrite Hp2.
  - by rewrite Hp2.
  - by rewrite Hplan.
  - exists w1, w2. eexists. rewrite Hp2 in Hrun2'.
    split_and!; [done|done|exact Hw1|]. by rewrite Hw2, Hplan.
Qed.
End Again.

Lemma WriteProgramCode_again_witness :
  exists st,
    dce hello_program = Returned st /\
    (Forall (fun p => complete_cookies p = true)
       (program_plan keep_whitespace "PRELUDE" id never_assignable
          hello_compiler (st_pkgs st) (declsByObject st) "main" false) ->
     exists w1 w2 out,
       WriteProgramCode Buffer_Write keep_whitespace "PRELUDE" id no_FileSet
         never_assignable map_order hello_compiler hello_program "main" false
         (new_filter false) = (w1, Returned (st_pkgs st)) /\
       WriteProgramCode Buffer_Write keep_whitespace "PRELUDE" id no_FileSet
         never_assignable map_order hello_compiler (st_pkgs st) "main" false
         w1 = (w2, Returned (st_pkgs st)) /\
       Writer w1 = Writer (new_filter false) ++ out /\
       Writer w2 = Writer w1 ++ out).
Proof.
  apply (WriteProgramCode_again keep_whitespace "PRELUDE" id no_FileSet
           never_assignable map_order map_order_perm hello_compiler
           hello_program "main" false (new_filter false)).
  - reflexivity.
  - exact hello_registered.
  - exact hello_scopes_ok.
  - exact (hello_fileSets_ok false).
  - reflexivity.
Defined.
(** * No sentinel in the program *)

Lemma clean_ret {A : Type} (a : A) : forwards_clean (ret a).
Proof.
  intros w. exists []. simpl. rewrite app_nil_r. split; [done|].
  apply not_elem_of_nil.
Qed.

Lemma clean_lift {A : Type} (x : outcome A) : forwards_clean (lift x).
Proof.
  intros w. exists []. simpl. rewrite app_nil_r. split; [done|].
  apply not_elem_of_nil.
Qed.

Lemma clean_bind {A B : Type} (m : @M (list byte) A)
  (k : A -> @M (list byte) B) :
  forwards_clean m -> (forall a, forwards_clean (k a)) ->
  forwards_clean (bind m k).
Proof.
  intros Hm Hk w. destruct (Hm w) as (out & Hout & Hfresh).
  unfold bind. destruct (m w) as [w1 [a| |]]; simpl in *;
    [|by exists out..].
  destruct (Hk a w1) as (out2 & Hout2 & Hfresh2).
  exists (out ++ out2). rewrite Hout2, Hout, app_assoc. split; [done|].
  rewrite elem_of_app. tauto.
Qed.

Lemma clean_for_range {A : Type} (l : list A)
  (body : A -> @M (list byte) unit) :
  (forall x, forwards_clean (body x)) -> forwards_clean (for_range l body).
Proof.
  intros Hb. induction l as [|x l IH]; simpl; [apply clean_ret|].
  apply clean_bind; [apply Hb|done].
Qed.

Lemma clean_w_Write (p : list byte) : forwards_clean (w_Write Buffer_Write p).
Proof.
  intros w. exists (strip p). unfold w_Write.
  destruct (Write_loop_sink (S (length p)) w p 0) as [H _]; [lia|].
  destruct (strip_fresh_bounded (length p) p) as [Hfresh _]; [done|].
  unfold Write. by destruct (Write_loop _ _ _ _ _) as [w' [r| |]].
Qed.

Lemma clean_load_fileSet
  (FileSet_Read : list byte -> option token_FileSet) (pkg : Archive) :
  forwards_clean (load_fileSet FileSet_Read pkg).
Proof.
  intros w. exists []. rewrite app_nil_r. split; [|apply not_elem_of_nil].
  unfold load_fileSet. destruct (MappingCallback w); [|done].
  destruct (FileSet pkg) as [data|]; [|done].
  unfold bind, set_fileSet, lift. simpl. by destruct (FileSet_Read data).
Qed.

(** The program that [WriteProgramCode] leaves in a buffer holds no
    sentinel byte beyond those the buffer held before: whatever the
    archives carry in their code, complete cookies or not, and whether
    the call returns or panics, every byte it adds is an ordinary one. *)
Theorem WriteProgramCode_no_sentinel
  (removeWhitespace : list byte -> bool -> list byte) (prelude : string)
  (TrimSpace : string -> string)
  (FileSet_Read : list byte -> option token_FileSet)
  (AssignableTo : GoType -> Interface -> bool)
  (range_keys : gmap string bool -> list string)
  (t : Compiler) (pkgs : list Archive) (mainPkgPath : string)
  (minify : bool) (w : SourceMapFilter (list byte)) :
  exists out,
    Writer (WriteProgramCode Buffer_Write removeWhitespace prelude TrimSpace
              FileSet_Read AssignableTo range_keys t pkgs mainPkgPath minify
              w).1 = Writer w ++ out /\
    sentinel ∉ out.
Proof.
  revert w. change (forwards_clean
    (WriteProgramCode Buffer_Write removeWhitespace prelude TrimSpace
       FileSet_Read AssignableTo range_keys t pkgs mainPkgPath minify)).
  assert (forall pkg, forwards_clean
            (WritePkgCode Buffer_Write removeWhitespace FileSet_Read pkg minify))
    as Hpkg.
  { intros pkg. unfold WritePkgCode. cbv zeta.
    repeat first
      [ apply clean_load_fileSet
      | apply clean_w_Write
      | apply clean_ret
      | apply clean_for_range; intros ?
      | apply clean_bind; [|intros ?]
      | destruct (decide _) ]. }
  assert (forall all tn, forwards_clean
            (write_table Buffer_Write removeWhitespace AssignableTo range_keys
               all minify tn)) as Htable.
  { intros all tn. unfold write_table.
    destruct (underlying tn) as [i| |]; try apply clean_ret.
    destruct (Empty i); [apply clean_ret|]. cbv zeta.
    apply clean_bind; [apply clean_lift|intros ?].
    apply clean_bind; [apply clean_lift|intros ?].
    apply clean_w_Write. }
  unfold WriteProgramCode. cbv zeta.
  repeat first
    [ apply clean_lift
    | apply clean_w_Write
    | apply clean_ret
    | apply clean_for_range; intros ?
    | apply Hpkg
    | apply Htable
    | apply clean_bind; [|intros ?] ].
Qed.

(** * Parsing a package *)

Section ParseFacts.
Context {Err Reader Rest : Type}.
Variable Err_Error : Err -> string.
Variable build_Default : build.Context.
Variable Context_Import :
  build.Context -> string -> string -> Z -> build.Package * option Err.
Variable os_Stat : string -> option Err.
Variable os_IsNotExist : Err -> bool.
Variable os_Open : string -> Reader + Err.
Variable filepath_Join : string -> string -> string.
Variable filepath_Base : string -> string.
Variable filepath_IsAbs : string -> bool.
Variable parser_ParseFile :
  token_FileSet -> string -> option Reader -> Z ->
  token_FileSet * (ast.File Rest + Err).
Variable as_scanner_ErrorList : Err -> option (list Err).
Variable applyPatches :
  ast.File Rest -> token_FileSet -> string ->
  option (token_FileSet * ast.File Rest).

Local Abbreviation the_Import :=
  (Import build_Default Context_Import os_Stat os_IsNotExist filepath_Join
     filepath_Base).
Local Abbreviation the_natives :=
  (natives_of build_Default Context_Import os_Stat os_IsNotExist
     filepath_Join filepath_Base).
Local Abbreviation the_parse_natives :=
  (parse_natives filepath_Join parser_ParseFile).
Local Abbreviation the_parse_files :=
  (parse_files os_Open filepath_Join filepath_IsAbs parser_ParseFile
     as_scanner_ErrorList applyPatches).
Local Abbreviation the_Parse :=
  (Parse build_Default Context_Import os_Stat os_IsNotExist os_Open
     filepath_Join filepath_Base filepath_IsAbs parser_ParseFile
     as_scanner_ErrorList applyPatches).
Local Abbreviation the_name := (source_name filepath_Join filepath_IsAbs).
Local Abbreviation the_natives_dir :=
  (natives_dir_of build_Default Context_Import os_Stat os_IsNotExist
     filepath_Join filepath_Base).
Local Abbreviation the_natives_parsed :=
  (natives_parsed filepath_Join parser_ParseFile).
Local Abbreviation the_files_patched :=
  (files_patched os_Open filepath_Join filepath_IsAbs parser_ParseFile
     as_scanner_ErrorList applyPatches).

(** ** The package that [Import] returns *)

(** [Import] returns no package for the path [C] only, with its own
    error and without a look at the build context.  For any other path
    it returns a package, also when it returns an error, and the object
    file of that package has been looked for under [GOPATH] when it was
    missing under [GOROOT]: it is never the case that the returned
    [PkgObj] is missing and under [GOROOT] while its twin under [GOPATH]
    exists. *)
Theorem Import_settles_PkgObj (path : string) (mode : Z) (archSuffix : string) :
  match the_Import path mode archSuffix with
  | (None, err) => path = "C"%string /\ err = Some ImportCError
  | (Some pkg, err) =>
      path <> "C"%string /\
      ~ (not_exist os_Stat os_IsNotExist (build.PkgObj pkg) = true /\
         HasPrefix (build.PkgObj pkg) (build.GOROOT build_Default) = true /\
         os_Stat (gopath_twin build_Default (build.PkgObj pkg)) = None)
  end.
Proof.
  unfold Import. destruct (decide (path = "C")) as [->|Hne]; [done|].
  destruct (Context_Import _ path EmptyString mode) as [pkg0 err0].
  set (pkg1 := if decide (path = "hash/crc32") then _ else pkg0).
  set (pkg2 := if build.IsCommand pkg1 then _ else pkg1).
  fold (not_exist os_Stat os_IsNotExist (build.PkgObj pkg2)).
  fold (gopath_twin build_Default (build.PkgObj pkg2)).
  split; [done|].
  destruct (not_exist os_Stat os_IsNotExist (build.PkgObj pkg2)) eqn:Hmiss;
    simpl.
  - destruct (HasPrefix (build.PkgObj pkg2) (build.GOROOT build_Default))
      eqn:Hpre; simpl.
    + destruct (os_Stat (gopath_twin build_Default (build.PkgObj pkg2)))
        as [e|] eqn:Htwin.
      * intros (_ & _ & H). congruence.
      * simpl. intros (H & _). unfold not_exist in H. by rewrite Htwin in H.
    + intros (_ & H & _). congruence.
  - intros (H & _). congruence.
Qed.

(** ** The names that the natives replace *)

Lemma note_replaced_spec (decls : list (ast.Decl Rest))
  (m m' : gmap string bool) :
  note_replaced decls m = Returned m' ->
  forall n, m' !! n = Some true <->
            m !! n = Some true \/
            exists d, ast.Func d ∈ decls /\ funcName d = Returned n.
Proof.
  revert m. induction decls as [|decl decls IH]; intros m; simpl.
  - intros [= <-] n. split; [by left|].
    intros [?|(d & Hd & _)]; [done|]. by apply not_elem_of_nil in Hd.
  - destruct decl as [d|r].
    + destruct (funcName d) as [name| |] eqn:Hname; simpl; [|done|done].
      intros H n. rewrite (IH _ H n). split.
      * intros [Hl|(d' & Hd' & Hn)].
        -- destruct (decide (name = n)) as [<-|Hne].
           ++ right. exists d. split; [by left|done].
           ++ left. by rewrite lookup_insert_ne in Hl.
        -- right. exists d'. split; [by right|done].
      * intros [Hl|(d' & Hd' & Hn)].
        -- left. destruct (decide (name = n)) as [<-|Hne].
           ++ by rewrite lookup_insert_eq.
           ++ by rewrite lookup_insert_ne.
        -- apply elem_of_cons in Hd' as [[= <-]|Hd'].
           ++ left. rewrite Hname in Hn. injection Hn as <-.
              by rewrite lookup_insert_eq.
           ++ right. by exists d'.
    + intros H n. rewrite (IH _ H n). split.
      * intros [?|(d' & Hd' & Hn)]; [by left|].
        right. exists d'. split; [by right|done].
      * intros [?|(d' & Hd' & Hn)]; [by left|].
        apply elem_of_cons in Hd' as [?|Hd']; [done|].
        right. by exists d'.
Qed.

Lemma parse_natives_spec (dir : string) (names : list string)
  (fs fs' : token_FileSet) (files files' : list (ast.File Rest))
  (m m' : gmap string bool) :
  the_parse_natives dir names fs files m = Returned (fs', files', m') ->
  exists new,
    files' = files ++ new /\ length new = length names /\
    forall n, m' !! n = Some true <->
              m !! n = Some true \/ declared_in new n.
Proof.
  revert fs files m. induction names as [|name names IH];
    intros fs files m; simpl.
  - intros [= <- <- <-]. exists []. rewrite app_nil_r. split_and!; [done..|].
    intros n. split; [by left|].
    intros [?|(file & _ & Hf & _)]; [done|]. by apply not_elem_of_nil in Hf.
  - destruct (parser_ParseFile fs (filepath_Join dir name) None 0)
      as [fs1 [file|e]]; [|done].
    destruct (note_replaced (ast.Decls file) m) as [m1| |] eqn:Hnote;
      simpl; [|done|done].
    intros H. destruct (IH _ _ _ H) as (new & -> & Hlen & Hm).
    exists (file :: new). rewrite <- app_assoc. simpl.
    split_and!; [done|by rewrite Hlen|].
    intros n. rewrite Hm, (note_replaced_spec _ _ _ Hnote n). split.
    + intros [[?|(d & Hd & Hn)]|(f & d & Hf & Hd & Hn)].
      * by left.
      * right. exists file, d. split_and!; [by left|done..].
      * right. exists f, d. split_and!; [by right|done..].
    + intros [?|(f & d & Hf & Hd & Hn)]; [left; by left|].
      apply elem_of_cons in Hf as [->|Hf].
      * left. right. by exists d.
      * right. by exists f, d.
Qed.

(** The natives come in the order of their names, the file set going
    from one parse to the next. *)
Lemma parse_natives_order (dir : string) (names : list string)
  (fs fs' : token_FileSet) (files files' : list (ast.File Rest))
  (m m' : gmap string bool) :
  the_parse_natives dir names fs files m = Returned (fs', files', m') ->
  exists new,
    files' = files ++ new /\ the_natives_parsed dir names fs new fs'.
Proof.
  revert fs files m. induction names as [|name names IH];
    intros fs files m; simpl.
  - intros [= <- <- <-]. exists []. by rewrite app_nil_r.
  - destruct (parser_ParseFile fs (filepath_Join dir name) None 0)
      as [fs1 [file|e]] eqn:Hparse; [|done].
    destruct (note_replaced (ast.Decls file) m) as [m1| |]; simpl;
      [|done|done].
    intros H. destruct (IH _ _ _ H) as (new & -> & Hnew).
    exists (file :: new). rewrite <- app_assoc. split; [done|].
    simpl. exists fs1. split; [done|exact Hnew].
Qed.

Lemma blank_replaced_spec (natives : list (ast.File Rest))
  (m : gmap string bool) (decls decls' : list (ast.Decl Rest)) :
  (forall n, m !! n = Some true <-> declared_in natives n) ->
  blank_replaced (delete "init" m) decls = Returned decls' ->
  Forall2 (blanked natives) decls decls'.
Proof.
  intros Hm. revert decls'.
  induction decls as [|decl decls IH]; intros decls'; simpl.
  - intros [= <-]. constructor.
  - destruct decl as [d|r].
    + destruct (funcName d) as [name| |] eqn:Hname; simpl; [|done|done].
      destruct (blank_replaced _ decls) as [rest| |]; simpl; [|done|done].
      intros [= <-]. constructor; [|by apply IH].
      simpl. exists name. split; [done|].
      destruct (decide (name = "init")) as [->|Hne].
      * right. rewrite lookup_delete_eq. simpl. split; [|done].
        by intros [? _].
      * rewrite lookup_delete_ne by done.
        destruct (m !! name) as [[]|] eqn:Hl; simpl.
        -- left. split; [|done]. split; [done|]. by apply Hm.
        -- right. split; [|done]. intros [_ Hd%Hm]. congruence.
        -- right. split; [|done]. intros [_ Hd%Hm]. congruence.
    + destruct (blank_replaced _ decls) as [rest| |]; simpl; [|done|done].
      intros [= <-]. constructor; [done|by apply IH].
Qed.

(** ** The files of the package *)

Lemma foldl_append_error (l : list Err) (errList : option (list Err)) :
  (is_Some errList -> is_Some (foldl append_error errList l)) /\
  (foldl append_error errList l = None -> l = [] /\ errList = None) /\
  ((forall l0, errList = Some l0 -> l0 <> []) ->
   forall l1, foldl append_error errList l = Some l1 -> l1 <> []).
Proof.
  revert errList. induction l as [|e l IH]; intros errList; simpl.
  - split_and!; [done|done|]. intros H l1 Hl1. by apply H.
  - destruct (IH (append_error errList e)) as (I1 & I2 & I3).
    split_and!.
    + intros _. apply I1. by eexists.
    + intros H. by destruct (I2 H) as [_ ?].
    + intros _. apply I3. intros l0 [= <-]. by destruct (default [] errList).
Qed.

(** A file of the package that was patched: it was opened and parsed,
    then the functions that the natives declare were blanked, then
    [applyPatches] was applied. *)
Lemma parse_files_spec (pkg : build.Package) (natives : list (ast.File Rest))
  (m : gmap string bool) (names : list string) (fs fs' : token_FileSet)
  (files files' : list (ast.File Rest)) (errList errList' : option (list Err)) :
  (forall n, m !! n = Some true <-> declared_in natives n) ->
  the_parse_files pkg (delete "init" m) names fs files errList =
    Returned (fs', inr (files', errList')) ->
  (is_Some errList -> is_Some errList') /\
  ((forall l0, errList = Some l0 -> l0 <> []) ->
   forall l1, errList' = Some l1 -> l1 <> []) /\
  (forall name, name ∈ names -> is_inl (os_Open (the_name pkg name))) /\
  exists new,
    files' = files ++ new /\ length new <= length names /\
    (errList' = None ->
     (forall e, as_scanner_ErrorList e <> Some []) ->
     length new = length names) /\
    Forall (fun file =>
      exists name r fs0 fs1 parsed decls fs2,
        name ∈ names /\ os_Open (the_name pkg name) = inl r /\
        parser_ParseFile fs0 (the_name pkg name) (Some r) 0 =
          (fs1, inl parsed) /\
        Forall2 (blanked natives) (ast.Decls parsed) decls /\
        applyPatches (ast.with_Decls decls parsed) fs1 (build.ImportPath pkg) =
          Some (fs2, file)) new.
Proof.
  intros Hm. revert fs files errList.
  induction names as [|name names IH]; intros fs files errList; simpl.
  - intros [= <- <- <-]. split_and!; [done|done| |].
    + intros name Hn. by apply not_elem_of_nil in Hn.
    + exists []. rewrite app_nil_r. by split_and!.
  - fold (the_name pkg name).
    destruct (os_Open (the_name pkg name)) as [r|e] eqn:Hopen; [|done].
    destruct (parser_ParseFile fs (the_name pkg name) (Some r) 0)
      as [fs1 [parsed|e]] eqn:Hparse.
    + destruct (blank_replaced (delete "init" m) (ast.Decls parsed))
        as [decls| |] eqn:Hblank; simpl; [|done|done].
      destruct (applyPatches _ fs1 _) as [[fs2 file]|] eqn:Hpatch; [|done].
      intros H. destruct (IH _ _ _ H) as (I1 & I2 & I3 & new & -> & Hlen & Heq & Hall).
      split_and!; [done|done| |].
      * intros n [->|Hn]%elem_of_cons; [by exists r|by apply I3].
      * exists (file :: new). rewrite <- app_assoc. simpl.
        split_and!; [done|lia| |].
        -- intros Hnone Hne. by rewrite Heq.
        -- constructor.
           ++ exists name, r, fs, fs1, parsed, decls, fs2.
              split_and!; [by left|done|done| |done].
              by eapply blank_replaced_spec.
           ++ eapply Forall_impl; [exact Hall|]. simpl.
              intros f (n & r' & a & b & c & d & e' & Hn & ?).
              exists n, r', a, b, c, d, e'. split; [by right|done].
    + set (errList1 := match as_scanner_ErrorList e with
                       | Some list => foldl append_error errList list
                       | None => append_error errList e
                       end).
      intros H. destruct (IH _ _ _ H) as (I1 & I2 & I3 & new & -> & Hlen & Heq & Hall).
      assert (is_Some errList -> is_Some errList1) as Hmono.
      { unfold errList1. destruct (as_scanner_ErrorList e) as [l|].
        - apply foldl_append_error.
        - intros _. by eexists. }
      split_and!.
      * intros Hs. by apply I1, Hmono.
      * intros Hsound. apply I2. unfold errList1.
        destruct (as_scanner_ErrorList e) as [l|].
        -- by apply foldl_append_error.
        -- intros l0 [= <-]. by destruct (default [] errList).
      * intros n [->|Hn]%elem_of_cons; [by exists r|by apply I3].
      * exists new. split_and!; [done|lia| |].
        -- intros Hnone Hne. exfalso.
           assert (errList1 = None) as H1.
           { destruct errList1 eqn:E; [|done].
             destruct I1 as [? I1]; [by eexists|congruence]. }
           unfold errList1 in H1.
           destruct (as_scanner_ErrorList e) as [l|] eqn:El; [|done].
           apply foldl_append_error in H1 as [-> _]. by apply (Hne e).
        -- eapply Forall_impl; [exact Hall|]. simpl.
           intros f (n & r' & a & b & c & d & e' & Hn & ?).
           exists n, r', a, b, c, d, e'. split; [by right|done].
Qed.

(** The patched files come in the order of the names; a name without
    a file is one whose parse gave an empty list of errors. *)
Lemma parse_files_order (pkg : build.Package) (natives : list (ast.File Rest))
  (m : gmap string bool) (names : list string) (fs fs' : token_FileSet)
  (files files' : list (ast.File Rest)) (errList : option (list Err)) :
  (forall n, m !! n = Some true <-> declared_in natives n) ->
  the_parse_files pkg (delete "init" m) names fs files errList =
    Returned (fs', inr (files', None)) ->
  exists new,
    files' = files ++ new /\
    the_files_patched pkg natives names fs new fs'.
Proof.
  intros Hm. revert fs files errList.
  induction names as [|name names IH]; intros fs files errList.
  - simpl. intros [= <- <-]. exists []. by rewrite app_nil_r.
  - cbn [parse_files files_patched]. fold (the_name pkg name).
    destruct (os_Open (the_name pkg name)) as [r|e] eqn:Hopen; [|done].
    destruct (parser_ParseFile fs (the_name pkg name) (Some r) 0)
      as [fs1 [parsed|e]] eqn:Hparse.
    + destruct (blank_replaced (delete "init" m) (ast.Decls parsed))
        as [decls| |] eqn:Hblank; simpl; [|done|done].
      destruct (applyPatches _ fs1 _) as [[fs2 file]|] eqn:Hpatch; [|done].
      intros H. destruct (IH _ _ _ H) as (new & -> & Hnew).
      exists (file :: new). rewrite <- app_assoc. split; [done|].
      exists r. split; [done|]. rewrite Hparse.
      exists decls, fs2, file, new. split_and!; [|done..].
      by eapply blank_replaced_spec.
    + set (errList1 := match as_scanner_ErrorList e with
                       | Some list => foldl append_error errList list
                       | None => append_error errList e
                       end).
      intros H. destruct (IH _ _ _ H) as (new & -> & Hnew).
      exists new. split; [done|]. exists r. split; [done|].
      rewrite Hparse. split; [|done].
      destruct (parse_files_spec _ _ _ _ _ _ _ _ _ _ Hm H) as (I1 & _).
      assert (errList1 = None) as H1.
      { destruct errList1 eqn:E; [|done].
        destruct I1 as [? I1]; [by eexists|congruence]. }
      unfold errList1 in H1.
      destruct (as_scanner_ErrorList e) as [l|] eqn:El; [|done].
      by apply foldl_append_error in H1 as [-> _].
Qed.

Lemma parse_files_open_error (pkg : build.Package) (m : gmap string bool)
  (names : list string) (fs fs' : token_FileSet)
  (files : list (ast.File Rest)) (errList : option (list Err)) (e : Err) :
  the_parse_files pkg m names fs files errList = Returned (fs', inl e) ->
  exists before name after,
    names = before ++ name :: after /\
    os_Open (the_name pkg name) = inr e /\
    forall n, n ∈ before -> is_inl (os_Open (the_name pkg n)).
Proof.
  revert fs files errList.
  induction names as [|name names IH]; intros fs files errList; simpl;
    [done|].
  fold (the_name pkg name).
  destruct (os_Open (the_name pkg name)) as [r|e'] eqn:Hopen.
  - assert (forall fs1 files1 errList1,
              the_parse_files pkg m names fs1 files1 errList1 =
                Returned (fs', inl e) ->
              exists before name0 after,
                name :: names = before ++ name0 :: after /\
                os_Open (the_name pkg name0) = inr e /\
                forall n, n ∈ before -> is_inl (os_Open (the_name pkg n)))
      as Hnext.
    { intros fs1 files1 errList1 H.
      destruct (IH _ _ _ H) as (before & name0 & after & -> & Hfail & Hok).
      exists (name :: before), name0, after. split_and!; [done..|].
      intros n [->|Hn]%elem_of_cons; [by exists r|by apply Hok]. }
    destruct (parser_ParseFile fs (the_name pkg name) (Some r) 0)
      as [fs1 [parsed|e1]]; [|by apply Hnext].
    destruct (blank_replaced m (ast.Decls parsed)) as [decls| |];
      simpl; [|done|done].
    destruct (applyPatches _ fs1 _) as [[fs2 file]|]; [|done].
    by apply Hnext.
  - intros [= <- <-]. exists [], name, names. split_and!; [done..|].
    intros n Hn. by apply not_elem_of_nil in Hn.
Qed.

(** ** The results of [Parse] *)

Lemma Parse_inv (pkg : build.Package) (fs fs' : token_FileSet)
  (files : list (ast.File Rest)) (err : option Parse_error) :
  the_Parse pkg fs = Returned (fs', (files, err)) ->
  exists fs1 natives m r,
    the_natives_parsed (the_natives_dir pkg) (the_natives pkg) fs natives fs1 /\
    length natives = length (the_natives pkg) /\
    (forall n, m !! n = Some true <-> declared_in natives n) /\
    the_parse_files pkg (delete "init" m) (build.GoFiles pkg) fs1 natives None =
      Returned (fs', r) /\
    match r with
    | inl e => files = [] /\ err = Some (OpenError e)
    | inr (files', Some errList) =>
        files = [] /\ err = Some (ErrorList errList)
    | inr (files', None) => files = files' /\ err = None
    end.
Proof.
  unfold Parse, natives_of, natives_dir_of.
  set (isTestPkg := HasSuffix (build.ImportPath pkg) "_test").
  set (importPath := if isTestPkg then _ else _).
  destruct (the_Import (natives_path +:+ importPath) 0 "js")
    as [[nativesPkg|] [e|]]; simpl.
  - intros H.
    destruct (the_parse_files pkg _ _ fs [] None) as [[fs2 r]| |] eqn:Hr;
      simpl in H; [|done|done].
    assert (fs2 = fs') as -> by (destruct r as [?|[? [?|]]]; by injection H).
    exists fs, [], ∅, r. split_and!; [done|done| |done|].
    + intros n. rewrite lookup_empty. split; [done|].
      intros (f & _ & Hf & _). by apply not_elem_of_nil in Hf.
    + destruct r as [e'|[files' [l|]]]; by injection H as <- <-.
  - destruct (the_parse_natives _ _ fs [] ∅) as [[[fs1 natives] m]| |] eqn:Hn;
      simpl; [|done|done].
    destruct (parse_natives_spec _ _ _ _ _ _ _ _ Hn) as (new & Hnew & Hlen & Hm).
    simpl in Hnew. subst new.
    destruct (parse_natives_order _ _ _ _ _ _ _ _ Hn) as (new & Hnew & Hord).
    simpl in Hnew. subst new.
    intros H.
    destruct (the_parse_files pkg _ _ fs1 natives None) as [[fs2 r]| |] eqn:Hr;
      simpl in H; [|done|done].
    assert (fs2 = fs') as -> by (destruct r as [?|[? [?|]]]; by injection H).
    exists fs1, natives, m, r. split_and!; [done|done| |done|].
    + intros n. rewrite Hm, lookup_empty. split; [by intros [?|?]|by right].
    + destruct r as [e'|[files' [l|]]]; by injection H as <- <-.
  - intros H.
    destruct (the_parse_files pkg _ _ fs [] None) as [[fs2 r]| |] eqn:Hr;
      simpl in H; [|done|done].
    assert (fs2 = fs') as -> by (destruct r as [?|[? [?|]]]; by injection H).
    exists fs, [], ∅, r. split_and!; [done|done| |done|].
    + intros n. rewrite lookup_empty. split; [done|].
      intros (f & _ & Hf & _). by apply not_elem_of_nil in Hf.
    + destruct r as [e'|[files' [l|]]]; by injection H as <- <-.
  - done.
Qed.

(** An [ErrorList] that [Parse] returns is never empty, so that its
    [Error] method, which indexes the first entry, does not panic: it
    gives the message of the first error reported.  No file comes with
    the list, and every file of the package could be opened. *)
Theorem Parse_ErrorList_reportable (pkg : build.Package)
  (fs fs' : token_FileSet) (files : list (ast.File Rest)) (errs : list Err) :
  the_Parse pkg fs = Returned (fs', (files, Some (ErrorList errs))) ->
  files = [] /\
  (exists e rest, errs = e :: rest /\
                  ErrorList_Error Err_Error errs = Returned (Err_Error e)) /\
  forall name, name ∈ build.GoFiles pkg ->
               is_inl (os_Open (the_name pkg name)).
Proof.
  intros H.
  destruct (Parse_inv _ _ _ _ _ H)
    as (fs1 & natives & m & r & _ & _ & Hm & Hr & Hres).
  destruct r as [e|[files' [l|]]]; [by destruct Hres|..|by destruct Hres].
  destruct Hres as [-> [= <-]].
  destruct (parse_files_spec _ _ _ _ _ _ _ _ _ _ Hm Hr) as (_ & Hsound & Hopen & _).
  split_and!; [done| |done].
  destruct errs as [|e rest]; [by destruct (Hsound ltac:(done) [] eq_refl)|].
  by exists e, rest.
Qed.

(** When a file of the package cannot be opened, [Parse] returns the
    error of [os.Open] as it is, with no file: it is the error of the
    first file in [GoFiles] that does not open, and the parse errors
    collected from the files before it are dropped. *)
Theorem Parse_OpenError_first (pkg : build.Package) (fs fs' : token_FileSet)
  (files : list (ast.File Rest)) (e : Err) :
  the_Parse pkg fs = Returned (fs', (files, Some (OpenError e))) ->
  files = [] /\
  exists before name after,
    build.GoFiles pkg = before ++ name :: after /\
    os_Open (the_name pkg name) = inr e /\
    forall n, n ∈ before -> is_inl (os_Open (the_name pkg n)).
Proof.
  intros H.
  destruct (Parse_inv _ _ _ _ _ H)
    as (fs1 & natives & m & r & _ & _ & Hm & Hr & Hres).
  destruct r as [e'|[files' [l|]]]; [|by destruct Hres..].
  destruct Hres as [-> [= <-]]. split; [done|].
  by eapply parse_files_open_error.
Qed.

(** When [Parse] returns without error, the files are those of the
    natives followed by those of the package.  The natives are the files
    that the parser returns for the names of the natives, one per name
    and in the order of the names.  The files of the package come in the
    order of [GoFiles]: every file of [GoFiles] was opened and parsed;
    of one that parsed, every function that the natives declare under the
    same name ([T.m] for a method, [init] excepted) was given the name
    [_], then [applyPatches] was applied, and the result is the next file
    returned; one that did not parse had an empty list of errors as its
    error and is left out, with no error.  The file set goes through the
    parses in that same order, from the one given to the one returned.
    So there is one file per name of [GoFiles] when the parser never
    returns an empty list of errors as an error. *)
Theorem Parse_success (pkg : build.Package) (fs fs' : token_FileSet)
  (files : list (ast.File Rest)) :
  the_Parse pkg fs = Returned (fs', (files, None)) ->
  exists natives patched fs1,
    files = natives ++ patched /\
    the_natives_parsed (the_natives_dir pkg) (the_natives pkg) fs natives fs1 /\
    the_files_patched pkg natives (build.GoFiles pkg) fs1 patched fs' /\
    length natives = length (the_natives pkg) /\
    length patched <= length (build.GoFiles pkg) /\
    ((forall e, as_scanner_ErrorList e <> Some []) ->
     length patched = length (build.GoFiles pkg)) /\
    Forall (fun file =>
      exists name r fs0 fs1 parsed decls fs2,
        name ∈ build.GoFiles pkg /\ os_Open (the_name pkg name) = inl r /\
        parser_ParseFile fs0 (the_name pkg name) (Some r) 0 =
          (fs1, inl parsed) /\
        Forall2 (blanked natives) (ast.Decls parsed) decls /\
        applyPatches (ast.with_Decls decls parsed) fs1 (build.ImportPath pkg) =
          Some (fs2, file)) patched.
Proof.
  intros H.
  destruct (Parse_inv _ _ _ _ _ H)
    as (fs1 & natives & m & r & Hord & Hlen & Hm & Hr & Hres).
  destruct r as [e'|[files' [l|]]]; [by destruct Hres..|].
  destruct Hres as [-> _].
  destruct (parse_files_spec _ _ _ _ _ _ _ _ _ _ Hm Hr)
    as (_ & _ & _ & new & -> & Hle & Heq & Hall).
  destruct (parse_files_order _ _ _ _ _ _ _ _ _ Hm Hr) as (new' & Hnew' & Hpat).
  apply app_inv_head in Hnew'. subst new'.
  exists natives, new, fs1. split_and!; [done..| |done].
  intros Hne. by apply Heq.
Qed.
End ParseFacts.
(** ** The theorems at work on the example file system *)

Lemma Parse_ErrorList_reportable_witness :
  example_Parse ["a.go"; "bad.go"] =
    Returned ([x01; x01],
              ([], Some (ErrorList ["bad.go:1:1: expected declaration";
                                    "bad.go:2:1: expected declaration"]))) /\
  exists e rest,
    ["bad.go:1:1: expected declaration";
     "bad.go:2:1: expected declaration"] = e :: rest /\
    ErrorList_Error id ["bad.go:1:1: expected declaration";
                        "bad.go:2:1: expected declaration"] =
      Returned (id e).
Proof.
  assert (example_Parse ["a.go"; "bad.go"] =
    Returned ([x01; x01],
              ([], Some (ErrorList ["bad.go:1:1: expected declaration";
                                    "bad.go:2:1: expected declaration"]))))
    as H by (vm_compute; reflexivity).
  split; [exact H|].
  destruct (Parse_ErrorList_reportable id example_Default
              example_Context_Import example_Stat example_IsNotExist
              example_Open example_Join id example_IsAbs example_ParseFile
              example_ErrorList example_applyPatches
              (example_package "p" ["a.go"; "bad.go"]) [] _ _ _ H)
    as (_ & H2 & _).
  exact H2.
Defined.

Lemma Parse_OpenError_first_witness :
  example_Parse ["bad.go"; "missing.go"; "a.go"] =
    Returned ([x01], ([], Some (OpenError "no such file"))) /\
  exists before name after,
    ["bad.go"; "missing.go"; "a.go"] = before ++ name :: after /\
    example_Open (source_name example_Join example_IsAbs
                    (example_package "p" ["bad.go"; "missing.go"; "a.go"])
                    name) = inr "no such file" /\
    forall n, n ∈ before ->
      is_inl (example_Open (source_name example_Join example_IsAbs
                (example_package "p" ["bad.go"; "missing.go"; "a.go"]) n)).
Proof.
  assert (example_Parse ["bad.go"; "missing.go"; "a.go"] =
    Returned ([x01], ([], Some (OpenError "no such file"))))
    as H by (vm_compute; reflexivity).
  split; [exact H|].
  destruct (Parse_OpenError_first example_Default
              example_Context_Import example_Stat example_IsNotExist
              example_Open example_Join id example_IsAbs example_ParseFile
              example_ErrorList example_applyPatches
              (example_package "p" ["bad.go"; "missing.go"; "a.go"]) [] _ _ _ H)
    as (_ & H2).
  exact H2.
Defined.

Lemma order_ErrorList_example :
  order_ErrorList "no errors" = Some [] /\
  order_Parse ["b.go"; "a.go"] =
    Returned ([x01; x03; x02],
              ([example_file "f"; example_file "g"; example_file "_"], None)).
Proof. split; vm_compute; reflexivity. Qed.

Lemma Parse_success_witness :
  order_Parse ["a.go"; "void.go"; "b.go"] =
    Returned ([x01; x02; x03],
              ([example_file "f"; example_file "_"; example_file "g"], None)) /\
  exists natives patched fs1,
    [example_file "f"; example_file "_"; example_file "g"] =
      natives ++ patched /\
    natives_parsed example_Join order_ParseFile
      (natives_dir_of example_Default example_Context_Import example_Stat
         example_IsNotExist example_Join id
         (example_package "p" ["a.go"; "void.go"; "b.go"]))
      (natives_of example_Default example_Context_Import example_Stat
         example_IsNotExist example_Join id
         (example_package "p" ["a.go"; "void.go"; "b.go"]))
      [] natives fs1 /\
    files_patched example_Open example_Join example_IsAbs order_ParseFile
      order_ErrorList example_applyPatches
      (example_package "p" ["a.go"; "void.go"; "b.go"]) natives
      ["a.go"; "void.go"; "b.go"] fs1 patched [x01; x02; x03] /\
    length natives = 1 /\ length patched <= 3.
Proof.
  assert (order_Parse ["a.go"; "void.go"; "b.go"] =
    Returned ([x01; x02; x03],
              ([example_file "f"; example_file "_"; example_file "g"], None)))
    as H by (vm_compute; reflexivity).
  split; [exact H|].
  destruct (Parse_success example_Default
              example_Context_Import example_Stat example_IsNotExist
              example_Open example_Join id example_IsAbs order_ParseFile
              order_ErrorList example_applyPatches
              (example_package "p" ["a.go"; "void.go"; "b.go"]) [] _ _ H)
    as (natives & patched & fs1 & H1 & H2 & H3 & H4 & H5 & _).
  exists natives, patched, fs1.
  split; [exact H1|]. split; [exact H2|]. split; [exact H3|].
  split; [exact H4|exact H5].
Defined.
